(** * yep: the yoyoengine pack-file subsystem (src/yep/yep.c)

    A shallow embedding of the archive writer, the directory walker, the
    zlib wrappers, the archive reader and the open-archive cache, followed
    by the properties proved about them.

    Conventions.
    - Bytes are integers in [0, 256); a C string is a [string] and its
      in-memory form is [cstring s] (its bytes followed by the terminator).
    - [uint8_t], [uint16_t] and [uint32_t] values are integers reduced
      modulo 2^8, 2^16 and 2^32 where the C code narrows them.
    - Memory obtained from [malloc] or living in uninitialised locals is a
      list of cells; a cell is [None] while its value is indeterminate.
    - Diagnostic output ([printf], [perror]) is not modelled.
    - The host is little-endian, as the on-disk format assumes. *)

From Stdlib Require Import ZArith String Ascii Bool Lia List.
Import ListNotations.

Local Open Scope string_scope.
Local Open Scope list_scope.
Local Open Scope Z_scope.

(* ================================================================== *)
(** * Part I: definitions                                               *)
(* ================================================================== *)

(** ** Outcomes of a C computation *)

(** A call either returns, terminates the process through [exit], or has
    a behaviour the inputs do not determine (undefined behaviour, or a
    use of indeterminate memory). *)
Inductive outcome (A : Type) : Type :=
| Ret (a : A)
| Exit (code : Z)
| Undef.
Arguments Ret {A} a.
Arguments Exit {A} code.
Arguments Undef {A}.

Definition bind {A B : Type} (m : outcome A) (k : A -> outcome B) : outcome B :=
  match m with
  | Ret a => k a
  | Exit c => Exit c
  | Undef => Undef
  end.

Notation "x <- m ;; k" := (bind m (fun x => k))
  (at level 61, m at next level, right associativity).
Notation "' pat <- m ;; k" := (bind m (fun x => match x with pat => k end))
  (at level 61, pat pattern, m at next level, right associativity).

(** ** Integers, bytes and strings *)

Definition len {A : Type} (l : list A) : Z := Z.of_nat (length l).
Definition ztake {A : Type} (n : Z) (l : list A) : list A := firstn (Z.to_nat n) l.
Definition zdrop {A : Type} (n : Z) (l : list A) : list A := skipn (Z.to_nat n) l.

Definition UINT8 : Z := 2 ^ 8.
Definition UINT16 : Z := 2 ^ 16.
Definition UINT32 : Z := 2 ^ 32.
Definition INT_MAX : Z := 2 ^ 31 - 1.

(** [n] bytes of [v], least significant first. *)
Fixpoint le_bytes (n : nat) (v : Z) : list Z :=
  match n with
  | O => []
  | S n' => v mod 256 :: le_bytes n' (v / 256)
  end.

Fixpoint le_value (bs : list Z) : Z :=
  match bs with
  | [] => 0
  | b :: bs' => b + 256 * le_value bs'
  end.

Fixpoint bytes_of_string (s : string) : list Z :=
  match s with
  | EmptyString => []
  | String c s' => Z.of_N (N_of_ascii c) :: bytes_of_string s'
  end.

Definition cstring (s : string) : list Z := bytes_of_string s ++ [0].

Definition strlen (s : string) : Z := Z.of_nat (String.length s).

(** [p + n] for a [char *p] that points at the string [s]. *)
Fixpoint string_drop (n : nat) (s : string) : string :=
  match n, s with
  | O, _ => s
  | S n', String _ s' => string_drop n' s'
  | S _, EmptyString => EmptyString
  end.

(** Memory cells. *)
Definition cell : Type := option Z.
Definition mem : Type := list cell.

Definition malloc (n : Z) : mem := repeat None (Z.to_nat n).
Definition init_cells (bs : list Z) : mem := map Some bs.

(** Store [bs] at the start of the object [m] (what [fread] does to its
    destination, also when fewer bytes than asked for were available). *)
Definition store (bs : list Z) (m : mem) : mem :=
  init_cells bs ++ skipn (length bs) m.

(** The bytes of a fully initialised object. *)
Fixpoint load (m : mem) : option (list Z) :=
  match m with
  | [] => Some []
  | None :: _ => None
  | Some b :: m' =>
      match load m' with
      | Some bs => Some (b :: bs)
      | None => None
      end
  end.

(** [strcmp(handle, name) == 0] where [h] is the in-memory form of
    [handle] and [name] is an array object: [Some true] when equal,
    [Some false] when they differ, [None] when the comparison reads an
    indeterminate cell or runs off the end of the array. *)
Fixpoint strcmp_eq (h : list Z) (name : mem) : option bool :=
  match h, name with
  | hc :: h', Some nc :: name' =>
      if hc =? nc then (if hc =? 0 then Some true else strcmp_eq h' name')
      else Some false
  | _, _ => None
  end.

(** ** yep.h

    The header is not among the sources; its constants are taken from the
    format description or kept abstract. *)

(** Modelled from the spec: [YEP_HEADER_SIZE_BYTES] of yep.h, the width of
    one header record: 64 (name) + 4 (offset) + 4 (size) + 1 (compression
    type) + 4 (uncompressed size) + 1 (data type) = 78 bytes. *)
Definition YEP_HEADER_SIZE_BYTES : Z := 78.

(** Modelled from the spec: [YEP_COMPRESSION_NONE] of yep.h, stored as 0. *)
Definition YEP_COMPRESSION_NONE : Z := 0.

(** Modelled from the spec: [YEP_COMPRESSION_ZLIB] of yep.h, stored as 1. *)
Definition YEP_COMPRESSION_ZLIB : Z := 1.

(** The constants of yep.h whose values nothing in the sources fixes. *)
Class YepHeader : Type := {
  YEP_CURRENT_FORMAT_VERSION : Z;
  YEP_DATATYPE_MISC : Z
}.

(** [struct yep_header_node]: the fields yep.c uses. [name] is the
    64-byte array, [fullpath] the heap string. The [next] pointer is the
    tail of the list the node sits in. *)
Record yep_header_node : Type := {
  name : list Z;
  fullpath : string
}.

(** [struct yep_pack_list]: the linked list from its head, and the
    counter kept beside it. *)
Record yep_pack_list_t : Type := {
  head : list yep_header_node;
  entry_count : Z
}.

(** ** zlib

    The library is external. [deflate_finish input avail_out] stands for
    one call [deflate(&stream, Z_FINISH)] on a fresh stream whose input is
    [input] and whose output buffer has [avail_out] bytes: it yields the
    return code and the bytes written ([total_out] is their number).
    [inflate_finish] is the same for [inflate]. *)
Definition Z_OK : Z := 0.
Definition Z_STREAM_END : Z := 1.

Class Zlib : Type := {
  deflateInit : Z;
  deflate_finish : list Z -> Z -> Z * list Z;
  inflateInit : Z;
  inflate_finish : list Z -> Z -> Z * list Z
}.

(** zlib's own bound on the size of a deflated stream ([compressBound]). *)
Definition compressBound (n : Z) : Z :=
  n + n / 2 ^ 12 + n / 2 ^ 14 + n / 2 ^ 25 + 13.

(** What the code relies on: both initialisers succeed, a stream never
    writes past its buffer, [deflate] finishes when the buffer is at least
    [compressBound] bytes, and inflating a finished deflate stream into a
    buffer of the original size gives the original bytes back. *)
Class ZlibLaws (z : Zlib) : Prop := {
  deflateInit_ok : deflateInit = Z_OK;
  inflateInit_ok : inflateInit = Z_OK;
  deflate_fits : forall input avail,
    0 <= avail -> len (snd (deflate_finish input avail)) <= avail;
  deflate_bound : forall input avail,
    compressBound (len input) <= avail ->
    fst (deflate_finish input avail) = Z_STREAM_END;
  inflate_deflate : forall input avail out,
    deflate_finish input avail = (Z_STREAM_END, out) ->
    inflate_finish out (len input) = (Z_STREAM_END, input)
}.

(** ** Compression wrappers *)

(** The result of [compress_data]: the return code, and what [*output]
    and [*output_size] hold afterwards. [*output] is [None] when it was
    never assigned or points at freed memory; otherwise it is the
    allocated buffer. [*output_size] is [None] when never assigned. *)
Record compress_result : Type := {
  cr_ret : Z;
  cr_output : option mem;
  cr_output_size : option Z
}.

Definition compress_data `{Zlib} (input : list Z) (input_size : Z) : compress_result :=
  if negb (deflateInit =? Z_OK) then
    {| cr_ret := -1; cr_output := None; cr_output_size := None |}
  else
    let avail_in := input_size mod UINT32 in
    let output_size := input_size + input_size / 10 + 12 in
    let output := malloc output_size in
    let avail_out := output_size mod UINT32 in
    let '(res, written) := deflate_finish (ztake avail_in input) avail_out in
    if negb (res =? Z_STREAM_END) then
      {| cr_ret := -1; cr_output := None; cr_output_size := Some output_size |}
    else
      {| cr_ret := 0;
         cr_output := Some (store written output);
         cr_output_size := Some (len written) |}.

(** The result of [decompress_data]: the return code, the size asked of
    [malloc] (when the call was reached), and what [*output] holds
    afterwards ([None] when never assigned or freed). *)
Record decompress_result : Type := {
  dr_ret : Z;
  dr_malloc : option Z;
  dr_output : option mem
}.

Definition decompress_data `{Zlib} (input : list Z) (input_size : Z)
    (output_size : Z) : decompress_result :=
  let inflate_result := inflateInit in
  if negb (inflate_result =? Z_OK) then
    {| dr_ret := -1; dr_malloc := None; dr_output := None |}
  else
    let avail_in := input_size mod UINT32 in
    let output := malloc output_size in
    let avail_out := output_size mod UINT32 in
    let '(code, written) := inflate_finish (ztake avail_in input) avail_out in
    let res := negb (code =? Z_STREAM_END) in
    if res then
      {| dr_ret := -1; dr_malloc := Some output_size; dr_output := None |}
    else
      let total_out := len written in
      if negb (output_size =? total_out) then
        {| dr_ret := -1; dr_malloc := Some output_size;
           dr_output := Some (store written output) |}
      else
        {| dr_ret := 0; dr_malloc := Some output_size;
           dr_output := Some (store written output) |}.

(** ** The file system seen by the packer

    What sits at the directory handed to [yep_pack_directory]: a tree
    whose nodes are classified the way [stat] classifies them ([stat]
    follows symbolic links, so a link to a regular file is a [Reg]).
    The entries of a [Directory] are listed in the order [readdir]
    returns them and include the pseudo-entries "." and ".." when the
    file system reports them. *)
Inductive fsnode : Type :=
| Reg (data : list Z)                       (* S_ISREG *)
| Directory (readable : bool) (entries : list (string * fsnode))
                                            (* S_ISDIR; [readable]: opendir succeeds *)
| Other                                     (* any other file type *)
| Broken.                                   (* stat fails *)

(** The first entry of a directory listing that carries a given name. *)
Fixpoint find_entry (c : string) (es : list (string * fsnode)) : option fsnode :=
  match es with
  | [] => None
  | (d_name, n) :: es' => if String.eqb d_name c then Some n else find_entry c es'
  end.

(** The components of a path, split at each separator. *)
Fixpoint components (s : string) : list string :=
  match s with
  | EmptyString => [EmptyString]
  | String c s' =>
      if Ascii.eqb c "/" then EmptyString :: components s'
      else match components s' with
           | h :: t => String c h :: t
           | [] => [String c EmptyString]
           end
  end.

Fixpoint fs_lookup (cs : list string) (n : fsnode) : option fsnode :=
  match cs with
  | [] => Some n
  | c :: cs' =>
      match n with
      | Directory _ es =>
          match find_entry c es with
          | Some n' => fs_lookup cs' n'
          | None => None
          end
      | _ => None
      end
  end.

(** [fopen(path, "rb")] followed by reading the whole stream, for a path
    below the directory [root] whose content is [tree]: the bytes of the
    regular file the path names, if any. *)
Definition fs_fopen (root : string) (tree : fsnode) (path : string) : option (list Z) :=
  if String.prefix (root ++ "/") path then
    match fs_lookup (components (string_drop (String.length root + 1) path)) tree with
    | Some (Reg data) => Some data
    | _ => None
    end
  else None.

(** ** Directory walker *)

(** The node built for an accepted file: the name array is zeroed, then
    receives the relative path. *)
Definition new_node (relative_path full_path : string) : yep_header_node :=
  {| name := bytes_of_string relative_path
             ++ repeat 0 (64 - String.length relative_path)%nat;
     fullpath := full_path |}.

(** [_ye_walk_directory(root_path, directory_path)], where [dir] is what
    [directory_path] names and [pl] is the global [yep_pack_list].
    [snprintf] into [full_path] is taken not to truncate (paths shorter
    than PATH_MAX). *)
Fixpoint _ye_walk_directory (root_path directory_path : string) (dir : fsnode)
    (pl : yep_pack_list_t) {struct dir} : yep_pack_list_t :=
  match dir with
  | Directory true entries =>
      (fix walk_entries (es : list (string * fsnode)) (pl : yep_pack_list_t)
           {struct es} : yep_pack_list_t :=
         match es with
         | [] => pl
         | (d_name, n) :: rest =>
             let full_path := (directory_path ++ "/" ++ d_name)%string in
             let pl' :=
               match n with
               | Broken => pl
               | Reg _ =>
                   let relative_path :=
                     string_drop (String.length root_path + 1) full_path in
                   if 64 <? strlen relative_path + 1 then pl
                   else {| head := new_node relative_path full_path :: head pl;
                           entry_count := entry_count pl + 1 |}
               | Directory _ _ =>
                   if negb (String.eqb d_name ".") && negb (String.eqb d_name "..")
                   then _ye_walk_directory root_path full_path n pl
                   else pl
               | Other => pl
               end in
             walk_entries rest pl'
         end) entries pl
  | _ => pl
  end.

(** ** Archive writer *)

(** The stream of the archive being written: its bytes so far and the
    file position. *)
Record wfile : Type := {
  w_data : list Z;
  w_pos : Z
}.

Definition fseek_w (f : wfile) (offset : Z) : wfile :=
  {| w_data := w_data f; w_pos := offset |}.

(** [fwrite] of the bytes [bs] at the current position: bytes already
    there are overwritten, the file grows as needed, and a gap left by a
    seek past the end reads as zeros. *)
Definition fwrite (bs : list Z) (f : wfile) : wfile :=
  match bs with
  | [] => f
  | _ =>
      let padded := w_data f ++ repeat 0 (Z.to_nat (w_pos f - len (w_data f))) in
      {| w_data := ztake (w_pos f) padded ++ bs ++ zdrop (w_pos f + len bs) padded;
         w_pos := w_pos f + len bs |}
  end.

(** [get_file_size]: [ftell] at the end, narrowed to [uint32_t]. *)
Definition get_file_size (file : list Z) : Z := len file mod UINT32.

(** [read_file_data]: the first [size] bytes of the file. *)
Definition read_file_data (file : list Z) (size : Z) : list Z := ztake size file.

Definition write_data_to_pack (pack_file : wfile) (offset : Z) (data : list Z)
    (size : Z) : wfile :=
  fwrite (ztake size data) (fseek_w pack_file offset).

(** [update_header]. The record offset is computed in [int]. *)
Definition update_header (pack_file : wfile) (entry_index offset size
    compression_type uncompressed_size data_type : Z) : outcome wfile :=
  let header_start := 3 in
  let header_offset := header_start + entry_index * YEP_HEADER_SIZE_BYTES + 64 in
  if INT_MAX <? header_offset then Undef
  else
    let f := fseek_w pack_file header_offset in
    let f := fwrite (le_bytes 4 offset) f in
    let f := fwrite (le_bytes 4 size) f in
    let f := fwrite (le_bytes 1 compression_type) f in
    let f := fwrite (le_bytes 4 uncompressed_size) f in
    let f := fwrite (le_bytes 1 data_type) f in
    Ret f.

(** What one iteration of the loop of [write_pack_file] decides for an
    entry before it touches the archive. *)
Record packed_entry : Type := {
  pe_data : list Z;              (* [data], the bytes to store *)
  pe_data_size : Z;              (* [data_size] after the optional compression *)
  pe_compression_type : Z;
  pe_uncompressed_size : Z;
  pe_data_type : Z
}.

(** The first half of the loop body of [write_pack_file]: open and read
    the source file, choose the compression, compress. The return value
    of [compress_data] is not inspected by the code; when the call fails,
    [compressed_data] is unassigned or freed and its use is undefined. *)
Definition pack_entry `{YepHeader} `{Zlib} (root : string) (tree : fsnode)
    (itr : yep_header_node) : outcome packed_entry :=
  match fs_fopen root tree (fullpath itr) with
  | None => Exit 1
  | Some file_to_write =>
      let data_size := get_file_size file_to_write in
      let uncompressed_size := data_size in
      let data := read_file_data file_to_write data_size in
      let compression_type :=
        if 256 <? data_size then YEP_COMPRESSION_ZLIB mod UINT8
        else YEP_COMPRESSION_NONE mod UINT8 in
      let data_type := YEP_DATATYPE_MISC mod UINT8 in
      if compression_type =? YEP_COMPRESSION_ZLIB then
        let r := compress_data data data_size in
        match cr_output r, cr_output_size r with
        | Some compressed_data, Some compressed_size =>
            let data_size := compressed_size mod UINT32 in
            match load (ztake data_size compressed_data) with
            | Some bytes =>
                Ret {| pe_data := bytes; pe_data_size := data_size;
                       pe_compression_type := compression_type;
                       pe_uncompressed_size := uncompressed_size;
                       pe_data_type := data_type |}
            | None => Undef
            end
        | _, _ => Undef
        end
      else
        Ret {| pe_data := data; pe_data_size := data_size;
               pe_compression_type := compression_type;
               pe_uncompressed_size := uncompressed_size;
               pe_data_type := data_type |}
  end.

(** The loop of [write_pack_file], from the node [itr] on. *)
Fixpoint write_pack_loop `{YepHeader} `{Zlib} (root : string) (tree : fsnode)
    (itr : list yep_header_node) (current_entry data_end : Z)
    (pack_file : wfile) : outcome wfile :=
  match itr with
  | [] => Ret pack_file
  | node :: next =>
      e <- pack_entry root tree node ;;
      let pack_file :=
        write_data_to_pack pack_file data_end (pe_data e) (pe_data_size e) in
      pack_file <- update_header pack_file current_entry data_end (pe_data_size e)
                     (pe_compression_type e) (pe_uncompressed_size e)
                     (pe_data_type e) ;;
      let data_end := (data_end + pe_data_size e) mod UINT32 in
      write_pack_loop root tree next (current_entry + 1) data_end pack_file
  end.

(** [write_pack_file]: returns the bytes of the closed archive. *)
Definition write_pack_file `{YepHeader} `{Zlib} (root : string) (tree : fsnode)
    (pl : yep_pack_list_t) (pack_file : wfile) : outcome (list Z) :=
  let data_start := (3 + entry_count pl * YEP_HEADER_SIZE_BYTES) mod UINT32 in
  let data_end := data_start in
  f <- write_pack_loop root tree (head pl) 0 data_end pack_file ;;
  Ret (w_data f).

(** The placeholder record written for a node before its payload is
    known: the name array and fourteen zero bytes. *)
Definition write_header (itr : yep_header_node) (file : wfile) : wfile :=
  let file := fwrite (ztake 64 (name itr)) file in
  let file := fwrite (le_bytes 4 0) file in
  let file := fwrite (le_bytes 4 0) file in
  let file := fwrite (le_bytes 1 0) file in
  let file := fwrite (le_bytes 4 0) file in
  fwrite (le_bytes 1 0) file.

Fixpoint write_headers (itr : list yep_header_node) (file : wfile) : wfile :=
  match itr with
  | [] => file
  | node :: next => write_headers next (write_header node file)
  end.

(** The result of [yep_pack_directory]: its return value, the pack list
    it leaves behind, and the archive it wrote (if it got to write one). *)
Record pack_result : Type := {
  pr_ret : bool;
  pr_list : yep_pack_list_t;
  pr_file : option (list Z)
}.

(** [yep_pack_directory(directory_path, output_name)]. [tree] is what
    [directory_path] names, [pl] the global pack list on entry and
    [creatable] tells whether [fopen(output_name, "wb")] succeeds. The
    archive is taken to lie outside the packed directory. *)
Definition yep_pack_directory `{YepHeader} `{Zlib} (tree : fsnode)
    (creatable : string -> bool) (pl : yep_pack_list_t)
    (directory_path output_name : string) : outcome pack_result :=
  let pl := _ye_walk_directory directory_path directory_path tree pl in
  if negb (creatable output_name) then
    Ret {| pr_ret := false; pr_list := pl; pr_file := None |}
  else
    let file := {| w_data := []; w_pos := 0 |} in
    let version_number := YEP_CURRENT_FORMAT_VERSION mod UINT8 in
    let file := fwrite (le_bytes 1 version_number) file in
    let entry_count := entry_count pl mod UINT16 in
    let file := fwrite (le_bytes 2 entry_count) file in
    let file := write_headers (head pl) file in
    archive <- write_pack_file directory_path tree pl file ;;
    Ret {| pr_ret := true; pr_list := pl; pr_file := Some archive |}.

(** [yep_initialize]: resets the counter; the list head keeps its value
    (null when the program starts). *)
Definition yep_initialize (pl : yep_pack_list_t) : yep_pack_list_t :=
  {| head := head pl; entry_count := 0 |}.

(** The pack list when the program starts. *)
Definition empty_pack_list : yep_pack_list_t := {| head := []; entry_count := 0 |}.

(** ** Archive reader and open-archive cache *)

(** A stream opened for reading: the bytes of the file and the position. *)
Record rfile : Type := {
  r_data : list Z;
  r_pos : Z
}.

(** The value of the global [char *yep_file_path]. *)
Inductive path_ptr : Type :=
| PathNull
| PathLive (s : string)       (* points at a live copy of [s] *)
| PathFreed.                  (* points at memory already given to [free] *)

(** The state the reader works on: the four globals of yep.c, and the
    streams the process holds open, each under the handle [fopen]
    returned for it. [yep_file] is [None] for the null pointer. *)
Record process : Type := {
  yep_file_path : path_ptr;
  yep_file : option nat;
  file_entry_count : Z;
  file_version_number : Z;
  streams : list (nat * rfile);
  next_stream : nat
}.

(** The state when the program starts. *)
Definition initial_process : process :=
  {| yep_file_path := PathNull; yep_file := None;
     file_entry_count := 0; file_version_number := 0;
     streams := []; next_stream := 0 |}.

Definition set_streams (p : process) (ss : list (nat * rfile)) : process :=
  {| yep_file_path := yep_file_path p; yep_file := yep_file p;
     file_entry_count := file_entry_count p;
     file_version_number := file_version_number p;
     streams := ss; next_stream := next_stream p |}.

Fixpoint stream_of (h : nat) (ss : list (nat * rfile)) : option rfile :=
  match ss with
  | [] => None
  | (h', f) :: ss' => if Nat.eqb h' h then Some f else stream_of h ss'
  end.

Fixpoint set_stream (h : nat) (f : rfile) (ss : list (nat * rfile)) : list (nat * rfile) :=
  match ss with
  | [] => []
  | (h', f') :: ss' =>
      if Nat.eqb h' h then (h', f) :: ss' else (h', f') :: set_stream h f ss'
  end.

Fixpoint remove_stream (h : nat) (ss : list (nat * rfile)) : list (nat * rfile) :=
  match ss with
  | [] => []
  | (h', f') :: ss' =>
      if Nat.eqb h' h then ss' else (h', f') :: remove_stream h ss'
  end.

(** [fread(dst, 1, n, stream)]: the bytes obtained, at most [n]. A null
    or closed stream is undefined. *)
Definition fread (stream : option nat) (n : Z) (p : process)
    : outcome (list Z * process) :=
  match stream with
  | None => Undef
  | Some h =>
      match stream_of h (streams p) with
      | None => Undef
      | Some f =>
          let bs := ztake n (zdrop (r_pos f) (r_data f)) in
          let f' := {| r_data := r_data f; r_pos := r_pos f + len bs |} in
          Ret (bs, set_streams p (set_stream h f' (streams p)))
      end
  end.

(** [fseek(stream, offset, SEEK_SET)]. *)
Definition fseek (stream : option nat) (offset : Z) (p : process) : outcome process :=
  match stream with
  | None => Undef
  | Some h =>
      match stream_of h (streams p) with
      | None => Undef
      | Some f =>
          let f' := {| r_data := r_data f; r_pos := offset |} in
          Ret (set_streams p (set_stream h f' (streams p)))
      end
  end.

(** The value of an integer object of [n] bytes that held [old] after
    [fread] stored the bytes [bs] at its start. *)
Definition store_int (n : nat) (bs : list Z) (old : Z) : Z :=
  le_value (bs ++ skipn (length bs) (le_bytes n old)).

(** [_yep_open_file(file)]. [disk] gives the bytes of each file that
    [fopen(_, "rb")] can open. *)
Definition _yep_open_file `{YepHeader} (disk : string -> option (list Z))
    (file : string) (p : process) : outcome (bool * process) :=
  let reuse :=
    match yep_file_path p with
    | PathNull => Ret false
    | PathLive s => Ret (String.eqb s file)
    | PathFreed => Undef
    end in
  same <- reuse ;;
  if (same : bool) then Ret (true, p)
  else
    match disk file with
    | None =>
        Ret (false,
             {| yep_file_path := yep_file_path p; yep_file := None;
                file_entry_count := file_entry_count p;
                file_version_number := file_version_number p;
                streams := streams p; next_stream := next_stream p |})
    | Some data =>
        let h := next_stream p in
        let p :=
          {| yep_file_path := PathLive file; yep_file := Some h;
             file_entry_count := file_entry_count p;
             file_version_number := file_version_number p;
             streams := (h, {| r_data := data; r_pos := 0 |}) :: streams p;
             next_stream := S h |} in
        '(bs, p) <- fread (yep_file p) 1 p ;;
        let p :=
          {| yep_file_path := yep_file_path p; yep_file := yep_file p;
             file_entry_count := file_entry_count p;
             file_version_number := store_int 2 bs (file_version_number p);
             streams := streams p; next_stream := next_stream p |} in
        '(bs, p) <- fread (yep_file p) 2 p ;;
        let p :=
          {| yep_file_path := yep_file_path p; yep_file := yep_file p;
             file_entry_count := store_int 2 bs (file_entry_count p);
             file_version_number := file_version_number p;
             streams := streams p; next_stream := next_stream p |} in
        if negb (file_version_number p =? YEP_CURRENT_FORMAT_VERSION)
        then Ret (false, p)
        else Ret (true, p)
    end.

(** [_yep_close_file()]. The path pointer is freed but keeps its value. *)
Definition _yep_close_file (p : process) : outcome process :=
  match yep_file p with
  | None => Ret p
  | Some h =>
      match stream_of h (streams p) with
      | None => Undef
      | Some _ =>
          path <- match yep_file_path p with
                  | PathNull => Ret PathNull
                  | PathLive _ => Ret PathFreed
                  | PathFreed => Undef
                  end ;;
          Ret {| yep_file_path := path; yep_file := None;
                 file_entry_count := 0; file_version_number := 0;
                 streams := remove_stream h (streams p);
                 next_stream := next_stream p |}
      end
  end.

(** The objects [_yep_seek_header] fills: the locals of
    [yep_extract_data] it receives by reference. *)
Record header_vars : Type := {
  hv_name : mem;
  hv_offset : mem;
  hv_size : mem;
  hv_compression_type : mem;
  hv_uncompressed_size : mem;
  hv_data_type : mem
}.

(** The locals as declared: nothing is initialised. *)
Definition fresh_vars : header_vars :=
  {| hv_name := malloc 64; hv_offset := malloc 4; hv_size := malloc 4;
     hv_compression_type := malloc 1; hv_uncompressed_size := malloc 4;
     hv_data_type := malloc 1 |}.

(** One iteration of the loop of [_yep_seek_header] up to the
    comparison: the six reads of a record. *)
Definition read_header (v : header_vars) (p : process)
    : outcome (header_vars * process) :=
  '(b_name, p) <- fread (yep_file p) 64 p ;;
  '(b_offset, p) <- fread (yep_file p) 4 p ;;
  '(b_size, p) <- fread (yep_file p) 4 p ;;
  '(b_ct, p) <- fread (yep_file p) 1 p ;;
  '(b_us, p) <- fread (yep_file p) 4 p ;;
  '(b_dt, p) <- fread (yep_file p) 1 p ;;
  Ret ({| hv_name := store b_name (hv_name v);
          hv_offset := store b_offset (hv_offset v);
          hv_size := store b_size (hv_size v);
          hv_compression_type := store b_ct (hv_compression_type v);
          hv_uncompressed_size := store b_us (hv_uncompressed_size v);
          hv_data_type := store b_dt (hv_data_type v) |}, p).

(** The loop of [_yep_seek_header] with [remaining] iterations to go.
    Beside the return value it yields the number of records read. *)
Fixpoint seek_loop (handle : string) (remaining : nat) (scanned : Z)
    (v : header_vars) (p : process) : outcome (bool * Z * header_vars * process) :=
  match remaining with
  | O => Ret (false, scanned, v, p)
  | S remaining' =>
      '(v, p) <- read_header v p ;;
      match strcmp_eq (cstring handle) (hv_name v) with
      | None => Undef
      | Some true => Ret (true, scanned + 1, v, p)
      | Some false => seek_loop handle remaining' (scanned + 1) v p
      end
  end.

Definition _yep_seek_header (handle : string) (v : header_vars) (p : process)
    : outcome (bool * Z * header_vars * process) :=
  p <- fseek (yep_file p) 3 p ;;
  seek_loop handle (Z.to_nat (file_entry_count p)) 0 v p.

(** The value of an integer local; reading it while indeterminate is
    undefined. *)
Definition read_int (m : mem) : outcome Z :=
  match load m with
  | Some bs => Ret (le_value bs)
  | None => Undef
  end.

(** [data[i] = b]; out of bounds is undefined. *)
Definition set_cell (i : Z) (b : Z) (data : mem) : outcome mem :=
  if (0 <=? i) && (i <? len data)
  then Ret (ztake i data ++ Some b :: zdrop (i + 1) data)
  else Undef.

(** [yep_extract_data(file, handle)]: the buffer returned ([None] for
    the null pointer) and the state afterwards. *)
Definition yep_extract_data `{YepHeader} `{Zlib} (disk : string -> option (list Z))
    (file handle : string) (p : process) : outcome (option mem * process) :=
  '(opened, p) <- _yep_open_file disk file p ;;
  if negb opened then Ret (None, p)
  else
    '(found, _, v, p) <- _yep_seek_header handle fresh_vars p ;;
    if negb (found : bool) then Ret (None, p)
    else
      offset <- read_int (hv_offset v) ;;
      size <- read_int (hv_size v) ;;
      uncompressed_size <- read_int (hv_uncompressed_size v) ;;
      compression_type <- read_int (hv_compression_type v) ;;
      p <- fseek (yep_file p) offset p ;;
      let data := malloc ((size + 1) mod UINT32) in
      '(bs, p) <- fread (yep_file p) size p ;;
      let data := store bs data in
      data <- (if compression_type =? YEP_COMPRESSION_NONE
               then set_cell size 0 data else Ret data) ;;
      if compression_type =? YEP_COMPRESSION_ZLIB then
        match load (ztake size data) with
        | None => Undef
        | Some input =>
            let r := decompress_data input size uncompressed_size in
            if negb (dr_ret r =? 0) then Exit 1
            else
              match dr_output r with
              | Some decompressed_data => Ret (Some decompressed_data, p)
              | None => Undef
              end
        end
      else Ret (Some data, p).

(** ** Concrete instances used to run the model *)

(** A header with format version 1 and data type tag 0. *)
Definition header_v1 : YepHeader :=
  {| YEP_CURRENT_FORMAT_VERSION := 1; YEP_DATATYPE_MISC := 0 |}.

(** A codec that satisfies [ZlibLaws] in the simplest way: the stream is
    the input itself, and a call finishes exactly when the whole input
    fits the output buffer (otherwise it reports [Z_BUF_ERROR] after
    filling the buffer). *)
Definition Z_BUF_ERROR : Z := -5.

Definition copy_finish (input : list Z) (avail_out : Z) : Z * list Z :=
  if len input <=? avail_out then (Z_STREAM_END, input)
  else (Z_BUF_ERROR, ztake avail_out input).

Definition stored_zlib : Zlib :=
  {| deflateInit := Z_OK; deflate_finish := copy_finish;
     inflateInit := Z_OK; inflate_finish := copy_finish |}.

(** A zlib whose [inflateInit] reports an error (-4, [Z_MEM_ERROR]). *)
Definition failing_init_zlib : Zlib :=
  {| deflateInit := Z_OK; deflate_finish := copy_finish;
     inflateInit := -4; inflate_finish := copy_finish |}.

(** A small tree: two files at the top, one of them above the
    compression threshold, and one file in a subdirectory. *)
Definition sample_tree : fsnode :=
  Directory true
    [ (".", Directory true []);
      ("..", Directory true []);
      ("a.txt", Reg (bytes_of_string "0123456789"));
      ("big.bin", Reg (repeat 171 300));
      ("sub", Directory true
         [ (".", Directory true []);
           ("..", Directory true []);
           ("c.dat", Reg [7; 0; 9]) ]) ].

Definition always (_ : string) : bool := true.

(** A disk holding one file. *)
Definition disk_with (path : string) (data : list Z) : string -> option (list Z) :=
  fun q => if String.eqb q path then Some data else None.

(** ** Vocabulary of the statements *)

(** The sum of a list of integers. *)
Definition zsum (l : list Z) : Z := fold_right Z.add 0 l.

(** A node whose name array has its 64 bytes. *)
Definition node_ok (n : yep_header_node) : Prop := len (name n) = 64.

(** The fourteen bytes that follow the name in a header record. *)
Definition record_fields (offset size compression_type uncompressed_size
    data_type : Z) : list Z :=
  le_bytes 4 offset ++ le_bytes 4 size ++ le_bytes 1 compression_type
  ++ le_bytes 4 uncompressed_size ++ le_bytes 1 data_type.

(** The record of a node as the first phase leaves it. *)
Definition skeleton_record (n : yep_header_node) : list Z :=
  ztake 64 (name n) ++ record_fields 0 0 0 0 0.

(** The record of a node once patched for the entry [e] stored at [offset]. *)
Definition final_record (n : yep_header_node) (offset : Z) (e : packed_entry) : list Z :=
  ztake 64 (name n)
  ++ record_fields offset (pe_data_size e) (pe_compression_type e)
       (pe_uncompressed_size e) (pe_data_type e).

(** The offsets of consecutive payloads, the first one at [offset]. *)
Fixpoint payload_offsets (offset : Z) (es : list packed_entry) : list Z :=
  match es with
  | [] => []
  | e :: es' => offset :: payload_offsets (offset + pe_data_size e) es'
  end.

(** The header table for payloads stored back to back from [offset]. *)
Fixpoint final_records (nodes : list yep_header_node) (es : list packed_entry)
    (offset : Z) : list Z :=
  match nodes, es with
  | n :: nodes', e :: es' =>
      final_record n offset e ++ final_records nodes' es' (offset + pe_data_size e)
  | _, _ => []
  end.

(** The payload region: the stored bytes of each entry, in order. *)
Definition payloads (es : list packed_entry) : list Z :=
  concat (map (fun e => ztake (pe_data_size e) (pe_data e)) es).

Definition payload_total (es : list packed_entry) : Z :=
  zsum (map pe_data_size es).

(** The three bytes that open an archive of [count] entries. *)
Definition archive_head `{YepHeader} (count : Z) : list Z :=
  le_bytes 1 (YEP_CURRENT_FORMAT_VERSION mod UINT8) ++ le_bytes 2 (count mod UINT16).

(** The regular files the walker meets below [directory_path], with
    their full paths and contents, in the order it meets them. *)
Fixpoint encountered (directory_path : string) (dir : fsnode)
    {struct dir} : list (string * list Z) :=
  match dir with
  | Directory true entries =>
      (fix in_entries (es : list (string * fsnode)) : list (string * list Z) :=
         match es with
         | [] => []
         | (d_name, n) :: rest =>
             let full_path := (directory_path ++ "/" ++ d_name)%string in
             match n with
             | Reg data => [(full_path, data)]
             | Directory _ _ =>
                 if negb (String.eqb d_name ".") && negb (String.eqb d_name "..")
                 then encountered full_path n
                 else []
             | _ => []
             end ++ in_entries rest
         end) entries
  | _ => []
  end.

(** The path of a file relative to the root of the walk. *)
Definition relative_to (root_path full_path : string) : string :=
  string_drop (String.length root_path + 1) full_path.

(** The relative path, with its terminator, fits the 64-byte name array. *)
Definition fits (root_path : string) (file : string * list Z) : bool :=
  negb (64 <? strlen (relative_to root_path (fst file)) + 1).

(** The node the walker builds for an accepted file. *)
Definition node_of (root_path : string) (file : string * list Z) : yep_header_node :=
  new_node (relative_to root_path (fst file)) (fst file).

(** What the walker does with one regular file it meets. *)
Definition accept (root_path : string) (pl : yep_pack_list_t)
    (file : string * list Z) : yep_pack_list_t :=
  if fits root_path file
  then {| head := node_of root_path file :: head pl;
          entry_count := entry_count pl + 1 |}
  else pl.

(** A pack list whose counter agrees with its nodes. *)
Definition pack_list_ok (pl : yep_pack_list_t) : Prop :=
  Forall node_ok (head pl) /\ entry_count pl = len (head pl).

(** All sizes are in range: the record offsets computed in [int] and the
    payload offsets computed in [uint32_t] do not overflow. *)
Definition in_range (count : Z) (es : list packed_entry) : Prop :=
  3 + count * YEP_HEADER_SIZE_BYTES <= INT_MAX /\
  3 + count * YEP_HEADER_SIZE_BYTES + payload_total es < UINT32.

(** Each node of the list was read, and compressed where the threshold
    says so, without failure. *)
Fixpoint pack_entries `{YepHeader} `{Zlib} (root : string) (tree : fsnode)
    (nodes : list yep_header_node) : outcome (list packed_entry) :=
  match nodes with
  | [] => Ret []
  | n :: nodes' =>
      e <- pack_entry root tree n ;;
      es <- pack_entries root tree nodes' ;;
      Ret (e :: es)
  end.

Definition packed_as `{YepHeader} `{Zlib} (root : string) (tree : fsnode)
    (nodes : list yep_header_node) (es : list packed_entry) : Prop :=
  pack_entries root tree nodes = Ret es.

(** The archive for the given nodes and entries: head, header table,
    payloads stored back to back after the table. *)
Definition archive_of `{YepHeader} (nodes : list yep_header_node)
    (es : list packed_entry) : list Z :=
  archive_head (len nodes)
  ++ final_records nodes es (3 + len nodes * YEP_HEADER_SIZE_BYTES)
  ++ payloads es.

(** Reading an archive back: record [i] and its fields. *)
Definition record_at (archive : list Z) (i : Z) : list Z :=
  ztake YEP_HEADER_SIZE_BYTES (zdrop (3 + i * YEP_HEADER_SIZE_BYTES) archive).

Definition rec_name (r : list Z) : list Z := ztake 64 r.
Definition rec_offset (r : list Z) : Z := le_value (ztake 4 (zdrop 64 r)).
Definition rec_size (r : list Z) : Z := le_value (ztake 4 (zdrop 68 r)).
Definition rec_compression_type (r : list Z) : Z := le_value (ztake 1 (zdrop 72 r)).
Definition rec_uncompressed_size (r : list Z) : Z := le_value (ztake 4 (zdrop 73 r)).
Definition rec_data_type (r : list Z) : Z := le_value (ztake 1 (zdrop 77 r)).

(** The pack list the walker builds for [sample_tree] at "res", and the
    entries the writer derives from it with the copying codec. *)
Definition sample_list : yep_pack_list_t :=
  _ye_walk_directory "res" "res" sample_tree empty_pack_list.

Definition sample_entries : list packed_entry :=
  match @pack_entries header_v1 stored_zlib "res" sample_tree (head sample_list) with
  | Ret es => es
  | _ => []
  end.

(** The string a [char] array holds: the bytes before the first zero. *)
Fixpoint c_str (bs : list Z) : list Z :=
  match bs with
  | [] => []
  | b :: bs' => if b =? 0 then [] else b :: c_str bs'
  end.

(** Record [i] of [data] carries the name [handle]. *)
Definition entry_matches (handle : string) (data : list Z) (i : Z) : Prop :=
  c_str (rec_name (record_at data i)) = c_str (cstring handle).

(** The name arrays of the first [count] records hold terminated strings. *)
Definition names_terminated (data : list Z) (count : Z) : Prop :=
  forall i, 0 <= i < count -> In 0 (rec_name (record_at data i)).

(** The state [p] with the stream [h] positioned at [pos] in [data]. *)
Definition seek_to (h : nat) (data : list Z) (pos : Z) (p : process) : process :=
  set_streams p (set_stream h {| r_data := data; r_pos := pos |} (streams p)).

(** The locals of [yep_extract_data] after a full record was read. *)
Definition vars_of_record (r : list Z) : header_vars :=
  {| hv_name := init_cells (ztake 64 r);
     hv_offset := init_cells (ztake 4 (zdrop 64 r));
     hv_size := init_cells (ztake 4 (zdrop 68 r));
     hv_compression_type := init_cells (ztake 1 (zdrop 72 r));
     hv_uncompressed_size := init_cells (ztake 4 (zdrop 73 r));
     hv_data_type := init_cells (ztake 1 (zdrop 77 r)) |}.

(** The locals have the sizes of their declarations. *)
Definition vars_shape (v : header_vars) : Prop :=
  length (hv_name v) = 64%nat /\ length (hv_offset v) = 4%nat
  /\ length (hv_size v) = 4%nat /\ length (hv_compression_type v) = 1%nat
  /\ length (hv_uncompressed_size v) = 4%nat /\ length (hv_data_type v) = 1%nat.

(** The archive of [sample_tree], and the reader's state once it has
    opened that archive from a disk that holds it as "out.yep". *)
Definition sample_archive : list Z :=
  match @yep_pack_directory header_v1 stored_zlib sample_tree always
          empty_pack_list "res" "out.yep" with
  | Ret {| pr_file := Some archive |} => archive
  | _ => []
  end.

Definition sample_disk : string -> option (list Z) :=
  disk_with "out.yep" sample_archive.

Definition sample_process : process :=
  match @_yep_open_file header_v1 sample_disk "out.yep" initial_process with
  | Ret (_, p) => p
  | _ => initial_process
  end.

(** The state [_yep_open_file] reaches from [p] when it opens [file],
    whose bytes are [data], as a new stream. *)
Definition opened_state (file : string) (data : list Z) (p : process) : process :=
  let h := next_stream p in
  let b1 := ztake 1 (zdrop 0 data) in
  let b2 := ztake 2 (zdrop (0 + len b1) data) in
  {| yep_file_path := PathLive file;
     yep_file := Some h;
     file_entry_count := store_int 2 b2 (file_entry_count p);
     file_version_number := store_int 2 b1 (file_version_number p);
     streams := (h, {| r_data := data; r_pos := 0 + len b1 + len b2 |}) :: streams p;
     next_stream := S h |}.

(** The cache does not hold [file]: the path pointer is null, or points
    at a live string that differs from [file]. *)
Definition not_cached (file : string) (p : process) : Prop :=
  yep_file_path p = PathNull
  \/ exists s, yep_file_path p = PathLive s /\ s <> file.

(** A directory whose first file has a name of 64 characters (too long
    by one), followed by one of 63 characters and a short one. *)
Definition name64 : string :=
  "xxxxxxxxxxxxxxxxxxxxxxxxxxxxxxxxxxxxxxxxxxxxxxxxxxxxxxxxxxxxxxxx".
Definition name63 : string :=
  "yyyyyyyyyyyyyyyyyyyyyyyyyyyyyyyyyyyyyyyyyyyyyyyyyyyyyyyyyyyyyyy".

Definition long_tree : fsnode :=
  Directory true
    [ (name64, Reg [1]); (name63, Reg [2]); ("ok.txt", Reg [3]) ].

Definition long_list : yep_pack_list_t :=
  _ye_walk_directory "res" "res" long_tree empty_pack_list.

Definition long_entries : list packed_entry :=
  match @pack_entries header_v1 stored_zlib "res" long_tree (head long_list) with
  | Ret es => es
  | _ => []
  end.

(** ** Well-formed trees

    What any file system guarantees of the names in a directory: no
    separator and no zero byte inside a name, no name twice. *)
Fixpoint string_forallb (f : ascii -> bool) (s : string) : bool :=
  match s with
  | EmptyString => true
  | String c s' => f c && string_forallb f s'
  end.

Definition is_slash (c : ascii) : bool := Ascii.eqb c "/".
Definition is_nul (c : ascii) : bool := Ascii.eqb c "000".

Definition valid_name (s : string) : bool :=
  string_forallb (fun c => negb (is_slash c) && negb (is_nul c)) s.

Fixpoint names_unique (names : list string) : bool :=
  match names with
  | [] => true
  | n :: ns => negb (existsb (String.eqb n) ns) && names_unique ns
  end.

Fixpoint wf_tree (n : fsnode) : bool :=
  match n with
  | Directory _ entries =>
      names_unique (map fst entries)
      && (fix all_entries (es : list (string * fsnode)) : bool :=
            match es with
            | [] => true
            | (d_name, n') :: rest =>
                valid_name d_name && wf_tree n' && all_entries rest
            end) entries
  | _ => true
  end.

(** ** What the writer is expected to store for a file *)

(** The bytes stored for a file: the deflate stream for a file above
    the threshold, the file itself otherwise. *)
Definition stored_bytes `{Zlib} (content : list Z) : list Z :=
  let n := len content in
  if 256 <? n then snd (deflate_finish content (n + n / 10 + 12)) else content.

Definition expected_entry `{YepHeader} `{Zlib} (content : list Z) : packed_entry :=
  {| pe_data := stored_bytes content;
     pe_data_size := len (stored_bytes content);
     pe_compression_type :=
       if 256 <? len content then YEP_COMPRESSION_ZLIB else YEP_COMPRESSION_NONE;
     pe_uncompressed_size := len content;
     pe_data_type := YEP_DATATYPE_MISC mod UINT8 |}.

(** The room the writer provides for the stored bytes of a file. *)
Definition worst_case (content : list Z) : Z :=
  let n := len content in
  if 256 <? n then n + n / 10 + 12 else n.

(** The files that make it into the archive of the directory [tree]
    packed as [root], in the order of the archive's records. *)
Definition packed_files (root : string) (tree : fsnode) : list (string * list Z) :=
  rev (filter (fits root) (encountered root tree)).

(** An upper bound of the size of that archive. *)
Definition archive_bound (root : string) (tree : fsnode) : Z :=
  3 + len (packed_files root tree) * YEP_HEADER_SIZE_BYTES
  + zsum (map (fun f => worst_case (snd f)) (packed_files root tree)).

(** The state of the cache is sound with respect to the disk: the
    version field is a byte, and a cached path comes with an open stream
    on the bytes the disk holds for it, whose header was accepted. *)
Definition cache_ok `{YepHeader} (disk : string -> option (list Z)) (p : process) : Prop :=
  0 <= file_version_number p < 256
  /\ match yep_file_path p with
     | PathNull => True
     | PathFreed => False
     | PathLive s =>
         exists h data pos,
           yep_file p = Some h
           /\ stream_of h (streams p) = Some {| r_data := data; r_pos := pos |}
           /\ disk s = Some data
           /\ 3 <= len data
           /\ file_version_number p = le_value (ztake 1 data)
           /\ file_entry_count p = le_value (ztake 2 (zdrop 1 data))
     end.

(** Two states hold the same streams open and agree on the cache
    pointers. *)
Definition same_handles (p p' : process) : Prop :=
  map fst (streams p') = map fst (streams p)
  /\ next_stream p' = next_stream p
  /\ yep_file p' = yep_file p
  /\ yep_file_path p' = yep_file_path p.


(** A pack list that still holds the node of a file no longer there. *)
Definition stale_list : yep_pack_list_t :=
  {| head := [new_node "gone.txt" "res/gone.txt"]; entry_count := 1 |}.

(** A hand-made archive of three entries: "raw" stored as it is, "bad"
    marked as deflated with a recorded original size (5) that its
    three-byte stream does not inflate to, and "odd" carrying a
    compression type (7) the format does not define. *)
Definition odd_archive : list Z :=
  [1; 3; 0]
  ++ final_record (new_node "raw" "") 237
       {| pe_data := [10; 11]; pe_data_size := 2; pe_compression_type := 0;
          pe_uncompressed_size := 0; pe_data_type := 0 |}
  ++ final_record (new_node "bad" "") 239
       {| pe_data := [1; 2; 3]; pe_data_size := 3; pe_compression_type := 1;
          pe_uncompressed_size := 5; pe_data_type := 0 |}
  ++ final_record (new_node "odd" "") 242
       {| pe_data := [42]; pe_data_size := 1; pe_compression_type := 7;
          pe_uncompressed_size := 0; pe_data_type := 0 |}
  ++ [10; 11] ++ [1; 2; 3] ++ [42].

Definition odd_process : process :=
  match @_yep_open_file header_v1 (disk_with "odd.yep" odd_archive) "odd.yep"
          initial_process with
  | Ret (_, p) => p
  | _ => initial_process
  end.

(** ** yep_create_test_file *)

(** [char name[64] = "test"]: the string, then zeros up to the size of
    the array. *)
Definition test_name : list Z := bytes_of_string "test" ++ repeat 0 60.

(** One iteration of the loop of [yep_create_test_file]: the name, the
    offset, the size, the compression type and the data type. No
    uncompressed size is written. *)
Definition write_test_entry (file : wfile) : wfile :=
  let file := fwrite (ztake 64 test_name) file in
  let file := fwrite (le_bytes 4 0) file in
  let file := fwrite (le_bytes 4 0) file in
  let file := fwrite (le_bytes 1 1) file in
  fwrite (le_bytes 1 1) file.

Fixpoint write_test_entries (remaining : nat) (file : wfile) : wfile :=
  match remaining with
  | O => file
  | S remaining' => write_test_entries remaining' (write_test_entry file)
  end.

(** [yep_create_test_file(entries)]: the bytes of "test.yep", or [None]
    when the file cannot be created. The increment of the local
    [entry_count] in the loop comes after the count was written and has
    no effect on the file. *)
Definition yep_create_test_file `{YepHeader} (creatable : string -> bool)
    (entries : nat) : option (list Z) :=
  if negb (creatable "test.yep") then None
  else
    let file := {| w_data := []; w_pos := 0 |} in
    let version_number := YEP_CURRENT_FORMAT_VERSION mod UINT8 in
    let file := fwrite (le_bytes 1 version_number) file in
    let entry_count := Z.of_nat entries mod UINT16 in
    let file := fwrite (le_bytes 2 entry_count) file in
    let file := write_test_entries entries file in
    Some (w_data file).

(** The 74 bytes of a record of the test file. *)
Definition test_record : list Z :=
  test_name ++ le_bytes 4 0 ++ le_bytes 4 0 ++ le_bytes 1 1 ++ le_bytes 1 1.

(** What a packed entry promises about its own sizes. *)
Definition entry_ok (e : packed_entry) : Prop :=
  len (pe_data e) = pe_data_size e.


(* ================================================================== *)
(** * Part II: properties                                               *)
(* ================================================================== *)

(** ** Lists, bytes and little-endian integers *)

Lemma len_nonneg {A : Type} (l : list A) : 0 <= len l.
Proof. unfold len; lia. Qed.

Lemma len_nil {A : Type} : len (@nil A) = 0.
Proof. reflexivity. Qed.

Lemma len_cons {A : Type} (x : A) (l : list A) : len (x :: l) = 1 + len l.
Proof. unfold len; simpl length; lia. Qed.

Lemma len_app {A : Type} (l1 l2 : list A) : len (l1 ++ l2) = len l1 + len l2.
Proof. unfold len; rewrite length_app; lia. Qed.

Lemma len_map {A B : Type} (f : A -> B) (l : list A) : len (map f l) = len l.
Proof. unfold len; now rewrite length_map. Qed.

Lemma len_repeat {A : Type} (x : A) (n : nat) : len (repeat x n) = Z.of_nat n.
Proof. unfold len; now rewrite repeat_length. Qed.

Lemma len_rev {A : Type} (l : list A) : len (rev l) = len l.
Proof. unfold len; now rewrite length_rev. Qed.

Lemma len_ztake {A : Type} (n : Z) (l : list A) :
  0 <= n <= len l -> len (ztake n l) = n.
Proof. unfold len, ztake; intros; rewrite length_firstn; lia. Qed.

Lemma len_ztake_le {A : Type} (n : Z) (l : list A) : len (ztake n l) <= len l.
Proof. unfold len, ztake; rewrite length_firstn; lia. Qed.

Lemma len_zdrop {A : Type} (n : Z) (l : list A) :
  0 <= n <= len l -> len (zdrop n l) = len l - n.
Proof. unfold len, zdrop; intros; rewrite length_skipn; lia. Qed.

Lemma ztake_app_len {A : Type} (n : Z) (a b : list A) :
  len a = n -> ztake n (a ++ b) = a.
Proof.
  unfold len, ztake; intros <-.
  rewrite Nat2Z.id, firstn_app, Nat.sub_diag, firstn_all, firstn_O.
  apply app_nil_r.
Qed.

Lemma zdrop_app_len {A : Type} (n : Z) (a b : list A) :
  len a = n -> zdrop n (a ++ b) = b.
Proof.
  unfold len, zdrop; intros <-.
  rewrite Nat2Z.id, skipn_app, Nat.sub_diag, skipn_all.
  reflexivity.
Qed.

Lemma ztake_all {A : Type} (n : Z) (l : list A) : len l <= n -> ztake n l = l.
Proof. unfold len, ztake; intros; apply firstn_all2; lia. Qed.

Lemma zdrop_all {A : Type} (n : Z) (l : list A) : len l <= n -> zdrop n l = [].
Proof. unfold len, zdrop; intros; apply skipn_all2; lia. Qed.

Lemma zdrop_0 {A : Type} (l : list A) : zdrop 0 l = l.
Proof. reflexivity. Qed.

Lemma zdrop_app_ge {A : Type} (n : Z) (a b : list A) :
  len a <= n -> zdrop n (a ++ b) = zdrop (n - len a) b.
Proof.
  unfold len, zdrop; intros.
  rewrite skipn_app, skipn_all2 by lia.
  simpl; f_equal; lia.
Qed.

Lemma ztake_app_le {A : Type} (n : Z) (a b : list A) :
  n <= len a -> ztake n (a ++ b) = ztake n a.
Proof.
  unfold len, ztake; intros.
  rewrite firstn_app.
  replace (Z.to_nat n - length a)%nat with 0%nat by lia.
  rewrite firstn_O; apply app_nil_r.
Qed.

Lemma ztake_zdrop {A : Type} (n : Z) (l : list A) : ztake n l ++ zdrop n l = l.
Proof. apply firstn_skipn. Qed.

Lemma length_le_bytes (n : nat) (v : Z) : length (le_bytes n v) = n.
Proof. revert v; induction n; simpl; intros; [reflexivity | now rewrite IHn]. Qed.

Lemma len_le_bytes (n : nat) (v : Z) : len (le_bytes n v) = Z.of_nat n.
Proof. unfold len; now rewrite length_le_bytes. Qed.

Lemma le_value_le_bytes (n : nat) (v : Z) :
  le_value (le_bytes n v) = v mod 256 ^ Z.of_nat n.
Proof.
  revert v; induction n as [|n IH]; intros v.
  - simpl; now rewrite Z.mod_1_r.
  - cbn [le_bytes le_value]; rewrite IH, Nat2Z.inj_succ, Z.pow_succ_r by lia.
    rewrite Z.rem_mul_r by lia.
    reflexivity.
Qed.

Lemma le_value_le_bytes_small (n : nat) (v : Z) :
  0 <= v < 256 ^ Z.of_nat n -> le_value (le_bytes n v) = v.
Proof. intros; rewrite le_value_le_bytes; now apply Z.mod_small. Qed.

Lemma zsum_app (a b : list Z) : zsum (a ++ b) = zsum a + zsum b.
Proof. unfold zsum; induction a; simpl; lia. Qed.

Lemma load_init_cells (bs : list Z) : load (init_cells bs) = Some bs.
Proof. induction bs as [|b bs IH]; simpl; [reflexivity | now rewrite IH]. Qed.

Lemma store_full (bs : list Z) (m : mem) :
  (length m <= length bs)%nat -> store bs m = init_cells bs.
Proof.
  intros; unfold store; rewrite skipn_all2 by assumption; apply app_nil_r.
Qed.

Lemma len_record_fields (a b c d e : Z) : len (record_fields a b c d e) = 14.
Proof. reflexivity. Qed.

(** ** The write stream *)

Lemma fwrite_at_end (bs : list Z) (data : list Z) (pos : Z) :
  pos = len data ->
  fwrite bs {| w_data := data; w_pos := pos |}
  = {| w_data := data ++ bs; w_pos := pos + len bs |}.
Proof.
  intros ->; destruct bs as [|b bs].
  - simpl; now rewrite app_nil_r, len_nil, Z.add_0_r.
  - unfold fwrite; cbn [w_data w_pos].
    rewrite Z.sub_diag; cbn [Z.to_nat repeat]; rewrite app_nil_r.
    rewrite ztake_all, zdrop_all by (pose proof (len_nonneg (b :: bs)); lia).
    now rewrite app_nil_r.
Qed.

Lemma fwrite_over (bs a old c : list Z) (pos : Z) :
  len a = pos -> len old = len bs ->
  fwrite bs {| w_data := a ++ old ++ c; w_pos := pos |}
  = {| w_data := a ++ bs ++ c; w_pos := pos + len bs |}.
Proof.
  intros Ha Hold; destruct bs as [|b bs].
  - destruct old; [|rewrite len_cons, len_nil in Hold; pose proof (len_nonneg old); lia].
    simpl; now rewrite len_nil, Z.add_0_r.
  - unfold fwrite; cbn [w_data w_pos].
    replace (Z.to_nat (pos - len (a ++ old ++ c))) with 0%nat
      by (rewrite !len_app; pose proof (len_nonneg old); pose proof (len_nonneg c); lia).
    cbn [repeat]; rewrite app_nil_r.
    rewrite ztake_app_len by assumption.
    pose proof (len_nonneg (b :: bs)).
    rewrite zdrop_app_ge by lia.
    replace (pos + len (b :: bs) - len a) with (len old) by lia.
    now rewrite zdrop_app_len.
Qed.

Lemma fwrite_over_assoc (bs a old c : list Z) (pos : Z) :
  len a = pos -> len old = len bs ->
  fwrite bs {| w_data := a ++ old ++ c; w_pos := pos |}
  = {| w_data := (a ++ bs) ++ c; w_pos := pos + len bs |}.
Proof. intros; rewrite fwrite_over by assumption; now rewrite app_assoc. Qed.

(** A list of known length 14, cut the way a record's fields are. *)
Lemma split_fields (old : list Z) :
  len old = 14 ->
  exists o1 o2 o3 o4 o5,
    old = o1 ++ o2 ++ o3 ++ o4 ++ o5 /\
    len o1 = 4 /\ len o2 = 4 /\ len o3 = 1 /\ len o4 = 4 /\ len o5 = 1.
Proof.
  intros H.
  do 14 (destruct old as [|? old]; [discriminate H|]).
  destruct old; [|exfalso; unfold len in H; simpl in H; lia].
  eexists [_; _; _; _], [_; _; _; _], [_], [_; _; _; _], [_].
  repeat split; reflexivity.
Qed.

(** ** Phase 1: the header skeleton *)

Lemma write_header_at_end (n : yep_header_node) (data : list Z) (pos : Z) :
  pos = len data ->
  write_header n {| w_data := data; w_pos := pos |}
  = {| w_data := data ++ skeleton_record n;
       w_pos := pos + len (skeleton_record n) |}.
Proof.
  intros Hpos; unfold write_header, skeleton_record, record_fields.
  repeat (rewrite fwrite_at_end by (rewrite ?len_app; lia)).
  f_equal.
  - now rewrite <- !app_assoc.
  - rewrite !len_app; lia.
Qed.

Lemma write_headers_at_end (nodes : list yep_header_node) (data : list Z) (pos : Z) :
  pos = len data ->
  write_headers nodes {| w_data := data; w_pos := pos |}
  = {| w_data := data ++ concat (map skeleton_record nodes);
       w_pos := pos + len (concat (map skeleton_record nodes)) |}.
Proof.
  revert data pos; induction nodes as [|n nodes IH]; intros data pos Hpos.
  - simpl; now rewrite app_nil_r, len_nil, Z.add_0_r.
  - cbn [write_headers map concat].
    rewrite write_header_at_end by assumption.
    rewrite IH by (rewrite len_app; lia).
    f_equal.
    + now rewrite <- app_assoc.
    + rewrite !len_app; lia.
Qed.

Lemma len_skeleton_record (n : yep_header_node) :
  node_ok n -> len (skeleton_record n) = 78.
Proof.
  unfold node_ok, skeleton_record; intros H.
  rewrite len_app, len_ztake, len_record_fields by lia; reflexivity.
Qed.

Lemma len_final_record (n : yep_header_node) (off : Z) (e : packed_entry) :
  node_ok n -> len (final_record n off e) = 78.
Proof.
  unfold node_ok, final_record; intros H.
  rewrite len_app, len_ztake, len_record_fields by lia; reflexivity.
Qed.

Lemma len_skeleton (nodes : list yep_header_node) :
  Forall node_ok nodes ->
  len (concat (map skeleton_record nodes)) = 78 * len nodes.
Proof.
  induction 1 as [|n nodes Hn _ IH]; [reflexivity|].
  cbn [map concat]; rewrite len_app, len_cons, IH, len_skeleton_record by assumption.
  lia.
Qed.

Lemma len_final_records (nodes : list yep_header_node) (es : list packed_entry) (off : Z) :
  Forall node_ok nodes -> length nodes = length es ->
  len (final_records nodes es off) = 78 * len nodes.
Proof.
  intros Hok; revert es off; induction Hok as [|n nodes Hn _ IH]; intros es off Hlen.
  - reflexivity.
  - destruct es as [|e es]; [discriminate|].
    cbn [final_records]; rewrite len_app, len_cons, IH, len_final_record by auto.
    lia.
Qed.

(** ** Phase 2: payloads and patches *)

Lemma update_header_over (a old c : list Z) (pos i off sz ct us dt : Z) :
  len a = 3 + i * YEP_HEADER_SIZE_BYTES + 64 ->
  len old = 14 ->
  3 + i * YEP_HEADER_SIZE_BYTES + 64 <= INT_MAX ->
  exists pos',
    update_header {| w_data := a ++ old ++ c; w_pos := pos |} i off sz ct us dt
    = Ret {| w_data := a ++ record_fields off sz ct us dt ++ c; w_pos := pos' |}.
Proof.
  intros Ha Hold Hmax.
  destruct (split_fields old Hold) as (o1 & o2 & o3 & o4 & o5 & -> & H1 & H2 & H3 & H4 & H5).
  unfold update_header.
  destruct (INT_MAX <? 3 + i * YEP_HEADER_SIZE_BYTES + 64) eqn:E;
    [apply Z.ltb_lt in E; lia|].
  unfold fseek_w; cbn [w_data w_pos].
  rewrite <- !app_assoc.
  rewrite (fwrite_over_assoc (le_bytes 4 off) a o1) by (rewrite ?len_le_bytes; lia).
  rewrite (fwrite_over_assoc (le_bytes 4 sz) _ o2)
    by (rewrite ?len_app, ?len_le_bytes; lia).
  rewrite (fwrite_over_assoc (le_bytes 1 ct) _ o3)
    by (rewrite ?len_app, ?len_le_bytes; lia).
  rewrite (fwrite_over_assoc (le_bytes 4 us) _ o4)
    by (rewrite ?len_app, ?len_le_bytes; lia).
  rewrite (fwrite_over_assoc (le_bytes 1 dt) _ o5)
    by (rewrite ?len_app, ?len_le_bytes; lia).
  eexists; f_equal; f_equal.
  unfold record_fields; now rewrite <- !app_assoc.
Qed.

(** The loop, started on a file whose remaining records are still
    placeholders and whose end is [data_end], patches them in place and
    appends the payloads. *)
Lemma write_pack_loop_layout `{YepHeader} `{Zlib} (root : string) (tree : fsnode) :
  forall (nodes : list yep_header_node) (es : list packed_entry),
    Forall2 (fun n e => pack_entry root tree n = Ret e) nodes es ->
    Forall node_ok nodes -> Forall entry_ok es ->
    forall (cur data_end pos : Z) (pre post : list Z),
      len pre = 3 + cur * YEP_HEADER_SIZE_BYTES ->
      data_end = len pre + 78 * len nodes + len post ->
      3 + (cur + len nodes) * YEP_HEADER_SIZE_BYTES <= INT_MAX ->
      data_end + payload_total es < UINT32 ->
      exists pos',
        write_pack_loop root tree nodes cur data_end
          {| w_data := pre ++ concat (map skeleton_record nodes) ++ post; w_pos := pos |}
        = Ret {| w_data := pre ++ final_records nodes es data_end ++ post ++ payloads es;
                 w_pos := pos' |}.
Proof.
  induction 1 as [|n e nodes es Hne Hrest IH]; intros Hok Heok cur data_end pos pre post
    Hpre Hend Hmax Hfit.
  - exists pos; cbn [write_pack_loop map concat final_records payloads].
    now rewrite !app_nil_r.
  - inversion_clear Hok as [|? ? Hn Hok'].
    inversion_clear Heok as [|? ? He Heok'].
    cbn [write_pack_loop]; rewrite Hne; cbn [bind].
    unfold payload_total in Hfit; cbn [map zsum fold_right] in Hfit.
    fold (zsum (map pe_data_size es)) in Hfit; fold (payload_total es) in Hfit.
    assert (Hsz : 0 <= pe_data_size e) by (rewrite <- He; apply len_nonneg).
    assert (Htot : 0 <= payload_total es).
    { clear - Heok'. unfold payload_total, zsum.
      induction Heok' as [|x l Hx _ IHl]; simpl; [lia|].
      unfold entry_ok in Hx; pose proof (len_nonneg (pe_data x)); lia. }
    rewrite len_cons in Hmax, Hend.
    pose proof (len_nonneg nodes) as Hn0. pose proof (len_nonneg post) as Hp0.
    pose proof (len_nonneg pre) as Hpre0.
    unfold YEP_HEADER_SIZE_BYTES in *.
    (* the payload goes to the end of the file *)
    unfold write_data_to_pack, fseek_w; cbn [w_data].
    rewrite fwrite_at_end.
    2:{ cbn [map concat]. rewrite !len_app, len_skeleton_record, len_skeleton by assumption.
        lia. }
    rewrite (ztake_all (pe_data_size e) (pe_data e)) by (unfold entry_ok in He; lia).
    (* the record is patched in place *)
    cbn [map concat]; unfold skeleton_record at 1.
    match goal with
    | |- context [update_header {| w_data := ?d; w_pos := _ |}] =>
        replace d
          with ((pre ++ ztake 64 (name n)) ++ record_fields 0 0 0 0 0
                  ++ (concat (map skeleton_record nodes) ++ post ++ pe_data e))
          by (now rewrite <- !app_assoc)
    end.
    edestruct (update_header_over (pre ++ ztake 64 (name n)) (record_fields 0 0 0 0 0))
      as [pos1 Hupd]; [ | | |rewrite Hupd; clear Hupd].
    { rewrite len_app, len_ztake by (unfold node_ok in Hn; lia). unfold YEP_HEADER_SIZE_BYTES. lia. }
    { reflexivity. }
    { unfold YEP_HEADER_SIZE_BYTES; lia. }
    cbn [bind].
    rewrite Z.mod_small by (unfold UINT32 in *; lia).
    (* the rest of the loop *)
    match goal with
    | |- context [write_pack_loop _ _ _ _ _ {| w_data := ?d; w_pos := _ |}] =>
        replace d
          with ((pre ++ final_record n data_end e)
                  ++ concat (map skeleton_record nodes) ++ (post ++ pe_data e))
          by (unfold final_record; now rewrite <- !app_assoc)
    end.
    destruct (IH Hok' Heok' (cur + 1) (data_end + pe_data_size e) pos1
                (pre ++ final_record n data_end e) (post ++ pe_data e))
      as [pos' Hloop].
    { rewrite len_app, len_final_record by assumption; lia. }
    { rewrite !len_app, len_final_record by assumption. unfold entry_ok in He. lia. }
    { lia. }
    { lia. }
    exists pos'; rewrite Hloop; f_equal; f_equal.
    cbn [final_records payloads map concat].
    rewrite (ztake_all (pe_data_size e) (pe_data e)) by (unfold entry_ok in He; lia).
    fold (payloads es).
    now rewrite <- !app_assoc.
Qed.

(** ** The directory walker *)

(** Induction over a tree, with the hypothesis available for every
    entry of a directory. *)
Lemma fsnode_tree_ind (P : fsnode -> Prop) :
  (forall data, P (Reg data)) ->
  (forall readable entries,
      Forall (fun e => P (snd e)) entries -> P (Directory readable entries)) ->
  P Other -> P Broken ->
  forall n, P n.
Proof.
  intros HReg HDir HOther HBroken.
  fix IH 1; intros [data|readable entries| |].
  - apply HReg.
  - apply HDir.
    induction entries as [|[d_name n] rest IHrest]; constructor.
    + apply IH.
    + apply IHrest.
  - apply HOther.
  - apply HBroken.
Qed.

(** The walker handles the regular files it meets one by one, in order. *)
Lemma walk_fold (root_path : string) (dir : fsnode) :
  forall (directory_path : string) (pl : yep_pack_list_t),
    _ye_walk_directory root_path directory_path dir pl
    = fold_left (accept root_path) (encountered directory_path dir) pl.
Proof.
  induction dir as [data|readable entries IH| |] using fsnode_tree_ind;
    intros directory_path pl; try reflexivity.
  destruct readable; [|reflexivity].
  cbn [_ye_walk_directory encountered].
  revert pl; induction IH as [|[d_name n] rest Hn _ IHrest]; intros pl.
  - reflexivity.
  - rewrite fold_left_app, <- IHrest; clear IHrest.
    f_equal.
    destruct n as [data|r es| |]; try reflexivity.
    + cbn [fold_left]; unfold accept, fits, relative_to; cbn [fst].
      now destruct (64 <? _).
    + destruct (negb (d_name =? ".")%string && negb (d_name =? "..")%string).
      * apply Hn.
      * reflexivity.
Qed.

Lemma fold_accept (root_path : string) (files : list (string * list Z)) :
  forall pl,
    head (fold_left (accept root_path) files pl)
    = rev (map (node_of root_path) (filter (fits root_path) files)) ++ head pl
    /\ entry_count (fold_left (accept root_path) files pl)
       = entry_count pl + len (filter (fits root_path) files).
Proof.
  induction files as [|f files IH]; intros pl.
  - cbn [fold_left filter map rev app]; rewrite len_nil; split; [reflexivity | lia].
  - cbn [fold_left filter]; destruct (IH (accept root_path pl f)) as [Hh Hc].
    rewrite Hh, Hc; unfold accept; destruct (fits root_path f); cbn [head entry_count].
    + cbn [map rev]; rewrite <- app_assoc, len_cons; split; [reflexivity | lia].
    + split; reflexivity.
Qed.

Lemma length_bytes_of_string (s : string) :
  length (bytes_of_string s) = String.length s.
Proof. induction s; simpl; [reflexivity | now rewrite IHs]. Qed.

Lemma node_of_ok (root_path : string) (file : string * list Z) :
  fits root_path file = true -> node_ok (node_of root_path file).
Proof.
  unfold fits, node_ok, node_of, new_node, strlen; cbn [name].
  intros H; apply negb_true_iff, Z.ltb_ge in H.
  rewrite len_app, len_repeat; unfold len; rewrite length_bytes_of_string; lia.
Qed.

Lemma walk_pack_list_ok (root_path directory_path : string) (dir : fsnode)
    (pl : yep_pack_list_t) :
  pack_list_ok pl ->
  pack_list_ok (_ye_walk_directory root_path directory_path dir pl).
Proof.
  intros [Hnodes Hcount]; rewrite walk_fold.
  destruct (fold_accept root_path (encountered directory_path dir) pl) as [Hh Hc].
  split.
  - rewrite Hh; apply Forall_app; split; [|assumption].
    apply Forall_rev, Forall_forall; intros n Hin.
    apply in_map_iff in Hin as (f & <- & Hf).
    apply filter_In in Hf as [_ Hf]; now apply node_of_ok.
  - rewrite Hh, Hc, len_app, len_rev, len_map; lia.
Qed.

(** ** One entry *)

Lemma Forall_nth_error {A : Type} (P : A -> Prop) (l : list A) (i : nat) (a : A) :
  Forall P l -> nth_error l i = Some a -> P a.
Proof.
  intros Hall Hi; apply nth_error_In in Hi; revert a Hi; now apply Forall_forall.
Qed.

Lemma nth_error_lt {A : Type} (l : list A) (i : nat) (a : A) :
  nth_error l i = Some a -> (i < length l)%nat.
Proof. intros Hi; apply nth_error_Some; congruence. Qed.

Lemma Forall_firstn {A : Type} (P : A -> Prop) (i : nat) (l : list A) :
  Forall P l -> Forall P (firstn i l).
Proof.
  intros H; rewrite <- (firstn_skipn i l) in H; now apply Forall_app in H.
Qed.

Lemma Forall_skipn {A : Type} (P : A -> Prop) (i : nat) (l : list A) :
  Forall P l -> Forall P (skipn i l).
Proof.
  intros H; rewrite <- (firstn_skipn i l) in H; now apply Forall_app in H.
Qed.

Lemma Forall2_length {A B : Type} (R : A -> B -> Prop) (l : list A) (l' : list B) :
  Forall2 R l l' -> length l = length l'.
Proof. induction 1; simpl; congruence. Qed.

Lemma Forall2_nth_error {A B : Type} (R : A -> B -> Prop) (l : list A) (l' : list B) :
  Forall2 R l l' ->
  forall i a, nth_error l i = Some a -> exists b, nth_error l' i = Some b /\ R a b.
Proof.
  induction 1 as [|x y l l' Hxy _ IH]; intros [|i] a Hi; try discriminate.
  - injection Hi as <-; exists y; auto.
  - now apply IH.
Qed.


Lemma load_length (m : mem) (bs : list Z) : load m = Some bs -> length bs = length m.
Proof.
  revert bs; induction m as [|[b|] m IH]; intros bs; simpl.
  - now intros [= <-].
  - destruct (load m) as [bs'|]; [|discriminate].
    intros [= <-]; simpl; now rewrite (IH bs' eq_refl).
  - discriminate.
Qed.

Lemma get_file_size_range (file : list Z) :
  0 <= get_file_size file < UINT32 /\ get_file_size file <= len file.
Proof.
  unfold get_file_size, UINT32; pose proof (len_nonneg file).
  pose proof (Z.mod_pos_bound (len file) (2 ^ 32) ltac:(lia)).
  pose proof (Z.mod_le (len file) (2 ^ 32) ltac:(lia) ltac:(lia)).
  lia.
Qed.

Lemma get_file_size_small (file : list Z) :
  len file < UINT32 -> get_file_size file = len file.
Proof.
  intros; unfold get_file_size; apply Z.mod_small; pose proof (len_nonneg file); lia.
Qed.

Lemma length_store (bs : list Z) (m : mem) :
  (length bs <= length m)%nat -> length (store bs m) = length m.
Proof.
  intros; unfold store, init_cells; rewrite length_app, length_map, length_skipn; lia.
Qed.

Lemma compress_data_success `{Zlib} (input : list Z) (n : Z) (out : mem) (sz : Z) :
  cr_output (compress_data input n) = Some out ->
  cr_output_size (compress_data input n) = Some sz ->
  exists written,
    deflate_finish (ztake (n mod UINT32) input) ((n + n / 10 + 12) mod UINT32)
      = (Z_STREAM_END, written)
    /\ out = store written (malloc (n + n / 10 + 12))
    /\ sz = len written
    /\ cr_ret (compress_data input n) = 0.
Proof.
  unfold compress_data.
  destruct (negb (deflateInit =? Z_OK)); [discriminate|].
  destruct (deflate_finish _ _) as [res written] eqn:E.
  destruct (negb (res =? Z_STREAM_END)) eqn:R; [discriminate|].
  apply negb_false_iff, Z.eqb_eq in R; subst res.
  cbn [cr_output cr_output_size cr_ret]; intros [= <-] [= <-].
  exists written; auto.
Qed.

Lemma ztake_init_cells (n : Z) (bs : list Z) :
  ztake n (init_cells bs) = init_cells (ztake n bs).
Proof. unfold ztake, init_cells; apply firstn_map. Qed.

(** A packed entry stores exactly [pe_data_size] bytes, a 32-bit count,
    and records the 32-bit size of the source as the uncompressed size. *)
Lemma pack_entry_ok `{YepHeader} `{Zlib} (root : string) (tree : fsnode)
    (n : yep_header_node) (e : packed_entry) :
  pack_entry root tree n = Ret e ->
  entry_ok e /\ 0 <= pe_data_size e < UINT32 /\
  exists file, fs_fopen root tree (fullpath n) = Some file /\
               pe_uncompressed_size e = get_file_size file.
Proof.
  unfold pack_entry, entry_ok.
  destruct (fs_fopen root tree (fullpath n)) as [file|]; [|discriminate].
  destruct (get_file_size_range file) as [Hr Hle].
  destruct (_ =? YEP_COMPRESSION_ZLIB).
  - destruct (cr_output _) as [out|] eqn:Hout; [|discriminate].
    destruct (cr_output_size _) as [sz|] eqn:Hsz; [|discriminate].
    destruct (compress_data_success _ _ _ _ Hout Hsz) as (written & _ & -> & -> & _).
    destruct (load _) as [bytes|] eqn:Hload; [|discriminate].
    intros [= <-]; cbn [pe_data pe_data_size pe_uncompressed_size].
    apply load_length in Hload.
    pose proof (Z.mod_pos_bound (len written) UINT32 ltac:(unfold UINT32; lia)) as Hm.
    pose proof (Z.mod_le (len written) UINT32 (len_nonneg _) ltac:(unfold UINT32; lia)).
    repeat split; try lia; [|eauto].
    unfold len at 1; rewrite Hload; unfold ztake, store, init_cells.
    rewrite length_firstn, length_app, length_map.
    unfold len in *; lia.
  - intros [= <-]; cbn [pe_data pe_data_size pe_uncompressed_size].
    repeat split; try lia; [|eauto].
    unfold read_file_data; apply len_ztake; lia.
Qed.

Lemma packed_as_each `{YepHeader} `{Zlib} (root : string) (tree : fsnode)
    (nodes : list yep_header_node) (es : list packed_entry) :
  packed_as root tree nodes es ->
  Forall2 (fun n e => pack_entry root tree n = Ret e) nodes es.
Proof.
  unfold packed_as; revert es; induction nodes as [|n nodes IH]; intros es.
  - intros [= <-]; constructor.
  - cbn [pack_entries].
    destruct (pack_entry root tree n) as [e| |] eqn:He; try discriminate.
    cbn [bind].
    destruct (pack_entries root tree nodes) as [es'| |]; try discriminate.
    intros [= <-]; constructor; auto.
Qed.

Lemma packed_as_ok `{YepHeader} `{Zlib} (root : string) (tree : fsnode)
    (nodes : list yep_header_node) (es : list packed_entry) :
  packed_as root tree nodes es -> Forall entry_ok es.
Proof.
  intros Hes; apply packed_as_each in Hes.
  induction Hes as [|n e nodes es Hne _ IH]; constructor; [|assumption].
  now apply pack_entry_ok in Hne.
Qed.

Lemma packed_as_length `{YepHeader} `{Zlib} (root : string) (tree : fsnode)
    (nodes : list yep_header_node) (es : list packed_entry) :
  packed_as root tree nodes es -> length nodes = length es.
Proof. intros Hes; apply packed_as_each in Hes; revert Hes; apply Forall2_length. Qed.

Lemma payload_total_nonneg (es : list packed_entry) :
  Forall entry_ok es -> 0 <= payload_total es.
Proof.
  unfold payload_total, zsum; induction 1 as [|e es He _ IH]; simpl; [lia|].
  unfold entry_ok in He; pose proof (len_nonneg (pe_data e)); lia.
Qed.

Lemma len_payloads (es : list packed_entry) :
  Forall entry_ok es -> len (payloads es) = payload_total es.
Proof.
  unfold payloads, payload_total, zsum; induction 1 as [|e es He _ IH]; [reflexivity|].
  cbn [map concat fold_right]; rewrite len_app, IH, ztake_all by (unfold entry_ok in He; lia).
  unfold entry_ok in He; lia.
Qed.

(** ** The whole pack operation *)

Lemma len_archive_head `{YepHeader} (count : Z) : len (archive_head count) = 3.
Proof. reflexivity. Qed.

(** When every file is read and stored without failure and all sizes are
    in range, [yep_pack_directory] succeeds and the archive it writes is
    the head, the patched header table and the payloads, in list order. *)
Lemma yep_pack_directory_layout `{YepHeader} `{Zlib} (tree : fsnode)
    (creatable : string -> bool) (pl : yep_pack_list_t)
    (directory_path output_name : string) (es : list packed_entry) :
  let pl' := _ye_walk_directory directory_path directory_path tree pl in
  pack_list_ok pl ->
  creatable output_name = true ->
  packed_as directory_path tree (head pl') es ->
  in_range (entry_count pl') es ->
  yep_pack_directory tree creatable pl directory_path output_name
  = Ret {| pr_ret := true; pr_list := pl';
           pr_file := Some (archive_of (head pl') es) |}.
Proof.
  intros pl' Hpl Hcre Hes [Hint Hfit].
  destruct (walk_pack_list_ok directory_path directory_path tree pl Hpl) as [Hnodes Hcount].
  fold pl' in Hnodes, Hcount.
  pose proof (packed_as_ok _ _ _ _ Hes) as Heok.
  pose proof (payload_total_nonneg es Heok) as Htot.
  pose proof (len_nonneg (head pl')) as Hk.
  unfold yep_pack_directory; fold pl'; rewrite Hcre; cbn [negb].
  rewrite fwrite_at_end by reflexivity.
  rewrite fwrite_at_end by reflexivity.
  rewrite write_headers_at_end by reflexivity.
  unfold write_pack_file.
  rewrite Hcount in *; unfold YEP_HEADER_SIZE_BYTES in *.
  rewrite Z.mod_small by (unfold UINT32 in *; lia).
  cbn [app].
  change (le_bytes 1 (YEP_CURRENT_FORMAT_VERSION mod UINT8)
            ++ le_bytes 2 (len (head pl') mod UINT16))
    with (archive_head (len (head pl'))).
  destruct (write_pack_loop_layout directory_path tree (head pl') es
              (packed_as_each _ _ _ _ Hes) Hnodes Heok
              0 (3 + len (head pl') * 78)
              (0 + len (le_bytes 1 (YEP_CURRENT_FORMAT_VERSION mod UINT8))
               + len (le_bytes 2 (len (head pl') mod UINT16))
               + len (concat (map skeleton_record (head pl'))))
              (archive_head (len (head pl'))) [])
    as [pos' Hloop].
  { reflexivity. }
  { rewrite len_archive_head, len_nil; lia. }
  { unfold YEP_HEADER_SIZE_BYTES; lia. }
  { lia. }
  rewrite app_nil_r in Hloop.
  match goal with
  | |- context [write_pack_loop _ _ _ _ _ {| w_data := ?d; w_pos := _ |}] =>
      replace d with (archive_head (len (head pl'))
                        ++ concat (map skeleton_record (head pl')))
        by reflexivity
  end.
  rewrite Hloop; cbn [bind w_data app].
  unfold archive_of, YEP_HEADER_SIZE_BYTES; reflexivity.
Qed.

(** ** Reading the layout back *)

Lemma payload_total_cons (e : packed_entry) (es : list packed_entry) :
  payload_total (e :: es) = pe_data_size e + payload_total es.
Proof. reflexivity. Qed.

Lemma final_records_nth (i : nat) :
  forall (nodes : list yep_header_node) (es : list packed_entry) (off : Z)
         (rest : list Z) (n : yep_header_node) (e : packed_entry),
    Forall node_ok nodes ->
    nth_error nodes i = Some n -> nth_error es i = Some e ->
    ztake 78 (zdrop (78 * Z.of_nat i) (final_records nodes es off ++ rest))
    = final_record n (off + payload_total (firstn i es)) e.
Proof.
  induction i as [|i IH]; intros nodes es off rest n e Hok Hn He;
    destruct nodes as [|n0 nodes]; try discriminate;
    destruct es as [|e0 es]; try discriminate;
    inversion_clear Hok as [|? ? Hn0 Hok'].
  - cbn [nth_error] in Hn, He; injection Hn as ->; injection He as ->.
    cbn [final_records firstn]; change (78 * Z.of_nat 0) with 0.
    rewrite zdrop_0, <- app_assoc, ztake_app_len by now apply len_final_record.
    unfold payload_total; cbn; now rewrite Z.add_0_r.
  - cbn [nth_error] in Hn, He.
    cbn [final_records firstn]; rewrite <- app_assoc.
    rewrite zdrop_app_ge by (rewrite len_final_record by assumption; lia).
    rewrite len_final_record by assumption.
    replace (78 * Z.of_nat (S i) - 78) with (78 * Z.of_nat i) by lia.
    rewrite (IH nodes es _ rest n e Hok' Hn He), payload_total_cons.
    f_equal; lia.
Qed.

Lemma payloads_nth (i : nat) :
  forall (es : list packed_entry) (rest : list Z) (e : packed_entry),
    Forall entry_ok es -> nth_error es i = Some e ->
    ztake (pe_data_size e) (zdrop (payload_total (firstn i es)) (payloads es ++ rest))
    = pe_data e.
Proof.
  induction i as [|i IH]; intros es rest e Hok He;
    destruct es as [|e0 es]; try discriminate;
    inversion_clear Hok as [|? ? He0 Hok'].
  - cbn [nth_error] in He; injection He as ->.
    cbn [firstn]; change (payload_total []) with 0; rewrite zdrop_0.
    unfold payloads; cbn [map concat]; rewrite <- app_assoc.
    unfold entry_ok in He0.
    rewrite (ztake_all _ (pe_data e)) by lia.
    now apply ztake_app_len.
  - cbn [nth_error] in He.
    cbn [firstn]; rewrite payload_total_cons.
    unfold payloads; cbn [map concat]; fold (payloads es); rewrite <- app_assoc.
    unfold entry_ok in He0.
    rewrite (ztake_all _ (pe_data e0)) by lia.
    pose proof (payload_total_nonneg (firstn i es)
                  (Forall_firstn _ i _ Hok')) as Hnn.
    rewrite zdrop_app_ge by lia.
    replace (pe_data_size e0 + payload_total (firstn i es) - len (pe_data e0))
      with (payload_total (firstn i es)) by lia.
    now apply IH.
Qed.

Lemma payload_total_firstn_le (i : nat) (es : list packed_entry) :
  Forall entry_ok es -> payload_total (firstn i es) <= payload_total es.
Proof.
  intros Hok; rewrite <- (firstn_skipn i es) at 2.
  unfold payload_total; rewrite map_app, zsum_app.
  pose proof (payload_total_nonneg (skipn i es) (Forall_skipn _ i _ Hok)) as Hnn.
  unfold payload_total in Hnn; lia.
Qed.

Lemma payload_total_firstn_S (i : nat) (es : list packed_entry) (e : packed_entry) :
  nth_error es i = Some e ->
  payload_total (firstn (S i) es) = payload_total (firstn i es) + pe_data_size e.
Proof.
  revert es; induction i as [|i IH]; intros [|e0 es] He; try discriminate.
  - cbn [nth_error] in He; injection He as ->.
    cbn [firstn]; rewrite payload_total_cons; change (payload_total []) with 0; lia.
  - cbn [nth_error] in He. change (firstn (S (S i)) (e0 :: es)) with (e0 :: firstn (S i) es).
    change (firstn (S i) (e0 :: es)) with (e0 :: firstn i es).
    rewrite !payload_total_cons, (IH es He); lia.
Qed.

(** Record [i] of the archive: the name of node [i] and the fields of
    entry [i], whose offset is the end of the payloads before it. *)
Lemma archive_record `{YepHeader} (nodes : list yep_header_node)
    (es : list packed_entry) (i : nat) (n : yep_header_node) (e : packed_entry) :
  Forall node_ok nodes ->
  nth_error nodes i = Some n -> nth_error es i = Some e ->
  record_at (archive_of nodes es) (Z.of_nat i)
  = final_record n (3 + len nodes * YEP_HEADER_SIZE_BYTES
                    + payload_total (firstn i es)) e.
Proof.
  intros Hok Hn He; unfold record_at, archive_of, YEP_HEADER_SIZE_BYTES.
  rewrite zdrop_app_ge by (rewrite len_archive_head; lia).
  rewrite len_archive_head.
  replace (3 + Z.of_nat i * 78 - 3) with (78 * Z.of_nat i) by lia.
  now apply final_records_nth.
Qed.

(** The payload of entry [i] sits at the offset its record carries. *)
Lemma archive_payload `{YepHeader} (nodes : list yep_header_node)
    (es : list packed_entry) (i : nat) (e : packed_entry) :
  Forall node_ok nodes -> Forall entry_ok es -> length nodes = length es ->
  nth_error es i = Some e ->
  ztake (pe_data_size e)
    (zdrop (3 + len nodes * YEP_HEADER_SIZE_BYTES + payload_total (firstn i es))
       (archive_of nodes es))
  = pe_data e.
Proof.
  intros Hok Heok Hlen He; unfold archive_of, YEP_HEADER_SIZE_BYTES.
  pose proof (payload_total_nonneg (firstn i es) (Forall_firstn _ i _ Heok)) as Hnn.
  pose proof (len_nonneg nodes) as Hk.
  rewrite zdrop_app_ge by (rewrite len_archive_head; lia).
  rewrite len_archive_head.
  rewrite zdrop_app_ge
    by (rewrite len_final_records by assumption; lia).
  rewrite len_final_records by assumption.
  replace (3 + len nodes * 78 + payload_total (firstn i es) - 3 - 78 * len nodes)
    with (payload_total (firstn i es)) by lia.
  rewrite <- (app_nil_r (payloads es)).
  now apply payloads_nth.
Qed.

Lemma len_archive_of `{YepHeader} (nodes : list yep_header_node)
    (es : list packed_entry) :
  Forall node_ok nodes -> Forall entry_ok es -> length nodes = length es ->
  len (archive_of nodes es)
  = 3 + len nodes * YEP_HEADER_SIZE_BYTES + payload_total es.
Proof.
  intros Hok Heok Hlen; unfold archive_of, YEP_HEADER_SIZE_BYTES.
  rewrite !len_app, len_archive_head, len_final_records, len_payloads by assumption.
  lia.
Qed.

(** The fields of a patched record read back as written. *)
Lemma final_record_fields (n : yep_header_node) (off : Z) (e : packed_entry) :
  node_ok n ->
  let r := final_record n off e in
  rec_name r = ztake 64 (name n)
  /\ rec_offset r = off mod UINT32
  /\ rec_size r = pe_data_size e mod UINT32
  /\ rec_compression_type r = pe_compression_type e mod UINT8
  /\ rec_uncompressed_size r = pe_uncompressed_size e mod UINT32
  /\ rec_data_type r = pe_data_type e mod UINT8.
Proof.
  intros Hn r; subst r; unfold final_record, record_fields.
  assert (H64 : len (ztake 64 (name n)) = 64)
    by (apply len_ztake; unfold node_ok in Hn; lia).
  unfold rec_name, rec_offset, rec_size, rec_compression_type,
    rec_uncompressed_size, rec_data_type.
  rewrite ztake_app_len by assumption.
  repeat split.
  - rewrite zdrop_app_len by assumption.
    rewrite ztake_app_len by apply len_le_bytes. apply le_value_le_bytes.
  - rewrite zdrop_app_ge, H64 by lia.
    rewrite (zdrop_app_len (68 - 64)) by apply len_le_bytes.
    rewrite ztake_app_len by apply len_le_bytes. apply le_value_le_bytes.
  - rewrite zdrop_app_ge, H64 by lia.
    rewrite (zdrop_app_ge (72 - 64)) by (rewrite len_le_bytes; lia).
    rewrite len_le_bytes.
    rewrite (zdrop_app_len (72 - 64 - Z.of_nat 4)) by apply len_le_bytes.
    rewrite ztake_app_len by apply len_le_bytes. apply le_value_le_bytes.
  - rewrite zdrop_app_ge, H64 by lia.
    rewrite (zdrop_app_ge (73 - 64)) by (rewrite len_le_bytes; lia).
    rewrite len_le_bytes.
    rewrite (zdrop_app_ge (73 - 64 - Z.of_nat 4)) by (rewrite len_le_bytes; lia).
    rewrite len_le_bytes.
    rewrite (zdrop_app_len (73 - 64 - Z.of_nat 4 - Z.of_nat 4)) by apply len_le_bytes.
    rewrite ztake_app_len by apply len_le_bytes. apply le_value_le_bytes.
  - rewrite zdrop_app_ge, H64 by lia.
    rewrite (zdrop_app_ge (77 - 64)) by (rewrite len_le_bytes; lia).
    rewrite len_le_bytes.
    rewrite (zdrop_app_ge (77 - 64 - Z.of_nat 4)) by (rewrite len_le_bytes; lia).
    rewrite len_le_bytes.
    rewrite (zdrop_app_ge (77 - 64 - Z.of_nat 4 - Z.of_nat 4)) by (rewrite len_le_bytes; lia).
    rewrite len_le_bytes.
    rewrite (zdrop_app_len (77 - 64 - Z.of_nat 4 - Z.of_nat 4 - Z.of_nat 1))
      by apply len_le_bytes.
    rewrite ztake_all by (rewrite len_le_bytes; lia). apply le_value_le_bytes.
Qed.

Lemma skeleton_nth (i : nat) :
  forall (nodes : list yep_header_node) (rest : list Z) (n : yep_header_node),
    Forall node_ok nodes -> nth_error nodes i = Some n ->
    ztake 78 (zdrop (78 * Z.of_nat i) (concat (map skeleton_record nodes) ++ rest))
    = skeleton_record n.
Proof.
  induction i as [|i IH]; intros nodes rest n Hok Hn;
    destruct nodes as [|n0 nodes]; try discriminate;
    inversion_clear Hok as [|? ? Hn0 Hok'].
  - cbn [nth_error] in Hn; injection Hn as ->.
    cbn [map concat]; change (78 * Z.of_nat 0) with 0.
    rewrite zdrop_0, <- app_assoc; now apply ztake_app_len, len_skeleton_record.
  - cbn [nth_error] in Hn; cbn [map concat]; rewrite <- app_assoc.
    rewrite zdrop_app_ge by (rewrite len_skeleton_record by assumption; lia).
    rewrite len_skeleton_record by assumption.
    replace (78 * Z.of_nat (S i) - 78) with (78 * Z.of_nat i) by lia.
    now apply IH.
Qed.

Lemma split_three {A : Type} (l : list A) (a b : Z) :
  0 <= a -> 0 <= b ->
  l = ztake a l ++ ztake b (zdrop a l) ++ zdrop (a + b) l.
Proof.
  intros Ha Hb; unfold ztake, zdrop.
  rewrite Z2Nat.inj_add, Nat.add_comm by assumption.
  rewrite <- (skipn_skipn (Z.to_nat b) (Z.to_nat a) l).
  now rewrite !firstn_skipn.
Qed.

(** [update_header] overwrites the fourteen field bytes of record [i]
    and nothing else. *)
Lemma update_header_frame (f : wfile) (i off sz ct us dt : Z) :
  0 <= i ->
  3 + i * YEP_HEADER_SIZE_BYTES + YEP_HEADER_SIZE_BYTES <= len (w_data f) ->
  3 + i * YEP_HEADER_SIZE_BYTES + 64 <= INT_MAX ->
  exists f',
    update_header f i off sz ct us dt = Ret f'
    /\ w_data f' = ztake (3 + i * YEP_HEADER_SIZE_BYTES + 64) (w_data f)
                   ++ record_fields off sz ct us dt
                   ++ zdrop (3 + i * YEP_HEADER_SIZE_BYTES + YEP_HEADER_SIZE_BYTES) (w_data f).
Proof.
  unfold YEP_HEADER_SIZE_BYTES; intros Hi Hlen Hmax; destruct f as [data pos].
  cbn [w_data] in *.
  pose proof (split_three data (3 + i * 78 + 64) 14 ltac:(lia) ltac:(lia)) as Hsplit.
  edestruct (update_header_over (ztake (3 + i * 78 + 64) data)
               (ztake 14 (zdrop (3 + i * 78 + 64) data))
               (zdrop (3 + i * 78 + 64 + 14) data) pos i off sz ct us dt)
    as [pos' Hupd].
  - rewrite len_ztake; unfold YEP_HEADER_SIZE_BYTES; lia.
  - rewrite len_ztake; [reflexivity|]. rewrite len_zdrop; lia.
  - unfold YEP_HEADER_SIZE_BYTES; lia.
  - rewrite <- Hsplit in Hupd; rewrite Hupd; eexists; split; [reflexivity|]; cbn [w_data].
    now replace (3 + i * 78 + 64 + 14) with (3 + i * 78 + 78) by lia.
Qed.

(** The second phase run on the header skeleton. *)
Lemma write_pack_file_layout `{YepHeader} `{Zlib} (root : string) (tree : fsnode)
    (pl : yep_pack_list_t) (es : list packed_entry) (pos : Z) :
  pack_list_ok pl -> packed_as root tree (head pl) es ->
  in_range (entry_count pl) es ->
  write_pack_file root tree pl
    {| w_data := archive_head (entry_count pl) ++ concat (map skeleton_record (head pl));
       w_pos := pos |}
  = Ret (archive_of (head pl) es).
Proof.
  intros [Hnodes Hcount] Hes [Hint Hfit].
  pose proof (packed_as_ok _ _ _ _ Hes) as Heok.
  pose proof (payload_total_nonneg es Heok) as Htot.
  pose proof (len_nonneg (head pl)) as Hk.
  unfold write_pack_file; rewrite Hcount in *; unfold YEP_HEADER_SIZE_BYTES in *.
  rewrite Z.mod_small by (unfold UINT32 in *; lia).
  destruct (write_pack_loop_layout root tree (head pl) es
              (packed_as_each _ _ _ _ Hes) Hnodes Heok
              0 (3 + len (head pl) * 78) pos (archive_head (len (head pl))) [])
    as [pos' Hloop].
  { reflexivity. }
  { rewrite len_archive_head, len_nil; lia. }
  { unfold YEP_HEADER_SIZE_BYTES; lia. }
  { lia. }
  rewrite app_nil_r in Hloop; rewrite Hloop; reflexivity.
Qed.

(** C8. In the payload-and-patch phase the payloads are stored back to
    back from byte [3 + entry_count * 78] in the order of the header
    records; the record of entry [i] keeps its 64-byte name and receives
    its five fields, and each call of [update_header] for entry [i]
    overwrites the fourteen bytes from [3 + i * 78 + 64] and no other
    byte of the file. Sizes are taken in range (no 32-bit overflow). *)
Theorem payload_patch_phase `{YepHeader} `{Zlib} (root : string) (tree : fsnode)
    (pl : yep_pack_list_t) (es : list packed_entry) (pos : Z) :
  pack_list_ok pl -> packed_as root tree (head pl) es ->
  in_range (entry_count pl) es ->
  let skeleton :=
    archive_head (entry_count pl) ++ concat (map skeleton_record (head pl)) in
  let data_start := 3 + entry_count pl * YEP_HEADER_SIZE_BYTES in
  exists archive,
    write_pack_file root tree pl {| w_data := skeleton; w_pos := pos |} = Ret archive
    /\ len skeleton = data_start
    /\ ztake 3 archive = ztake 3 skeleton
    /\ zdrop data_start archive = payloads es
    /\ (forall (i : nat) (n : yep_header_node) (e : packed_entry),
          nth_error (head pl) i = Some n -> nth_error es i = Some e ->
          let offset := data_start + payload_total (firstn i es) in
          ztake (pe_data_size e) (zdrop offset archive) = pe_data e
          /\ record_at archive (Z.of_nat i)
             = rec_name (record_at skeleton (Z.of_nat i))
               ++ record_fields offset (pe_data_size e) (pe_compression_type e)
                    (pe_uncompressed_size e) (pe_data_type e))
    /\ (forall (f : wfile) (i off sz ct us dt : Z),
          0 <= i ->
          3 + i * YEP_HEADER_SIZE_BYTES + YEP_HEADER_SIZE_BYTES <= len (w_data f) ->
          3 + i * YEP_HEADER_SIZE_BYTES + 64 <= INT_MAX ->
          exists f',
            update_header f i off sz ct us dt = Ret f'
            /\ w_data f'
               = ztake (3 + i * YEP_HEADER_SIZE_BYTES + 64) (w_data f)
                 ++ record_fields off sz ct us dt
                 ++ zdrop (3 + i * YEP_HEADER_SIZE_BYTES + YEP_HEADER_SIZE_BYTES)
                      (w_data f)).
Proof.
  intros Hpl Hes Hrange skeleton data_start.
  pose proof Hpl as [Hnodes Hcount].
  pose proof (packed_as_ok _ _ _ _ Hes) as Heok.
  pose proof (packed_as_length _ _ _ _ Hes) as Hlen.
  exists (archive_of (head pl) es).
  split; [now apply write_pack_file_layout|].
  assert (Hskel : len skeleton = data_start).
  { unfold skeleton, data_start, YEP_HEADER_SIZE_BYTES.
    rewrite len_app, len_archive_head, len_skeleton, Hcount by assumption; lia. }
  split; [assumption|].
  split.
  { unfold skeleton, archive_of; rewrite Hcount.
    now rewrite !ztake_app_len by apply len_archive_head. }
  split.
  { unfold archive_of, data_start; rewrite Hcount, app_assoc.
    apply zdrop_app_len.
    rewrite len_app, len_archive_head, len_final_records by assumption.
    unfold YEP_HEADER_SIZE_BYTES; lia. }
  split; [|intros; now apply update_header_frame].
  intros i n e Hn He offset; subst offset data_start; rewrite Hcount.
  split; [now apply archive_payload|].
  rewrite (archive_record _ _ i n e) by assumption.
  unfold skeleton, record_at, YEP_HEADER_SIZE_BYTES.
  rewrite zdrop_app_ge by (rewrite len_archive_head; lia).
  rewrite len_archive_head.
  replace (3 + Z.of_nat i * 78 - 3) with (78 * Z.of_nat i) by lia.
  rewrite <- (app_nil_r (concat _)), (skeleton_nth i _ _ n) by assumption.
  unfold final_record, skeleton_record, rec_name.
  assert (Hn' : node_ok n).
  { exact (Forall_nth_error _ _ _ _ Hnodes Hn). }
  now rewrite ztake_app_len by (apply len_ztake; unfold node_ok in Hn'; lia).
Qed.

Lemma pack_entry_compression `{YepHeader} `{Zlib} (root : string) (tree : fsnode)
    (n : yep_header_node) (e : packed_entry) (file : list Z) :
  pack_entry root tree n = Ret e ->
  fs_fopen root tree (fullpath n) = Some file ->
  pe_compression_type e
  = if 256 <? get_file_size file then YEP_COMPRESSION_ZLIB else YEP_COMPRESSION_NONE.
Proof.
  unfold pack_entry; intros He Hf; rewrite Hf in He.
  destruct (256 <? get_file_size file).
  - change (YEP_COMPRESSION_ZLIB mod UINT8 =? YEP_COMPRESSION_ZLIB) with true in He.
    cbv iota in He.
    destruct (cr_output _); [|discriminate].
    destruct (cr_output_size _); [|discriminate].
    destruct (load _); [|discriminate].
    now injection He as <-.
  - change (YEP_COMPRESSION_NONE mod UINT8 =? YEP_COMPRESSION_ZLIB) with false in He.
    cbv iota in He.
    now injection He as <-.
Qed.

(** Tactics for the concrete runs. *)
Ltac by_computation := vm_compute; first [reflexivity | discriminate | intro; discriminate].
Ltac in_range_by_computation := split; by_computation.

Lemma sample_list_ok : pack_list_ok sample_list.
Proof. split; [repeat constructor | reflexivity]. Qed.

Lemma payload_patch_phase_witness :
  pack_list_ok sample_list
  /\ @packed_as header_v1 stored_zlib "res" sample_tree (head sample_list) sample_entries
  /\ in_range (entry_count sample_list) sample_entries
  /\ exists archive,
       @write_pack_file header_v1 stored_zlib "res" sample_tree sample_list
         {| w_data := @archive_head header_v1 (entry_count sample_list)
                      ++ concat (map skeleton_record (head sample_list));
            w_pos := 0 |} = Ret archive
       /\ zdrop (3 + entry_count sample_list * YEP_HEADER_SIZE_BYTES) archive
          = payloads sample_entries.
Proof.
  assert (H1 : pack_list_ok sample_list) by (split; [repeat constructor | reflexivity]).
  assert (H2 : @packed_as header_v1 stored_zlib "res" sample_tree (head sample_list)
                 sample_entries) by by_computation.
  assert (H3 : in_range (entry_count sample_list) sample_entries)
    by in_range_by_computation.
  split; [exact H1 | split; [exact H2 | split; [exact H3 |]]].
  destruct (@payload_patch_phase header_v1 stored_zlib "res" sample_tree sample_list
              sample_entries 0 H1 H2 H3) as (archive & Hw & _ & _ & Hp & _).
  exists archive; split; assumption.
Defined.

(** ** Properties of a written archive *)

Lemma nth_error_index {A : Type} (l : list A) (i : Z) :
  0 <= i < len l -> exists a, nth_error l (Z.to_nat i) = Some a.
Proof.
  intros Hi; destruct (nth_error l (Z.to_nat i)) as [a|] eqn:E; [eauto|].
  apply nth_error_None in E; unfold len in Hi; lia.
Qed.

(** C5. In the archive of a successful pack operation whose sizes are
    all in range, every entry record satisfies
    [offset + stored_size <= total archive size]. *)
Theorem entry_bounds `{YepHeader} `{Zlib} (tree : fsnode)
    (creatable : string -> bool) (pl : yep_pack_list_t)
    (directory_path output_name : string) (es : list packed_entry) :
  let pl' := _ye_walk_directory directory_path directory_path tree pl in
  pack_list_ok pl ->
  creatable output_name = true ->
  packed_as directory_path tree (head pl') es ->
  in_range (entry_count pl') es ->
  exists archive,
    yep_pack_directory tree creatable pl directory_path output_name
    = Ret {| pr_ret := true; pr_list := pl'; pr_file := Some archive |}
    /\ forall i, 0 <= i < entry_count pl' ->
         rec_offset (record_at archive i) + rec_size (record_at archive i)
         <= len archive.
Proof.
  intros pl' Hpl Hcre Hes Hrange.
  exists (archive_of (head pl') es); split.
  { now apply yep_pack_directory_layout. }
  destruct (walk_pack_list_ok directory_path directory_path tree pl Hpl) as [Hnodes Hcount].
  fold pl' in Hnodes, Hcount.
  pose proof (packed_as_ok _ _ _ _ Hes) as Heok.
  pose proof (packed_as_length _ _ _ _ Hes) as Hlen.
  destruct Hrange as [_ Hfit]; rewrite Hcount in *.
  intros i Hi.
  destruct (nth_error_index (head pl') i Hi) as [n Hn].
  destruct (Forall2_nth_error _ _ _ (packed_as_each _ _ _ _ Hes) _ _ Hn) as (e & He & Hne).
  replace i with (Z.of_nat (Z.to_nat i)) at 1 2 by lia.
  rewrite (archive_record _ _ _ n e) by assumption.
  assert (Hn' : node_ok n).
  { exact (Forall_nth_error _ _ _ _ Hnodes Hn). }
  destruct (final_record_fields n
              (3 + len (head pl') * YEP_HEADER_SIZE_BYTES
               + payload_total (firstn (Z.to_nat i) es)) e Hn')
    as (_ & Hoff & Hsize & _).
  rewrite Hoff, Hsize, len_archive_of by assumption.
  pose proof (payload_total_firstn_S _ _ _ He) as HS.
  pose proof (payload_total_firstn_le (S (Z.to_nat i)) es Heok) as Hle.
  pose proof (payload_total_nonneg _ (Forall_firstn _ (Z.to_nat i) _ Heok)) as Hnn.
  destruct (pack_entry_ok _ _ _ _ Hne) as (_ & Hsz & _).
  unfold YEP_HEADER_SIZE_BYTES in *.
  rewrite !Z.mod_small by (unfold UINT32 in *; lia).
  lia.
Qed.

Lemma entry_bounds_witness :
  exists archive,
    @yep_pack_directory header_v1 stored_zlib sample_tree always empty_pack_list
      "res" "out.yep"
    = Ret {| pr_ret := true; pr_list := sample_list; pr_file := Some archive |}
    /\ forall i, 0 <= i < entry_count sample_list ->
         rec_offset (record_at archive i) + rec_size (record_at archive i)
         <= len archive.
Proof.
  apply (@entry_bounds header_v1 stored_zlib sample_tree always empty_pack_list
           "res" "out.yep" sample_entries).
  - split; [constructor | reflexivity].
  - reflexivity.
  - by_computation.
  - in_range_by_computation.
Defined.

(** C2. A file of raw size at most 256 bytes is recorded with
    compression type NONE and a larger one with ZLIB: this is what the
    writer decides for the entry, and what the archive carries in the
    record of that entry. Raw sizes are 32-bit quantities. *)
Theorem compression_threshold `{YepHeader} `{Zlib} (tree : fsnode)
    (creatable : string -> bool) (pl : yep_pack_list_t)
    (directory_path output_name : string) (es : list packed_entry) :
  let pl' := _ye_walk_directory directory_path directory_path tree pl in
  pack_list_ok pl ->
  creatable output_name = true ->
  packed_as directory_path tree (head pl') es ->
  in_range (entry_count pl') es ->
  exists archive,
    yep_pack_directory tree creatable pl directory_path output_name
    = Ret {| pr_ret := true; pr_list := pl'; pr_file := Some archive |}
    /\ forall (i : nat) (n : yep_header_node) (e : packed_entry) (file : list Z),
         nth_error (head pl') i = Some n -> nth_error es i = Some e ->
         fs_fopen directory_path tree (fullpath n) = Some file ->
         len file < UINT32 ->
         let recorded := rec_compression_type (record_at archive (Z.of_nat i)) in
         recorded = pe_compression_type e
         /\ (recorded = YEP_COMPRESSION_NONE <-> len file <= 256)
         /\ (recorded = YEP_COMPRESSION_ZLIB <-> 256 < len file).
Proof.
  intros pl' Hpl Hcre Hes Hrange.
  exists (archive_of (head pl') es); split.
  { now apply yep_pack_directory_layout. }
  destruct (walk_pack_list_ok directory_path directory_path tree pl Hpl) as [Hnodes Hcount].
  fold pl' in Hnodes, Hcount.
  intros i n e file Hn He Hfile Hsmall recorded; subst recorded.
  rewrite (archive_record _ _ _ n e) by assumption.
  assert (Hn' : node_ok n).
  { exact (Forall_nth_error _ _ _ _ Hnodes Hn). }
  destruct (final_record_fields n
              (3 + len (head pl') * YEP_HEADER_SIZE_BYTES + payload_total (firstn i es))
              e Hn') as (_ & _ & _ & Hct & _).
  rewrite Hct.
  destruct (Forall2_nth_error _ _ _ (packed_as_each _ _ _ _ Hes) _ _ Hn) as (e' & He' & Hne).
  rewrite He in He'; injection He' as <-.
  rewrite (pack_entry_compression _ _ _ _ _ Hne Hfile).
  rewrite (get_file_size_small file Hsmall).
  unfold YEP_COMPRESSION_ZLIB, YEP_COMPRESSION_NONE.
  destruct (256 <? len file) eqn:E;
    [apply Z.ltb_lt in E | apply Z.ltb_ge in E];
    (split; [reflexivity|]); split; split; intros; try lia; try reflexivity;
    discriminate.
Qed.

Lemma compression_threshold_witness :
  exists archive,
    @yep_pack_directory header_v1 stored_zlib sample_tree always empty_pack_list
      "res" "out.yep"
    = Ret {| pr_ret := true; pr_list := sample_list; pr_file := Some archive |}
    /\ rec_compression_type (record_at archive 1) = YEP_COMPRESSION_ZLIB
    /\ rec_compression_type (record_at archive 2) = YEP_COMPRESSION_NONE.
Proof.
  destruct (@compression_threshold header_v1 stored_zlib sample_tree always
              empty_pack_list "res" "out.yep" sample_entries)
    as (archive & Hpack & Hrec).
  - split; [constructor | reflexivity].
  - reflexivity.
  - by_computation.
  - in_range_by_computation.
  - exists archive; split; [exact Hpack|]; split.
    + eapply (Hrec 1%nat _ _ (repeat 171 300)); by_computation.
    + eapply (Hrec 2%nat _ _ (bytes_of_string "0123456789")); by_computation.
Defined.

(** ** The codec wrappers *)

Lemma length_malloc (n : Z) : length (malloc n) = Z.to_nat n.
Proof. apply repeat_length. Qed.

(** C9. [decompress_data] asks [malloc] for exactly [output_size] bytes
    (once [inflateInit] has succeeded), and returns the error code if
    and only if [inflateInit] fails, or [inflate] does not reach the end
    of the stream, or the number of bytes produced differs from
    [output_size]; otherwise it returns 0 and the output buffer holds
    exactly the [output_size] bytes produced. *)
Theorem decompress_data_spec `{Zlib} (input : list Z) (input_size output_size : Z) :
  let r := decompress_data input input_size output_size in
  let run := inflate_finish (ztake (input_size mod UINT32) input)
               (output_size mod UINT32) in
  (dr_ret r = -1 \/ dr_ret r = 0)
  /\ (dr_ret r = -1 <->
      inflateInit <> Z_OK \/ fst run <> Z_STREAM_END \/ len (snd run) <> output_size)
  /\ dr_malloc r = (if inflateInit =? Z_OK then Some output_size else None)
  /\ (dr_ret r = 0 ->
      dr_output r = Some (init_cells (snd run))
      /\ len (snd run) = output_size
      /\ length (init_cells (snd run)) = length (malloc output_size)).
Proof.
  intros r run; subst r run; unfold decompress_data.
  destruct (inflateInit =? Z_OK) eqn:Einit; cbn [negb].
  2:{ apply Z.eqb_neq in Einit; cbn [dr_ret dr_malloc dr_output].
      repeat split; auto; try discriminate. }
  apply Z.eqb_eq in Einit.
  destruct (inflate_finish _ _) as [code written]; cbn [fst snd].
  destruct (code =? Z_STREAM_END) eqn:Ecode; cbn [negb].
  2:{ apply Z.eqb_neq in Ecode; cbn [dr_ret dr_malloc dr_output].
      repeat split; auto; try discriminate. }
  apply Z.eqb_eq in Ecode.
  destruct (output_size =? len written) eqn:Esize; cbn [negb].
  2:{ apply Z.eqb_neq in Esize; cbn [dr_ret dr_malloc dr_output].
      repeat split; auto; try discriminate. }
  apply Z.eqb_eq in Esize; cbn [dr_ret dr_malloc dr_output].
  assert (Hfull : store written (malloc output_size) = init_cells written).
  { apply store_full; rewrite length_malloc; unfold len in Esize; lia. }
  repeat split; auto; try discriminate.
  - intros [Hc|[Hc|Hc]]; congruence.
  - now rewrite Hfull.
  - unfold init_cells; rewrite length_map, length_malloc; unfold len in Esize; lia.
Qed.

Lemma decompress_data_spec_witness :
  dr_ret (@decompress_data stored_zlib [1; 2; 3] 3 3) = 0
  /\ dr_output (@decompress_data stored_zlib [1; 2; 3] 3 3)
     = Some (init_cells [1; 2; 3])
  /\ dr_ret (@decompress_data stored_zlib [1; 2; 3] 3 2) = -1
  /\ dr_ret (@decompress_data stored_zlib [1; 2; 3] 3 4) = -1
  /\ dr_ret (@decompress_data failing_init_zlib [1; 2; 3] 3 3) = -1
  /\ dr_malloc (@decompress_data stored_zlib [1; 2; 3] 3 4) = Some 4.
Proof.
  pose proof (@decompress_data_spec stored_zlib [1; 2; 3] 3 3) as (_ & _ & _ & Hok).
  pose proof (@decompress_data_spec stored_zlib [1; 2; 3] 3 2) as (_ & Hshort & _).
  pose proof (@decompress_data_spec stored_zlib [1; 2; 3] 3 4) as (_ & Hlong & Hm & _).
  pose proof (@decompress_data_spec failing_init_zlib [1; 2; 3] 3 3) as (_ & Hinit & _).
  split; [reflexivity|].
  split; [apply Hok; reflexivity|].
  split; [apply Hshort; right; left; by_computation|].
  split; [apply Hlong; right; right; by_computation|].
  split; [apply Hinit; left; by_computation|].
  exact Hm.
Defined.

(** ** Streams open for reading *)

Lemma stream_of_set_stream (h : nat) (f f' : rfile) (ss : list (nat * rfile)) :
  stream_of h ss = Some f -> stream_of h (set_stream h f' ss) = Some f'.
Proof.
  induction ss as [|[h' g] ss IH]; simpl; [discriminate|].
  destruct (Nat.eqb h' h) eqn:E; simpl; rewrite E; auto.
Qed.

Lemma set_stream_twice (h : nat) (f f' : rfile) (ss : list (nat * rfile)) :
  set_stream h f' (set_stream h f ss) = set_stream h f' ss.
Proof.
  induction ss as [|[h' g] ss IH]; simpl; [reflexivity|].
  destruct (Nat.eqb h' h) eqn:E; simpl; rewrite E; [reflexivity | now rewrite IH].
Qed.

Lemma set_stream_same (h : nat) (f : rfile) (ss : list (nat * rfile)) :
  stream_of h ss = Some f -> set_stream h f ss = ss.
Proof.
  induction ss as [|[h' g] ss IH]; simpl; [reflexivity|].
  destruct (Nat.eqb h' h) eqn:E.
  - now intros [= ->].
  - intros Hs; now rewrite IH.
Qed.

Lemma length_set_stream (h : nat) (f : rfile) (ss : list (nat * rfile)) :
  length (set_stream h f ss) = length ss.
Proof.
  induction ss as [|[h' g] ss IH]; simpl; [reflexivity|].
  destruct (Nat.eqb h' h); simpl; congruence.
Qed.

Lemma seek_to_seek_to (h : nat) (data : list Z) (pos pos' : Z) (p : process) :
  seek_to h data pos' (seek_to h data pos p) = seek_to h data pos' p.
Proof. unfold seek_to, set_streams; cbn; now rewrite set_stream_twice. Qed.

Lemma stream_of_seek_to (h : nat) (data : list Z) (pos : Z) (p : process) (f : rfile) :
  stream_of h (streams p) = Some f ->
  stream_of h (streams (seek_to h data pos p)) = Some {| r_data := data; r_pos := pos |}.
Proof. intros Hs; cbn; now apply stream_of_set_stream with f. Qed.

Lemma seek_to_same (h : nat) (data : list Z) (pos : Z) (p : process) :
  stream_of h (streams p) = Some {| r_data := data; r_pos := pos |} ->
  seek_to h data pos p = p.
Proof.
  intros Hs; unfold seek_to, set_streams; rewrite set_stream_same by assumption.
  now destruct p.
Qed.

Lemma fread_at (h : nat) (data : list Z) (pos n : Z) (p : process) :
  stream_of h (streams p) = Some {| r_data := data; r_pos := pos |} ->
  0 <= pos -> 0 <= n -> pos + n <= len data ->
  fread (Some h) n p = Ret (ztake n (zdrop pos data), seek_to h data (pos + n) p).
Proof.
  intros Hs Hpos Hn Hlen; unfold fread; rewrite Hs; cbn [r_data r_pos].
  rewrite len_ztake by (rewrite len_zdrop; lia).
  reflexivity.
Qed.

Lemma fseek_at (h : nat) (data : list Z) (pos offset : Z) (p : process) :
  stream_of h (streams p) = Some {| r_data := data; r_pos := pos |} ->
  fseek (Some h) offset p = Ret (seek_to h data offset p).
Proof. intros Hs; unfold fseek; now rewrite Hs. Qed.

(** A piece of a piece of a list. *)
Lemma ztake_zdrop_ztake {A : Type} (l : list A) (a n b m : Z) :
  0 <= a -> 0 <= b -> 0 <= m -> b + m <= n ->
  ztake m (zdrop b (ztake n (zdrop a l))) = ztake m (zdrop (a + b) l).
Proof.
  intros Ha Hb Hm Hle; unfold ztake, zdrop.
  rewrite skipn_firstn_comm, firstn_firstn, skipn_skipn.
  f_equal; [lia | f_equal; lia].
Qed.

(** ** Scanning the header table *)

Lemma read_header_at (h : nat) (data : list Z) (pos : Z) (v : header_vars)
    (p : process) :
  yep_file p = Some h ->
  stream_of h (streams p) = Some {| r_data := data; r_pos := pos |} ->
  0 <= pos -> pos + 78 <= len data ->
  vars_shape v ->
  read_header v p
  = Ret (vars_of_record (ztake 78 (zdrop pos data)), seek_to h data (pos + 78) p).
Proof.
  intros Hfile Hs Hpos Hlen (S1 & S2 & S3 & S4 & S5 & S6).
  unfold read_header.
  rewrite Hfile, (fread_at h data pos 64 p) by (assumption || lia).
  cbn [bind yep_file seek_to set_streams]; rewrite Hfile.
  fold (seek_to h data (pos + 64) p).
  rewrite (fread_at h data (pos + 64) 4)
    by (try (eapply stream_of_seek_to; eassumption); lia).
  cbn [bind yep_file seek_to set_streams]; rewrite Hfile.
  fold (seek_to h data (pos + 64) p); fold (seek_to h data (pos + 64 + 4) (seek_to h data (pos + 64) p)).
  rewrite seek_to_seek_to.
  rewrite (fread_at h data (pos + 64 + 4) 4)
    by (try (eapply stream_of_seek_to; eassumption); lia).
  cbn [bind yep_file seek_to set_streams]; rewrite Hfile.
  fold (seek_to h data (pos + 64 + 4) p);
    fold (seek_to h data (pos + 64 + 4 + 4) (seek_to h data (pos + 64 + 4) p)).
  rewrite seek_to_seek_to.
  rewrite (fread_at h data (pos + 64 + 4 + 4) 1)
    by (try (eapply stream_of_seek_to; eassumption); lia).
  cbn [bind yep_file seek_to set_streams]; rewrite Hfile.
  fold (seek_to h data (pos + 64 + 4 + 4) p);
    fold (seek_to h data (pos + 64 + 4 + 4 + 1) (seek_to h data (pos + 64 + 4 + 4) p)).
  rewrite seek_to_seek_to.
  rewrite (fread_at h data (pos + 64 + 4 + 4 + 1) 4)
    by (try (eapply stream_of_seek_to; eassumption); lia).
  cbn [bind yep_file seek_to set_streams]; rewrite Hfile.
  fold (seek_to h data (pos + 64 + 4 + 4 + 1) p);
    fold (seek_to h data (pos + 64 + 4 + 4 + 1 + 4) (seek_to h data (pos + 64 + 4 + 4 + 1) p)).
  rewrite seek_to_seek_to.
  rewrite (fread_at h data (pos + 64 + 4 + 4 + 1 + 4) 1)
    by (try (eapply stream_of_seek_to; eassumption); lia).
  cbn [bind].
  fold (seek_to h data (pos + 64 + 4 + 4 + 1 + 4) p).
  rewrite seek_to_seek_to.
  replace (pos + 64 + 4 + 4 + 1 + 4 + 1) with (pos + 78) by lia.
  f_equal; f_equal.
  unfold vars_of_record.
  assert (Hlen' : forall b m, 0 <= b -> 0 <= m -> b + m <= 78 ->
                   length (ztake m (zdrop (pos + b) data)) = Z.to_nat m).
  { intros b m Hb Hm Hbm.
    pose proof (len_ztake m (zdrop (pos + b) data)) as Hl.
    rewrite len_zdrop in Hl by lia. unfold len in *. lia. }
  rewrite !store_full;
    try match goal with
        | |- (length _ <= length (ztake ?n (zdrop ?q _)))%nat =>
            replace q with (pos + (q - pos)) by lia;
            rewrite (Hlen' (q - pos) n) by lia; lia
        end.
  rewrite !ztake_zdrop_ztake by lia.
  assert (H64 : ztake 64 (ztake 78 (zdrop pos data)) = ztake 64 (zdrop pos data)).
  { unfold ztake; rewrite firstn_firstn; f_equal. }
  rewrite H64.
  f_equal; f_equal; f_equal; f_equal; lia.
Qed.

Lemma strcmp_eq_spec (h : list Z) :
  forall slot : list Z,
    In 0 h -> In 0 slot ->
    (c_str slot = c_str h /\ strcmp_eq h (init_cells slot) = Some true)
    \/ (c_str slot <> c_str h /\ strcmp_eq h (init_cells slot) = Some false).
Proof.
  induction h as [|hc h IH]; intros [|nc slot] Hh Hs; try contradiction.
  cbn [strcmp_eq init_cells map c_str].
  destruct (hc =? nc) eqn:E; [apply Z.eqb_eq in E; subst nc | apply Z.eqb_neq in E].
  - destruct (hc =? 0) eqn:E0; [left; auto|].
    apply Z.eqb_neq in E0.
    destruct Hh as [Hh|Hh]; [congruence|]. destruct Hs as [Hs|Hs]; [congruence|].
    destruct (IH slot Hh Hs) as [[Hc Hr]|[Hc Hr]]; [left | right];
      (split; [congruence | exact Hr]).
  - right; split; [|reflexivity].
    destruct (nc =? 0) eqn:En; destruct (hc =? 0) eqn:Eh;
      try apply Z.eqb_eq in En; try apply Z.eqb_eq in Eh; congruence.
Qed.

Lemma in_cstring (s : string) : In 0 (cstring s).
Proof. unfold cstring; apply in_or_app; right; now left. Qed.

Lemma len_record_at (data : list Z) (i : Z) :
  0 <= i -> 3 + i * YEP_HEADER_SIZE_BYTES + YEP_HEADER_SIZE_BYTES <= len data ->
  len (record_at data i) = 78.
Proof.
  unfold record_at, YEP_HEADER_SIZE_BYTES; intros.
  rewrite len_ztake; [reflexivity | rewrite len_zdrop; lia].
Qed.

Lemma vars_of_record_shape (r : list Z) : len r = 78 -> vars_shape (vars_of_record r).
Proof.
  intros Hr; unfold vars_shape, vars_of_record, init_cells.
  cbn [hv_name hv_offset hv_size hv_compression_type hv_uncompressed_size hv_data_type].
  rewrite !length_map.
  assert (Hp : forall b m, 0 <= b -> 0 <= m -> b + m <= 78 ->
                length (ztake m (zdrop b r)) = Z.to_nat m).
  { intros b m Hb Hm Hbm; pose proof (len_ztake m (zdrop b r)) as Hl.
    rewrite len_zdrop in Hl by lia; unfold len in *; lia. }
  pose proof (Hp 0 64 ltac:(lia) ltac:(lia) ltac:(lia)) as H0; rewrite zdrop_0 in H0.
  rewrite H0, !Hp by lia; repeat split.
Qed.

(** The scan of records [scanned], [scanned + 1], ... when none of the
    [remaining] ones carries the requested name. *)
Lemma seek_loop_none (handle : string) (h : nat) (data : list Z) :
  forall (remaining : nat) (scanned : Z) (v : header_vars) (p : process),
    yep_file p = Some h ->
    stream_of h (streams p)
      = Some {| r_data := data; r_pos := 3 + scanned * YEP_HEADER_SIZE_BYTES |} ->
    0 <= scanned ->
    3 + (scanned + Z.of_nat remaining) * YEP_HEADER_SIZE_BYTES <= len data ->
    vars_shape v ->
    names_terminated data (scanned + Z.of_nat remaining) ->
    (forall i, scanned <= i < scanned + Z.of_nat remaining ->
               ~ entry_matches handle data i) ->
    exists v',
      seek_loop handle remaining scanned v p
      = Ret (false, scanned + Z.of_nat remaining, v',
             seek_to h data
               (3 + (scanned + Z.of_nat remaining) * YEP_HEADER_SIZE_BYTES) p).
Proof.
  unfold YEP_HEADER_SIZE_BYTES.
  induction remaining as [|remaining IH]; intros scanned v p Hfile Hs Hsc Hlen Hv Hterm Hnone.
  - exists v; cbn [seek_loop]; rewrite Z.add_0_r, seek_to_same by assumption.
    reflexivity.
  - cbn [seek_loop].
    rewrite (read_header_at h data (3 + scanned * 78) v p) by (assumption || lia).
    cbn [bind].
    change (ztake 78 (zdrop (3 + scanned * 78) data)) with (record_at data scanned).
    change (hv_name (vars_of_record (record_at data scanned)))
      with (init_cells (rec_name (record_at data scanned))).
    destruct (strcmp_eq_spec (cstring handle) (rec_name (record_at data scanned))
                (in_cstring handle) (Hterm scanned ltac:(lia)))
      as [[Hc _]|[_ Hr]].
    { exfalso; apply (Hnone scanned); [lia | exact Hc]. }
    rewrite Hr.
    destruct (IH (scanned + 1) (vars_of_record (record_at data scanned))
                (seek_to h data (3 + scanned * 78 + 78) p)) as [v' Hloop].
    + exact Hfile.
    + replace (3 + (scanned + 1) * 78) with (3 + scanned * 78 + 78) by lia.
      eapply stream_of_seek_to; eassumption.
    + lia.
    + lia.
    + apply vars_of_record_shape, len_record_at; unfold YEP_HEADER_SIZE_BYTES; lia.
    + intros i Hi; apply Hterm; lia.
    + intros i Hi; apply Hnone; lia.
    + exists v'; rewrite Hloop, seek_to_seek_to.
      now replace (scanned + 1 + Z.of_nat remaining)
        with (scanned + Z.of_nat (S remaining)) by lia.
Qed.

(** The scan stops at the first record that carries the requested name. *)
Lemma seek_loop_first (handle : string) (h : nat) (data : list Z) (i : Z) :
  forall (remaining : nat) (scanned : Z) (v : header_vars) (p : process),
    yep_file p = Some h ->
    stream_of h (streams p)
      = Some {| r_data := data; r_pos := 3 + scanned * YEP_HEADER_SIZE_BYTES |} ->
    0 <= scanned ->
    3 + (scanned + Z.of_nat remaining) * YEP_HEADER_SIZE_BYTES <= len data ->
    vars_shape v ->
    names_terminated data (scanned + Z.of_nat remaining) ->
    scanned <= i < scanned + Z.of_nat remaining ->
    entry_matches handle data i ->
    (forall j, scanned <= j < i -> ~ entry_matches handle data j) ->
    seek_loop handle remaining scanned v p
    = Ret (true, i + 1, vars_of_record (record_at data i),
           seek_to h data (3 + (i + 1) * YEP_HEADER_SIZE_BYTES) p).
Proof.
  unfold YEP_HEADER_SIZE_BYTES.
  induction remaining as [|remaining IH];
    intros scanned v p Hfile Hs Hsc Hlen Hv Hterm Hi Hmatch Hfirst; [lia|].
  cbn [seek_loop].
  rewrite (read_header_at h data (3 + scanned * 78) v p) by (assumption || lia).
  cbn [bind].
  change (ztake 78 (zdrop (3 + scanned * 78) data)) with (record_at data scanned).
  change (hv_name (vars_of_record (record_at data scanned)))
    with (init_cells (rec_name (record_at data scanned))).
  destruct (strcmp_eq_spec (cstring handle) (rec_name (record_at data scanned))
              (in_cstring handle) (Hterm scanned ltac:(lia)))
    as [[Hc Hr]|[Hc Hr]]; rewrite Hr.
  - (* the current record matches: it is record [i] *)
    assert (i = scanned).
    { destruct (Z.eq_dec i scanned) as [|Hne]; [assumption|].
      exfalso; apply (Hfirst scanned); [lia | exact Hc]. }
    subst i; now replace (3 + scanned * 78 + 78) with (3 + (scanned + 1) * 78) by lia.
  - assert (i <> scanned) by (intros ->; apply Hc, Hmatch).
    rewrite (IH (scanned + 1) (vars_of_record (record_at data scanned))
               (seek_to h data (3 + scanned * 78 + 78) p)).
    + now rewrite seek_to_seek_to.
    + exact Hfile.
    + replace (3 + (scanned + 1) * 78) with (3 + scanned * 78 + 78) by lia.
      eapply stream_of_seek_to; eassumption.
    + lia.
    + lia.
    + apply vars_of_record_shape, len_record_at; unfold YEP_HEADER_SIZE_BYTES; lia.
    + intros j Hj; apply Hterm; lia.
    + lia.
    + exact Hmatch.
    + intros j Hj; apply Hfirst; lia.
Qed.

Lemma fresh_vars_shape : vars_shape fresh_vars.
Proof. repeat split. Qed.

(** [_yep_seek_header] on an open stream whose header table is complete. *)
Lemma seek_header_none (handle : string) (p : process) (h : nat) (data : list Z)
    (pos : Z) :
  yep_file p = Some h ->
  stream_of h (streams p) = Some {| r_data := data; r_pos := pos |} ->
  0 <= file_entry_count p ->
  3 + file_entry_count p * YEP_HEADER_SIZE_BYTES <= len data ->
  names_terminated data (file_entry_count p) ->
  (forall i, 0 <= i < file_entry_count p -> ~ entry_matches handle data i) ->
  exists v',
    _yep_seek_header handle fresh_vars p
    = Ret (false, file_entry_count p, v',
           seek_to h data (3 + file_entry_count p * YEP_HEADER_SIZE_BYTES) p).
Proof.
  intros Hfile Hs Hcount Hlen Hterm Hnone.
  assert (Hseek : fseek (yep_file p) 3 p = Ret (seek_to h data 3 p))
    by (rewrite Hfile; eapply fseek_at; eassumption).
  assert (Hs3 : stream_of h (streams (seek_to h data 3 p))
                = Some {| r_data := data; r_pos := 3 + 0 * YEP_HEADER_SIZE_BYTES |})
    by (eapply stream_of_seek_to; eassumption).
  destruct (seek_loop_none handle h data (Z.to_nat (file_entry_count p)) 0
              fresh_vars (seek_to h data 3 p)) as [v' Hloop];
    try assumption; try lia; try apply fresh_vars_shape;
    rewrite ?Z2Nat.id, ?Z.add_0_l by lia; try assumption.
  rewrite Z2Nat.id, Z.add_0_l, seek_to_seek_to in Hloop by lia.
  exists v'; unfold _yep_seek_header; rewrite Hseek; cbn [bind]; exact Hloop.
Qed.

Lemma seek_header_first (handle : string) (p : process) (h : nat) (data : list Z)
    (pos i : Z) :
  yep_file p = Some h ->
  stream_of h (streams p) = Some {| r_data := data; r_pos := pos |} ->
  3 + file_entry_count p * YEP_HEADER_SIZE_BYTES <= len data ->
  names_terminated data (file_entry_count p) ->
  0 <= i < file_entry_count p ->
  entry_matches handle data i ->
  (forall j, 0 <= j < i -> ~ entry_matches handle data j) ->
  _yep_seek_header handle fresh_vars p
  = Ret (true, i + 1, vars_of_record (record_at data i),
         seek_to h data (3 + (i + 1) * YEP_HEADER_SIZE_BYTES) p).
Proof.
  intros Hfile Hs Hlen Hterm Hi Hmatch Hfirst.
  assert (Hseek : fseek (yep_file p) 3 p = Ret (seek_to h data 3 p))
    by (rewrite Hfile; eapply fseek_at; eassumption).
  assert (Hs3 : stream_of h (streams (seek_to h data 3 p))
                = Some {| r_data := data; r_pos := 3 + 0 * YEP_HEADER_SIZE_BYTES |})
    by (eapply stream_of_seek_to; eassumption).
  unfold _yep_seek_header; rewrite Hseek; cbn [bind].
  change (file_entry_count (seek_to h data 3 p)) with (file_entry_count p).
  rewrite (seek_loop_first handle h data i (Z.to_nat (file_entry_count p)) 0
             fresh_vars (seek_to h data 3 p));
    try assumption; try lia; try apply fresh_vars_shape;
    rewrite ?Z2Nat.id, ?Z.add_0_l by lia; try assumption.
  now rewrite seek_to_seek_to.
Qed.

(** C7. On an open archive whose header table is complete and whose
    names are terminated, a request for a name that no record carries
    makes [_yep_seek_header] read all [file_entry_count] records in
    storage order and report failure, and [yep_extract_data] return the
    null pointer with the archive still open and the cache untouched;
    when some record carries the name, the scan stops right after the
    first such record in storage order. *)
Theorem not_found_after_full_scan `{YepHeader} `{Zlib}
    (disk : string -> option (list Z)) (file handle : string) (p : process)
    (h : nat) (data : list Z) (pos : Z) :
  yep_file_path p = PathLive file ->
  yep_file p = Some h ->
  stream_of h (streams p) = Some {| r_data := data; r_pos := pos |} ->
  0 <= file_entry_count p ->
  3 + file_entry_count p * YEP_HEADER_SIZE_BYTES <= len data ->
  names_terminated data (file_entry_count p) ->
  let count := file_entry_count p in
  ((forall i, 0 <= i < count -> ~ entry_matches handle data i) ->
   (exists v',
      _yep_seek_header handle fresh_vars p
      = Ret (false, count, v',
             seek_to h data (3 + count * YEP_HEADER_SIZE_BYTES) p))
   /\ yep_extract_data disk file handle p
      = Ret (None, seek_to h data (3 + count * YEP_HEADER_SIZE_BYTES) p))
  /\ (forall i, 0 <= i < count ->
        entry_matches handle data i ->
        (forall j, 0 <= j < i -> ~ entry_matches handle data j) ->
        _yep_seek_header handle fresh_vars p
        = Ret (true, i + 1, vars_of_record (record_at data i),
               seek_to h data (3 + (i + 1) * YEP_HEADER_SIZE_BYTES) p)).
Proof.
  intros Hpath Hfile Hs Hcount Hlen Hterm count; subst count.
  split.
  - intros Hnone.
    destruct (seek_header_none handle p h data pos Hfile Hs Hcount Hlen Hterm Hnone)
      as [v' Hhdr].
    split; [eauto|].
    unfold yep_extract_data, _yep_open_file.
    rewrite Hpath, String.eqb_refl; cbn [bind negb].
    rewrite Hhdr; reflexivity.
  - intros i Hi Hmatch Hfirst; eapply seek_header_first; eassumption.
Qed.

Lemma in_zero_by_search (l : list Z) : existsb (Z.eqb 0) l = true -> In 0 l.
Proof.
  intros Hx; apply existsb_exists in Hx as (x & Hin & Hx).
  apply Z.eqb_eq in Hx; now subst x.
Qed.

Lemma not_found_after_full_scan_witness :
  @yep_extract_data header_v1 stored_zlib sample_disk "out.yep" "nope" sample_process
  = Ret (None, seek_to 0 sample_archive 237 sample_process)
  /\ @_yep_seek_header "a.txt" fresh_vars sample_process
     = Ret (true, 3, vars_of_record (record_at sample_archive 2),
            seek_to 0 sample_archive 237 sample_process).
Proof.
  pose proof (@not_found_after_full_scan header_v1 stored_zlib sample_disk
                "out.yep" "nope" sample_process 0%nat sample_archive 3) as Hnope.
  pose proof (@not_found_after_full_scan header_v1 stored_zlib sample_disk
                "out.yep" "a.txt" sample_process 0%nat sample_archive 3) as Hfound.
  assert (Hterm : names_terminated sample_archive (file_entry_count sample_process)).
  { intros i Hi; change (file_entry_count sample_process) with 3 in Hi.
    assert (Hcases : i = 0 \/ i = 1 \/ i = 2) by lia.
    destruct Hcases as [->|[->| ->]]; apply in_zero_by_search; by_computation. }
  split.
  - apply Hnope; try by_computation; try exact Hterm.
    intros i Hi; change (file_entry_count sample_process) with 3 in Hi.
    assert (Hcases : i = 0 \/ i = 1 \/ i = 2) by lia.
    destruct Hcases as [->|[->| ->]]; by_computation.
  - apply (proj2 (Hfound ltac:(by_computation) ltac:(by_computation)
                    ltac:(by_computation) ltac:(by_computation)
                    ltac:(by_computation) Hterm) 2);
      [split; by_computation | by_computation | ].
    intros j Hj.
    assert (Hcases : j = 0 \/ j = 1) by lia.
    destruct Hcases as [->| ->]; by_computation.
Defined.

(** ** The open-archive cache *)

Lemma open_reuse `{YepHeader} (disk : string -> option (list Z)) (file : string)
    (p : process) :
  yep_file_path p = PathLive file -> _yep_open_file disk file p = Ret (true, p).
Proof. intros Hp; unfold _yep_open_file; now rewrite Hp, String.eqb_refl. Qed.

(** A successful open leaves the path of the archive in the cache. *)
Lemma open_success_path `{YepHeader} (disk : string -> option (list Z))
    (file : string) (p p' : process) :
  _yep_open_file disk file p = Ret (true, p') -> yep_file_path p' = PathLive file.
Proof.
  unfold _yep_open_file.
  destruct (yep_file_path p) as [|s|] eqn:Hp; cbn [bind]; try discriminate.
  - destruct (disk file) as [data|]; [|discriminate].
    unfold fread; cbn; rewrite Nat.eqb_refl; cbn; rewrite Nat.eqb_refl; cbn.
    destruct (negb _); intros [= <-]; reflexivity.
  - destruct (String.eqb s file) eqn:E.
    + apply String.eqb_eq in E; subst s; intros [= <-]; assumption.
    + destruct (disk file) as [data|]; [|discriminate].
      unfold fread; cbn; rewrite Nat.eqb_refl; cbn; rewrite Nat.eqb_refl; cbn.
      destruct (negb _); intros [= <-]; reflexivity.
Qed.

(** Opening a file the cache does not hold: a new stream is opened, the
    three header bytes are read, and the result is the version check. *)
Lemma open_new `{YepHeader} (disk : string -> option (list Z)) (file : string)
    (data : list Z) (p : process) :
  not_cached file p ->
  disk file = Some data ->
  _yep_open_file disk file p
  = Ret (file_version_number (opened_state file data p) =? YEP_CURRENT_FORMAT_VERSION,
         opened_state file data p).
Proof.
  intros Hnc Hdisk; unfold _yep_open_file.
  assert (Hreuse : match yep_file_path p with
                   | PathNull => Ret false
                   | PathLive s => Ret (String.eqb s file)
                   | PathFreed => Undef
                   end = Ret false).
  { destruct Hnc as [-> | (s & -> & Hs)]; [reflexivity|].
    apply String.eqb_neq in Hs; now rewrite Hs. }
  rewrite Hreuse, Hdisk; cbn [bind].
  unfold fread; cbn [yep_file streams stream_of]; rewrite Nat.eqb_refl.
  cbn [bind r_data r_pos set_streams set_stream streams yep_file yep_file_path
         file_entry_count file_version_number next_stream stream_of].
  rewrite Nat.eqb_refl.
  cbn [bind r_data r_pos set_streams set_stream streams yep_file yep_file_path
         file_entry_count file_version_number next_stream stream_of].
  rewrite Nat.eqb_refl.
  cbn [bind r_data r_pos set_streams set_stream streams yep_file yep_file_path
         file_entry_count file_version_number next_stream stream_of].
  unfold opened_state; cbn [file_version_number].
  now destruct (_ =? YEP_CURRENT_FORMAT_VERSION).
Qed.

(** C10. Once path [a] is cached, a failed attempt to open a different,
    missing file [b] keeps the cached path [a] but replaces the stream
    by the null pointer; the next open of [a] succeeds through the
    same-path check without opening anything, so the cache names [a]
    while holding no stream, and an extraction from [a] then works on
    the null stream. *)
Theorem failed_open_leaves_stale_path `{YepHeader} `{Zlib}
    (disk : string -> option (list Z)) (a b handle : string) (p0 p1 : process) :
  a <> b ->
  disk b = None ->
  _yep_open_file disk a p0 = Ret (true, p1) ->
  exists p2,
    _yep_open_file disk b p1 = Ret (false, p2)
    /\ yep_file_path p2 = PathLive a
    /\ yep_file p2 = None
    /\ streams p2 = streams p1
    /\ _yep_open_file disk a p2 = Ret (true, p2)
    /\ yep_extract_data disk a handle p2 = Undef.
Proof.
  intros Hab Hb Hopen.
  pose proof (open_success_path _ _ _ _ Hopen) as Hpath.
  eexists; split.
  - unfold _yep_open_file; rewrite Hpath; cbn [bind].
    apply String.eqb_neq in Hab; rewrite Hab, Hb; reflexivity.
  - cbn [yep_file_path yep_file streams].
    repeat split; try assumption.
    + apply open_reuse; reflexivity.
    + unfold yep_extract_data; rewrite open_reuse by reflexivity.
      reflexivity.
Qed.

Lemma failed_open_leaves_stale_path_witness :
  exists p2,
    @_yep_open_file header_v1 sample_disk "missing.yep" sample_process = Ret (false, p2)
    /\ yep_file_path p2 = PathLive "out.yep"
    /\ yep_file p2 = None
    /\ @_yep_open_file header_v1 sample_disk "out.yep" p2 = Ret (true, p2)
    /\ @yep_extract_data header_v1 stored_zlib sample_disk "out.yep" "a.txt" p2 = Undef.
Proof.
  destruct (@failed_open_leaves_stale_path header_v1 stored_zlib sample_disk
              "out.yep" "missing.yep" "a.txt" initial_process sample_process)
    as (p2 & H1 & H2 & H3 & _ & H5 & H6).
  - intro; discriminate.
  - reflexivity.
  - by_computation.
  - exists p2; auto.
Defined.

(** C3, as the code behaves. Opening from the initial state an archive
    whose version byte is not the supported one reports failure, yet
    the stream stays open and the path, the version and the entry count
    stay in the cache; a second open of the same path then succeeds by
    the same-path check. The claim that no state is retained does not
    hold of the code. *)
Theorem version_mismatch_keeps_state `{YepHeader}
    (disk : string -> option (list Z)) (file : string) (v lo hi : Z)
    (rest : list Z) :
  disk file = Some (v :: lo :: hi :: rest) ->
  v <> YEP_CURRENT_FORMAT_VERSION ->
  exists p',
    _yep_open_file disk file initial_process = Ret (false, p')
    /\ yep_file p' = Some 0%nat
    /\ (exists pos, stream_of 0 (streams p')
                    = Some {| r_data := v :: lo :: hi :: rest; r_pos := pos |})
    /\ yep_file_path p' = PathLive file
    /\ file_version_number p' = v
    /\ file_entry_count p' = lo + 256 * hi
    /\ _yep_open_file disk file p' = Ret (true, p').
Proof.
  intros Hdisk Hv.
  exists (opened_state file (v :: lo :: hi :: rest) initial_process).
  assert (Ev : file_version_number
                 (opened_state file (v :: lo :: hi :: rest) initial_process) = v).
  { unfold opened_state, store_int; cbn [file_version_number initial_process].
    change (ztake 1 (zdrop 0 (v :: lo :: hi :: rest))) with [v].
    cbn [length skipn le_bytes app le_value].
    change (0 / 256 mod 256) with 0; lia. }
  assert (Ec : file_entry_count
                 (opened_state file (v :: lo :: hi :: rest) initial_process)
               = lo + 256 * hi).
  { unfold opened_state, store_int; cbn [file_entry_count initial_process].
    change (ztake 2 (zdrop (0 + len (ztake 1 (zdrop 0 (v :: lo :: hi :: rest))))
                       (v :: lo :: hi :: rest))) with [lo; hi].
    cbn [length skipn le_bytes app le_value]; lia. }
  split.
  { rewrite (open_new disk file (v :: lo :: hi :: rest)) by (auto; now left).
    rewrite Ev; apply Z.eqb_neq in Hv; now rewrite Hv. }
  split; [reflexivity|].
  split; [eexists; cbn; reflexivity|].
  split; [reflexivity|].
  split; [exact Ev|].
  split; [exact Ec|].
  apply open_reuse; reflexivity.
Qed.

Lemma version_mismatch_keeps_state_witness :
  exists p',
    @_yep_open_file header_v1 (disk_with "bad.yep" [2; 0; 0]) "bad.yep" initial_process
    = Ret (false, p')
    /\ yep_file p' = Some 0%nat
    /\ yep_file_path p' = PathLive "bad.yep"
    /\ file_version_number p' = 2
    /\ @_yep_open_file header_v1 (disk_with "bad.yep" [2; 0; 0]) "bad.yep" p'
       = Ret (true, p').
Proof.
  destruct (@version_mismatch_keeps_state header_v1 (disk_with "bad.yep" [2; 0; 0])
              "bad.yep" 2 0 0 [])
    as (p' & H1 & H2 & _ & H4 & H5 & _ & H7).
  - reflexivity.
  - by_computation.
  - exists p'; auto.
Defined.

(** C4, as the code behaves. Opening a second archive after a first one
    overwrites [yep_file] without closing the first stream: both streams
    are open afterwards. The claim that the previous handle is closed
    does not hold of the code. *)
Theorem second_open_keeps_first_stream `{YepHeader}
    (disk : string -> option (list Z)) (a b : string) (da db : list Z) :
  a <> b ->
  disk a = Some da ->
  disk b = Some db ->
  exists ok1 p1 ok2 p2,
    _yep_open_file disk a initial_process = Ret (ok1, p1)
    /\ yep_file p1 = Some 0%nat
    /\ _yep_open_file disk b p1 = Ret (ok2, p2)
    /\ yep_file p2 = Some 1%nat
    /\ (exists pos, stream_of 0 (streams p2) = Some {| r_data := da; r_pos := pos |})
    /\ (exists pos, stream_of 1 (streams p2) = Some {| r_data := db; r_pos := pos |})
    /\ length (streams p2) = 2%nat.
Proof.
  intros Hab Ha Hb.
  set (p1 := opened_state a da initial_process).
  set (p2 := opened_state b db p1).
  exists (file_version_number p1 =? YEP_CURRENT_FORMAT_VERSION), p1,
         (file_version_number p2 =? YEP_CURRENT_FORMAT_VERSION), p2.
  split; [apply open_new; [now left | assumption]|].
  split; [reflexivity|].
  split; [apply open_new; [right; exists a; split; [reflexivity | assumption] | assumption]|].
  split; [reflexivity|].
  split; [eexists; cbn; reflexivity|].
  split; [eexists; cbn; reflexivity|].
  reflexivity.
Qed.

Lemma second_open_keeps_first_stream_witness :
  exists p1 p2,
    @_yep_open_file header_v1
      (fun q => if String.eqb q "a.yep" then Some [1; 0; 0]
                else if String.eqb q "b.yep" then Some [1; 0; 0] else None)
      "a.yep" initial_process = Ret (true, p1)
    /\ @_yep_open_file header_v1
         (fun q => if String.eqb q "a.yep" then Some [1; 0; 0]
                   else if String.eqb q "b.yep" then Some [1; 0; 0] else None)
         "b.yep" p1 = Ret (true, p2)
    /\ length (streams p2) = 2%nat.
Proof.
  destruct (@second_open_keeps_first_stream header_v1
              (fun q => if String.eqb q "a.yep" then Some [1; 0; 0]
                        else if String.eqb q "b.yep" then Some [1; 0; 0] else None)
              "a.yep" "b.yep" [1; 0; 0] [1; 0; 0])
    as (ok1 & p1 & ok2 & p2 & H1 & _ & H3 & _ & _ & _ & H7).
  - intro; discriminate.
  - reflexivity.
  - reflexivity.
  - exists p1, p2.
    assert (E1 : ok1 = true).
    { vm_compute in H1. now injection H1 as <- _. }
    subst ok1. injection H1 as <-.
    assert (E2 : ok2 = true).
    { vm_compute in H3. now injection H3 as <- _. }
    subst ok2. auto.
Defined.

(** ** Name-length enforcement *)

(** C6. Of the regular files the walker meets, those whose relative
    path with its terminator exceeds 64 bytes are left out of the pack
    list and the walk goes on: the list consists of exactly the files
    that fit, most recent first. The records of the archive written
    from that list are the records of fitting files only. *)
Theorem name_length_enforcement `{YepHeader} `{Zlib} (tree : fsnode)
    (creatable : string -> bool) (root output_name : string)
    (es : list packed_entry) :
  let files := encountered root tree in
  let pl' := _ye_walk_directory root root tree empty_pack_list in
  head pl' = rev (map (node_of root) (filter (fits root) files))
  /\ entry_count pl' = len (filter (fits root) files)
  /\ (forall file, In file files ->
        64 < strlen (relative_to root (fst file)) + 1 ->
        ~ In (fst file) (map fullpath (head pl')))
  /\ (forall file, In file files ->
        strlen (relative_to root (fst file)) + 1 <= 64 ->
        In (node_of root file) (head pl'))
  /\ (creatable output_name = true ->
      packed_as root tree (head pl') es ->
      in_range (entry_count pl') es ->
      exists archive,
        yep_pack_directory tree creatable empty_pack_list root output_name
        = Ret {| pr_ret := true; pr_list := pl'; pr_file := Some archive |}
        /\ forall i, 0 <= i < entry_count pl' ->
             exists file,
               In file files /\ fits root file = true
               /\ rec_name (record_at archive i) = name (node_of root file)).
Proof.
  intros files pl'.
  destruct (fold_accept root files empty_pack_list) as [Hh Hc].
  assert (Hhead : head pl' = rev (map (node_of root) (filter (fits root) files))).
  { unfold pl'; rewrite walk_fold; fold files; rewrite Hh; apply app_nil_r. }
  assert (Hcount : entry_count pl' = len (filter (fits root) files)).
  { unfold pl'; rewrite walk_fold; fold files; rewrite Hc; reflexivity. }
  assert (Hnode : forall n, In n (head pl') ->
            exists file, In file files /\ fits root file = true /\ n = node_of root file).
  { intros n Hn; rewrite Hhead in Hn; apply in_rev, in_map_iff in Hn.
    destruct Hn as (file & <- & Hf); apply filter_In in Hf as [Hin Hfit]; eauto. }
  split; [assumption|]. split; [assumption|]. split; [|split].
  - intros file Hin Hlong Hmem.
    apply in_map_iff in Hmem as (n & Hpath & Hn).
    destruct (Hnode n Hn) as (file' & _ & Hfit & ->).
    unfold node_of, new_node in Hpath; cbn [fullpath] in Hpath.
    unfold fits in Hfit; rewrite Hpath in Hfit.
    apply negb_true_iff, Z.ltb_ge in Hfit; lia.
  - intros file Hin Hshort; rewrite Hhead; apply in_rev; rewrite rev_involutive.
    apply in_map, filter_In; split; [assumption|].
    unfold fits; apply negb_true_iff, Z.ltb_ge; lia.
  - intros Hcre Hes Hrange.
    exists (archive_of (head pl') es); split.
    { apply yep_pack_directory_layout; try assumption.
      split; [constructor | reflexivity]. }
    assert (Hpl : pack_list_ok pl').
    { apply walk_pack_list_ok; split; [constructor | reflexivity]. }
    destruct Hpl as [Hnodes Hcount'].
    intros i Hi; rewrite Hcount' in Hi.
    destruct (nth_error_index (head pl') i Hi) as [n Hn].
    destruct (Forall2_nth_error _ _ _ (packed_as_each _ _ _ _ Hes) _ _ Hn)
      as (e & He & _).
    destruct (Hnode n (nth_error_In _ _ Hn)) as (file & Hin & Hfit & ->).
    exists file; split; [assumption|]; split; [assumption|].
    replace i with (Z.of_nat (Z.to_nat i)) by lia.
    rewrite (archive_record _ _ _ _ e Hnodes Hn He).
    pose proof (node_of_ok root file Hfit) as Hok.
    destruct (final_record_fields (node_of root file)
                (3 + len (head pl') * YEP_HEADER_SIZE_BYTES
                 + payload_total (firstn (Z.to_nat i) es)) e Hok) as (Hname & _).
    rewrite Hname; apply ztake_all; unfold node_ok in Hok; lia.
Qed.

Lemma name_length_enforcement_witness :
  ~ In ("res/" ++ name64)%string (map fullpath (head long_list))
  /\ In (node_of "res" (("res/" ++ name63)%string, [2])) (head long_list)
  /\ In (node_of "res" ("res/ok.txt", [3])) (head long_list)
  /\ entry_count long_list = 2
  /\ exists archive,
       @yep_pack_directory header_v1 stored_zlib long_tree always empty_pack_list
         "res" "out.yep"
       = Ret {| pr_ret := true; pr_list := long_list; pr_file := Some archive |}.
Proof.
  destruct (@name_length_enforcement header_v1 stored_zlib long_tree always
              "res" "out.yep" long_entries) as (_ & Hcount & Hout & Hin & Harchive).
  split.
  { apply (Hout (("res/" ++ name64)%string, [1])); [left; reflexivity | by_computation]. }
  split.
  { apply (Hin (("res/" ++ name63)%string, [2]));
      [right; left; reflexivity | by_computation]. }
  split.
  { apply (Hin ("res/ok.txt", [3])); [right; right; left; reflexivity | by_computation]. }
  split; [exact Hcount|].
  destruct Harchive as (archive & Hpack & _).
  - reflexivity.
  - by_computation.
  - in_range_by_computation.
  - exists archive; exact Hpack.
Defined.

(** ** Paths *)

Lemma append_assoc (a b c : string) : ((a ++ b) ++ c = a ++ (b ++ c))%string.
Proof. induction a as [|x a IH]; simpl; [reflexivity | now rewrite IH]. Qed.

Lemma string_drop_append (a b : string) : string_drop (String.length a) (a ++ b) = b.
Proof. induction a as [|x a IH]; [now destruct b | exact IH]. Qed.

Lemma length_append (a b : string) :
  String.length (a ++ b) = (String.length a + String.length b)%nat.
Proof. induction a as [|x a IH]; simpl; [reflexivity | now rewrite IH]. Qed.

Lemma relative_to_root (root rel : string) :
  relative_to root (root ++ "/" ++ rel) = rel.
Proof.
  unfold relative_to.
  change (root ++ "/" ++ rel)%string with (root ++ String "/" rel)%string.
  replace (root ++ String "/" rel)%string with ((root ++ "/") ++ rel)%string
    by (now rewrite append_assoc).
  replace (String.length root + 1)%nat with (String.length (root ++ "/"))
    by (rewrite length_append; reflexivity).
  apply string_drop_append.
Qed.

Lemma prefix_append (a b : string) : String.prefix a (a ++ b) = true.
Proof.
  induction a as [|x a IH]; [now destruct b|].
  simpl; destruct (ascii_dec x x); [exact IH | congruence].
Qed.

Lemma string_forallb_append (f : ascii -> bool) (a b : string) :
  string_forallb f (a ++ b) = string_forallb f a && string_forallb f b.
Proof. induction a as [|x a IH]; simpl; [reflexivity | now rewrite IH, andb_assoc]. Qed.

Lemma components_plain (s : string) :
  string_forallb (fun c => negb (is_slash c)) s = true -> components s = [s].
Proof.
  induction s as [|c s IH]; [reflexivity|].
  cbn [string_forallb components]; intros H; apply andb_prop in H as [Hc Hs].
  unfold is_slash in Hc; apply negb_true_iff in Hc; rewrite Hc, (IH Hs); reflexivity.
Qed.

Lemma components_append (a b : string) :
  string_forallb (fun c => negb (is_slash c)) a = true ->
  components (a ++ "/" ++ b) = a :: components b.
Proof.
  induction a as [|c a IH]; [reflexivity|].
  cbn [string_forallb]; intros H; apply andb_prop in H as [Hc Ha].
  change ((String c a ++ "/" ++ b)%string) with (String c (a ++ "/" ++ b)).
  cbn [components].
  unfold is_slash in Hc; apply negb_true_iff in Hc; rewrite Hc, (IH Ha); reflexivity.
Qed.

Lemma valid_name_no_slash (s : string) :
  valid_name s = true -> string_forallb (fun c => negb (is_slash c)) s = true.
Proof.
  unfold valid_name; induction s as [|c s IH]; [reflexivity|].
  cbn [string_forallb]; intros H; apply andb_prop in H as [Hc Hs].
  apply andb_prop in Hc as [Hc _]; now rewrite Hc, (IH Hs).
Qed.

Lemma valid_name_no_nul (s : string) :
  valid_name s = true -> string_forallb (fun c => negb (is_nul c)) s = true.
Proof.
  unfold valid_name; induction s as [|c s IH]; [reflexivity|].
  cbn [string_forallb]; intros H; apply andb_prop in H as [Hc Hs].
  apply andb_prop in Hc as [_ Hc]; now rewrite Hc, (IH Hs).
Qed.

(** ** Looking files up *)

Lemma names_unique_find (es : list (string * fsnode)) (d_name : string) (n : fsnode) :
  names_unique (map fst es) = true -> In (d_name, n) es ->
  find_entry d_name es = Some n.
Proof.
  induction es as [|[d n0] es IH]; intros Hu Hin; [contradiction|].
  cbn [map fst names_unique] in Hu; apply andb_prop in Hu as [Hd Hu].
  cbn [find_entry]; destruct Hin as [Heq|Hin].
  - injection Heq as -> ->; now rewrite String.eqb_refl.
  - destruct (String.eqb d d_name) eqn:E; [|now apply IH].
    apply String.eqb_eq in E; subst d.
    apply negb_true_iff in Hd.
    assert (Hex : existsb (String.eqb d_name) (map fst es) = true).
    { apply existsb_exists; exists d_name; split; [|apply String.eqb_refl].
      apply in_map_iff; exists (d_name, n); auto. }
    congruence.
Qed.

Lemma wf_tree_entries (readable : bool) (es : list (string * fsnode)) :
  wf_tree (Directory readable es) = true ->
  names_unique (map fst es) = true
  /\ forall d_name n, In (d_name, n) es -> valid_name d_name = true /\ wf_tree n = true.
Proof.
  cbn [wf_tree]; intros H; apply andb_prop in H as [Hu Hall]; split; [assumption|].
  clear Hu; induction es as [|[d n0] es IH]; intros d_name n Hin; [contradiction|].
  apply andb_prop in Hall as [Hhd Hall]; apply andb_prop in Hhd as [Hv Hw].
  destruct Hin as [Heq|Hin]; [injection Heq as <- <-; auto | now apply IH].
Qed.

(** What it takes for a file to be met in a readable directory. *)
Lemma encountered_directory (dp : string) (es : list (string * fsnode))
    (full : string) (data : list Z) :
  In (full, data) (encountered dp (Directory true es)) ->
  exists d_name n,
    In (d_name, n) es
    /\ ((n = Reg data /\ full = (dp ++ "/" ++ d_name)%string)
        \/ In (full, data) (encountered (dp ++ "/" ++ d_name) n)).
Proof.
  cbn [encountered]; induction es as [|[d n0] es IH]; [contradiction|].
  intros Hin; apply in_app_or in Hin as [Hin|Hin].
  - exists d, n0; split; [now left|].
    destruct n0 as [data0|r es0| |]; try contradiction.
    + destruct Hin as [Heq|[]]; injection Heq as <- <-; auto.
    + destruct (negb (d =? ".")%string && negb (d =? "..")%string);
        [right; exact Hin | contradiction].
  - destruct (IH Hin) as (d_name & n & Hmem & Hcase).
    exists d_name, n; split; [now right | exact Hcase].
Qed.

(** Every file the walker meets is found again under its full path. *)
Lemma encountered_lookup (dir : fsnode) :
  forall (dp full : string) (data : list Z),
    wf_tree dir = true ->
    In (full, data) (encountered dp dir) ->
    exists rel,
      full = (dp ++ "/" ++ rel)%string
      /\ fs_lookup (components rel) dir = Some (Reg data)
      /\ string_forallb (fun c => negb (is_nul c)) rel = true.
Proof.
  induction dir as [data0|readable es IH| |] using fsnode_tree_ind;
    intros dp full data Hwf Hin; try contradiction.
  destruct readable; [|contradiction].
  destruct (wf_tree_entries _ _ Hwf) as [Hu Hentries].
  destruct (encountered_directory _ _ _ _ Hin) as (d_name & n & Hmem & Hcase).
  destruct (Hentries _ _ Hmem) as [Hv Hwn].
  pose proof (names_unique_find _ _ _ Hu Hmem) as Hfind.
  destruct Hcase as [[-> ->]|Hsub].
  - exists d_name; split; [reflexivity|]; split; [|now apply valid_name_no_nul].
    rewrite components_plain by now apply valid_name_no_slash.
    cbn [fs_lookup]; now rewrite Hfind.
  - rewrite Forall_forall in IH.
    destruct (IH (d_name, n) Hmem _ _ _ Hwn Hsub) as (rel & -> & Hl & Hnul).
    exists (d_name ++ "/" ++ rel)%string; split; [|split].
    + rewrite !append_assoc; reflexivity.
    + rewrite components_append by now apply valid_name_no_slash.
      cbn [fs_lookup]; now rewrite Hfind.
    + rewrite string_forallb_append, (valid_name_no_nul _ Hv); exact Hnul.
Qed.

Lemma encountered_fopen (root : string) (tree : fsnode) (full : string)
    (data : list Z) :
  wf_tree tree = true ->
  In (full, data) (encountered root tree) ->
  fs_fopen root tree full = Some data
  /\ string_forallb (fun c => negb (is_nul c)) (relative_to root full) = true.
Proof.
  intros Hwf Hin.
  destruct (encountered_lookup tree root full data Hwf Hin) as (rel & -> & Hl & Hnul).
  rewrite relative_to_root; split; [|exact Hnul].
  unfold fs_fopen.
  replace (root ++ "/" ++ rel)%string with ((root ++ "/") ++ rel)%string
    by (rewrite append_assoc; reflexivity).
  rewrite prefix_append.
  replace (String.length root + 1)%nat with (String.length (root ++ "/"))
    by (rewrite length_append; reflexivity).
  now rewrite string_drop_append, Hl.
Qed.

(** ** Packing succeeds *)

Lemma compress_bound_fits (n : Z) :
  256 < n -> compressBound n <= n + n / 10 + 12.
Proof.
  intros Hn; unfold compressBound.
  change (2 ^ 12) with 4096; change (2 ^ 14) with 16384; change (2 ^ 25) with 33554432.
  pose proof (Z.div_le_upper_bound n 4096 (n / 10 / 3) ltac:(lia)) as H1.
  assert (Hq : 25 <= n / 10) by (apply Z.div_le_lower_bound; lia).
  assert (H12 : n / 4096 <= n / 10 / 400).
  { rewrite Z.div_div by lia. apply Z.div_le_compat_l; lia. }
  assert (H14 : n / 16384 <= n / 10 / 400).
  { rewrite Z.div_div by lia. apply Z.div_le_compat_l; lia. }
  assert (H25 : n / 33554432 <= n / 10 / 400).
  { rewrite Z.div_div by lia. apply Z.div_le_compat_l; lia. }
  assert (Hsmall : 3 * (n / 10 / 400) + 1 <= n / 10).
  { pose proof (Z.mul_div_le (n / 10) 400 ltac:(lia)). lia. }
  lia.
Qed.

Lemma ztake_store_exact (written : list Z) (m : mem) :
  ztake (len written) (store written m) = init_cells written.
Proof.
  unfold store; apply ztake_app_len; unfold init_cells; apply len_map.
Qed.

(** With a zlib that keeps its promises, a file whose provisioned room
    is a 32-bit size is packed as expected. *)
Lemma pack_entry_expected `{YepHeader} `{z : Zlib} `{!ZlibLaws z} (root : string)
    (tree : fsnode) (n : yep_header_node) (content : list Z) :
  fs_fopen root tree (fullpath n) = Some content ->
  worst_case content < UINT32 ->
  pack_entry root tree n = Ret (expected_entry content)
  /\ len (stored_bytes content) <= worst_case content.
Proof.
  intros Hf Hw; unfold pack_entry; rewrite Hf.
  pose proof (len_nonneg content) as Hn0.
  assert (Hlen : len content < UINT32).
  { unfold worst_case in Hw; destruct (256 <? len content); [|assumption].
    pose proof (Z.div_pos (len content) 10 Hn0 ltac:(lia)); lia. }
  rewrite (get_file_size_small content Hlen).
  unfold read_file_data; rewrite (ztake_all (len content) content) by lia.
  unfold expected_entry, stored_bytes, worst_case in *.
  destruct (256 <? len content) eqn:E.
  - apply Z.ltb_lt in E.
    change (YEP_COMPRESSION_ZLIB mod UINT8 =? YEP_COMPRESSION_ZLIB) with true.
    cbv iota.
    unfold compress_data.
    rewrite deflateInit_ok; change (negb (Z_OK =? Z_OK)) with false; cbv iota.
    pose proof (Z.div_pos (len content) 10 Hn0 ltac:(lia)) as Hdiv.
    rewrite !Z.mod_small by (unfold UINT32 in *; lia).
    rewrite (ztake_all (len content) content) by lia.
    pose proof (deflate_bound content (len content + len content / 10 + 12)
                  (compress_bound_fits _ E)) as Hend.
    pose proof (deflate_fits content (len content + len content / 10 + 12)
                  ltac:(lia)) as Hfits.
    destruct (deflate_finish content (len content + len content / 10 + 12))
      as [res written] eqn:Hrun.
    cbn [fst snd] in *; subst res.
    change (negb (Z_STREAM_END =? Z_STREAM_END)) with false; cbv iota.
    cbn [cr_output cr_output_size].
    pose proof (len_nonneg written) as Hw0.
    rewrite Z.mod_small by (unfold UINT32 in *; lia).
    rewrite ztake_store_exact, load_init_cells.
    split; [reflexivity | assumption].
  - change (YEP_COMPRESSION_NONE mod UINT8 =? YEP_COMPRESSION_ZLIB) with false.
    cbv iota; split; [reflexivity | lia].
Qed.

(** ** Opening and reading an entry *)

Lemma three_bytes (data : list Z) :
  3 <= len data -> exists a0 a1 a2 rest, data = a0 :: a1 :: a2 :: rest.
Proof.
  intros H; destruct data as [|a0 [|a1 [|a2 rest]]];
    try (unfold len in H; simpl in H; lia); eauto.
Qed.

Lemma cache_ok_seek_to `{YepHeader} (disk : string -> option (list Z)) (p : process)
    (h : nat) (data : list Z) (pos pos' : Z) :
  cache_ok disk p ->
  yep_file p = Some h ->
  stream_of h (streams p) = Some {| r_data := data; r_pos := pos |} ->
  cache_ok disk (seek_to h data pos' p).
Proof.
  intros [Hv Hc] Hfile Hs; split; [exact Hv|].
  cbn [seek_to set_streams yep_file_path].
  destruct (yep_file_path p) as [|s|]; try assumption.
  destruct Hc as (h' & data' & pos0 & Hfile' & Hs' & Hdisk & Hlen & Hver & Hcnt).
  rewrite Hfile in Hfile'; injection Hfile' as <-.
  rewrite Hs in Hs'; injection Hs' as <- <-.
  exists h, data, pos'; cbn [yep_file streams file_version_number file_entry_count].
  repeat split; try assumption.
  eapply stream_of_set_stream; eassumption.
Qed.

(** Opening an archive with an accepted header from a sound cache. *)
Lemma open_archive `{YepHeader} (disk : string -> option (list Z)) (file : string)
    (data : list Z) (p : process) :
  cache_ok disk p ->
  disk file = Some data ->
  3 <= len data ->
  le_value (ztake 1 data) = YEP_CURRENT_FORMAT_VERSION ->
  0 <= YEP_CURRENT_FORMAT_VERSION < 256 ->
  exists q h pos,
    _yep_open_file disk file p = Ret (true, q)
    /\ cache_ok disk q
    /\ yep_file_path q = PathLive file
    /\ yep_file q = Some h
    /\ stream_of h (streams q) = Some {| r_data := data; r_pos := pos |}
    /\ file_entry_count q = le_value (ztake 2 (zdrop 1 data)).
Proof.
  intros Hok Hdisk Hlen Hver Hrange.
  assert (Hnew : not_cached file p ->
            exists q h pos,
              _yep_open_file disk file p = Ret (true, q)
              /\ cache_ok disk q
              /\ yep_file_path q = PathLive file
              /\ yep_file q = Some h
              /\ stream_of h (streams q) = Some {| r_data := data; r_pos := pos |}
              /\ file_entry_count q = le_value (ztake 2 (zdrop 1 data))).
  { intros Hnc.
    destruct (three_bytes data Hlen) as (a0 & a1 & a2 & rest & ->).
    destruct Hok as [[Hv0 Hv1] _].
    assert (Ev : file_version_number (opened_state file (a0 :: a1 :: a2 :: rest) p)
                 = YEP_CURRENT_FORMAT_VERSION).
    { rewrite <- Hver; unfold opened_state, store_int; cbn [file_version_number].
      change (ztake 1 (zdrop 0 (a0 :: a1 :: a2 :: rest))) with [a0].
      change (ztake 1 (a0 :: a1 :: a2 :: rest)) with [a0].
      cbn [length skipn le_bytes app le_value].
      rewrite (Z.div_small (file_version_number p) 256) by lia.
      change (0 mod 256) with 0; lia. }
    assert (Ec : file_entry_count (opened_state file (a0 :: a1 :: a2 :: rest) p)
                 = le_value (ztake 2 (zdrop 1 (a0 :: a1 :: a2 :: rest)))).
    { unfold opened_state, store_int; cbn [file_entry_count].
      change (ztake 2 (zdrop (0 + len (ztake 1 (zdrop 0 (a0 :: a1 :: a2 :: rest))))
                         (a0 :: a1 :: a2 :: rest))) with [a1; a2].
      change (ztake 2 (zdrop 1 (a0 :: a1 :: a2 :: rest))) with [a1; a2].
      reflexivity. }
    exists (opened_state file (a0 :: a1 :: a2 :: rest) p), (next_stream p).
    eexists.
    split.
    { rewrite (open_new disk file (a0 :: a1 :: a2 :: rest)) by assumption.
      rewrite Ev, Z.eqb_refl; reflexivity. }
    split.
    { split; [rewrite Ev; exact Hrange|].
      cbn [opened_state yep_file_path].
      exists (next_stream p), (a0 :: a1 :: a2 :: rest).
      eexists; split; [reflexivity|]; split.
      { cbn [opened_state streams stream_of]; rewrite Nat.eqb_refl; reflexivity. }
      split; [assumption|]; split; [assumption|]; split; [|exact Ec].
      rewrite Ev; symmetry; exact Hver. }
    split; [reflexivity|]. split; [reflexivity|]. split; [|exact Ec].
    cbn [opened_state streams stream_of]; rewrite Nat.eqb_refl; reflexivity. }
  destruct (yep_file_path p) as [|s|] eqn:Hp.
  - apply Hnew; now left.
  - destruct (String.eqb_spec s file) as [->|Hne].
    + pose proof Hok as [Hv Hc]; rewrite Hp in Hc.
      destruct Hc as (h & data' & pos & Hfile & Hs & Hdisk' & _ & _ & Hcnt).
      rewrite Hdisk in Hdisk'; injection Hdisk' as <-.
      exists p, h, pos; split; [now apply open_reuse|]; auto.
    + apply Hnew; right; exists s; auto.
  - destruct Hok as [_ Hc]; rewrite Hp in Hc; contradiction.
Qed.

Lemma read_int_init (bs : list Z) : read_int (init_cells bs) = Ret (le_value bs).
Proof. unfold read_int; now rewrite load_init_cells. Qed.

Lemma store_into_malloc (bs : list Z) :
  store bs (malloc (len bs + 1)) = init_cells bs ++ [None].
Proof.
  unfold store, malloc; f_equal.
  replace (Z.to_nat (len bs + 1)) with (length bs + 1)%nat by (unfold len; lia).
  rewrite repeat_app, skipn_app, repeat_length, Nat.sub_diag.
  rewrite skipn_all2 by (rewrite repeat_length; lia).
  reflexivity.
Qed.

Lemma init_cells_app (a b : list Z) : init_cells (a ++ b) = init_cells a ++ init_cells b.
Proof. apply map_app. Qed.

Lemma len_init_cells (bs : list Z) : len (init_cells bs) = len bs.
Proof. apply len_map. Qed.

(** What [yep_extract_data] does once the header of the entry is found:
    the payload is read at the recorded offset; it is returned with a
    terminator when the record says NONE, and inflated when it says ZLIB. *)
Lemma extract_after_seek `{YepHeader} `{Zlib} (disk : string -> option (list Z))
    (file handle : string) (p q q' : process) (h : nat) (data : list Z)
    (pos scanned : Z) (r : list Z) :
  _yep_open_file disk file p = Ret (true, q) ->
  _yep_seek_header handle fresh_vars q = Ret (true, scanned, vars_of_record r, q') ->
  yep_file q' = Some h ->
  stream_of h (streams q') = Some {| r_data := data; r_pos := pos |} ->
  0 <= rec_offset r -> 0 <= rec_size r ->
  rec_offset r + rec_size r <= len data ->
  rec_size r + 1 < UINT32 ->
  let payload := ztake (rec_size r) (zdrop (rec_offset r) data) in
  let q'' := seek_to h data (rec_offset r + rec_size r) q' in
  yep_extract_data disk file handle p
  = if rec_compression_type r =? YEP_COMPRESSION_NONE
    then Ret (Some (init_cells (payload ++ [0])), q'')
    else if rec_compression_type r =? YEP_COMPRESSION_ZLIB
         then
           let res := decompress_data payload (rec_size r) (rec_uncompressed_size r) in
           if negb (dr_ret res =? 0) then Exit 1
           else match dr_output res with
                | Some decompressed_data => Ret (Some decompressed_data, q'')
                | None => Undef
                end
         else Ret (Some (init_cells payload ++ [None]), q'').
Proof.
  intros Hopen Hseek Hfile Hs Hoff Hsize Hfit Hsmall payload q''.
  assert (Hlen : len payload = rec_size r).
  { unfold payload; apply len_ztake; rewrite len_zdrop; lia. }
  unfold yep_extract_data; rewrite Hopen; cbn [bind negb].
  rewrite Hseek; cbn [bind negb].
  unfold vars_of_record;
    cbn [hv_offset hv_size hv_uncompressed_size hv_compression_type].
  rewrite !read_int_init; cbn [bind].
  fold (rec_offset r); fold (rec_size r); fold (rec_uncompressed_size r);
    fold (rec_compression_type r).
  rewrite Hfile, (fseek_at h data pos) by assumption; cbn [bind].
  change (yep_file (seek_to h data (rec_offset r) q')) with (yep_file q').
  rewrite Hfile, (fread_at h data (rec_offset r) (rec_size r))
    by (try (eapply stream_of_seek_to; eassumption); lia).
  cbn [bind]; rewrite seek_to_seek_to; fold payload; fold q''.
  rewrite Z.mod_small by lia.
  replace (malloc (rec_size r + 1)) with (malloc (len payload + 1)) by (now rewrite Hlen).
  rewrite store_into_malloc.
  assert (Hload : load (ztake (rec_size r) (init_cells payload ++ [None]))
                  = Some payload).
  { rewrite ztake_app_len by (rewrite len_init_cells; exact Hlen).
    apply load_init_cells. }
  destruct (rec_compression_type r =? YEP_COMPRESSION_NONE) eqn:Enone.
  - apply Z.eqb_eq in Enone; rewrite Enone.
    change (YEP_COMPRESSION_NONE =? YEP_COMPRESSION_ZLIB) with false; cbv iota.
    unfold set_cell.
    rewrite len_app, len_init_cells, Hlen.
    change (len [None]) with 1.
    replace ((0 <=? rec_size r) && (rec_size r <? rec_size r + 1)) with true
      by (symmetry; apply andb_true_iff; split; [apply Z.leb_le | apply Z.ltb_lt]; lia).
    cbn [bind].
    rewrite ztake_app_len by (rewrite len_init_cells; exact Hlen).
    rewrite zdrop_all by (rewrite len_app, len_init_cells, Hlen; change (len [None]) with 1; lia).
    now rewrite init_cells_app.
  - cbn [bind].
    destruct (rec_compression_type r =? YEP_COMPRESSION_ZLIB); [|reflexivity].
    rewrite Hload; reflexivity.
Qed.

(** ** Names in the header table *)

Lemma byte_of_char_zero (c : ascii) : Z.of_N (N_of_ascii c) = 0 -> is_nul c = true.
Proof.
  intros Hc; unfold is_nul.
  assert (HN : N_of_ascii c = 0%N) by lia.
  apply (f_equal ascii_of_N) in HN; rewrite ascii_N_embedding in HN; subst c.
  reflexivity.
Qed.

Lemma c_str_bytes (s : string) (rest : list Z) :
  string_forallb (fun c => negb (is_nul c)) s = true ->
  c_str (bytes_of_string s ++ 0 :: rest) = bytes_of_string s.
Proof.
  induction s as [|c s IH]; [reflexivity|].
  cbn [string_forallb bytes_of_string app c_str]; intros Hs.
  apply andb_prop in Hs as [Hc Hs].
  destruct (Z.of_N (N_of_ascii c) =? 0) eqn:E.
  - apply Z.eqb_eq, byte_of_char_zero in E; rewrite E in Hc; discriminate.
  - now rewrite (IH Hs).
Qed.

Lemma bytes_of_string_inj (s t : string) :
  bytes_of_string s = bytes_of_string t -> s = t.
Proof.
  revert t; induction s as [|c s IH]; intros [|d t] Heq; try discriminate;
    [reflexivity|].
  cbn [bytes_of_string] in Heq; injection Heq as Hc Hs.
  assert (HN : N_of_ascii c = N_of_ascii d) by lia.
  apply (f_equal ascii_of_N) in HN; rewrite !ascii_N_embedding in HN.
  now rewrite HN, (IH t Hs).
Qed.

(** The name array of an accepted file holds its relative path,
    terminated. *)
Lemma node_of_name (root : string) (file : string * list Z) :
  fits root file = true ->
  exists rest,
    name (node_of root file)
    = bytes_of_string (relative_to root (fst file)) ++ 0 :: rest.
Proof.
  unfold fits, node_of, new_node, strlen; cbn [name]; intros Hfit.
  apply negb_true_iff, Z.ltb_ge in Hfit.
  exists (repeat 0 (63 - String.length (relative_to root (fst file)))).
  replace (64 - String.length (relative_to root (fst file)))%nat
    with (S (63 - String.length (relative_to root (fst file)))) by lia.
  reflexivity.
Qed.

Lemma c_str_cstring (s : string) :
  string_forallb (fun c => negb (is_nul c)) s = true ->
  c_str (cstring s) = bytes_of_string s.
Proof. intros Hs; unfold cstring; now apply c_str_bytes. Qed.

(** ** The files of an archive *)

Lemma worst_case_nonneg (content : list Z) : 0 <= worst_case content.
Proof.
  unfold worst_case; pose proof (len_nonneg content).
  destruct (256 <? len content); [|assumption].
  pose proof (Z.div_pos (len content) 10 ltac:(lia) ltac:(lia)); lia.
Qed.

Lemma zsum_map_nonneg {A : Type} (g : A -> Z) (l : list A) :
  (forall x, 0 <= g x) -> 0 <= zsum (map g l).
Proof.
  intros Hg; unfold zsum; induction l as [|a l IH]; simpl; [lia|].
  pose proof (Hg a); lia.
Qed.

Lemma zsum_map_member {A : Type} (g : A -> Z) (l : list A) (x : A) :
  (forall y, 0 <= g y) -> In x l -> g x <= zsum (map g l).
Proof.
  intros Hg; induction l as [|a l IH]; intros Hin; [contradiction|].
  pose proof (zsum_map_nonneg g l Hg) as Hl. pose proof (Hg a).
  change (zsum (map g (a :: l))) with (g a + zsum (map g l)).
  destruct Hin as [->|Hin]; [lia | specialize (IH Hin); lia].
Qed.

Lemma zsum_map_le {A : Type} (g g' : A -> Z) (l : list A) :
  (forall x, In x l -> g x <= g' x) -> zsum (map g l) <= zsum (map g' l).
Proof.
  induction l as [|a l IH]; intros Hle; [reflexivity|].
  change (zsum (map g (a :: l))) with (g a + zsum (map g l)).
  change (zsum (map g' (a :: l))) with (g' a + zsum (map g' l)).
  pose proof (Hle a (or_introl eq_refl)).
  assert (zsum (map g l) <= zsum (map g' l)) by (apply IH; intros; apply Hle; now right).
  lia.
Qed.

Lemma packed_files_member (root : string) (tree : fsnode) (f : string * list Z) :
  In f (packed_files root tree) <-> In f (encountered root tree) /\ fits root f = true.
Proof. unfold packed_files; rewrite <- in_rev; apply filter_In. Qed.

Lemma walk_packed_files (root : string) (tree : fsnode) :
  let pl' := _ye_walk_directory root root tree empty_pack_list in
  head pl' = map (node_of root) (packed_files root tree)
  /\ entry_count pl' = len (packed_files root tree).
Proof.
  intros pl'; unfold pl', packed_files; rewrite walk_fold.
  destruct (fold_accept root (encountered root tree) empty_pack_list) as [Hh Hc].
  rewrite Hh, Hc, map_rev, len_rev; cbn [head entry_count empty_pack_list].
  now rewrite app_nil_r.
Qed.

(** With a zlib that keeps its promises, every file of a well-formed
    tree is packed as expected when the archive stays in range. *)
Lemma packed_files_entries `{YepHeader} `{z : Zlib} `{!ZlibLaws z}
    (root : string) (tree : fsnode) :
  wf_tree tree = true ->
  len (packed_files root tree) <= 65535 ->
  archive_bound root tree < UINT32 ->
  let files := packed_files root tree in
  let es := map (fun f => expected_entry (snd f)) files in
  packed_as root tree (map (node_of root) files) es
  /\ in_range (len files) es.
Proof.
  intros Hwf Hcount Hbound files es.
  assert (Heach : forall f, In f files ->
            pack_entry root tree (node_of root f) = Ret (expected_entry (snd f))
            /\ len (stored_bytes (snd f)) <= worst_case (snd f)).
  { intros [full content] Hin.
    pose proof (proj1 (packed_files_member root tree _) Hin) as [Henc _].
    destruct (encountered_fopen root tree full content Hwf Henc) as [Hopen _].
    apply pack_entry_expected; [exact Hopen|].
    pose proof (zsum_map_member (fun f => worst_case (snd f)) files (full, content)
                  (fun y => worst_case_nonneg (snd y)) Hin) as Hle.
    cbn [snd fullpath node_of new_node] in *; unfold archive_bound in Hbound.
    subst files.
    pose proof (len_nonneg (packed_files root tree)).
    unfold YEP_HEADER_SIZE_BYTES in *; lia. }
  split.
  - unfold packed_as, es; clear Hcount Hbound.
    induction files as [|f files' IH]; [reflexivity|].
    cbn [map pack_entries].
    rewrite (proj1 (Heach f (or_introl eq_refl))); cbn [bind].
    rewrite IH by (intros; apply Heach; now right); reflexivity.
  - assert (Htot : payload_total es <= zsum (map (fun f => worst_case (snd f)) files)).
    { unfold payload_total, es; rewrite map_map; cbn [pe_data_size expected_entry].
      apply zsum_map_le; intros f Hin; apply Heach; exact Hin. }
    unfold archive_bound in Hbound.
    change (packed_files root tree) with files in Hbound, Hcount.
    pose proof (len_nonneg files).
    pose proof (payload_total_nonneg es).
    unfold in_range, YEP_HEADER_SIZE_BYTES, INT_MAX in *.
    clearbody files es; split; lia.
Qed.

(** Inflating what the writer stored for a file above the threshold. *)
Lemma decompress_stored `{z : Zlib} `{!ZlibLaws z} (content : list Z) :
  256 < len content ->
  len content + len content / 10 + 12 < UINT32 ->
  let r := decompress_data (stored_bytes content) (len (stored_bytes content))
             (len content) in
  dr_ret r = 0 /\ dr_output r = Some (init_cells content).
Proof.
  intros Hbig Hfit r; subst r.
  pose proof (len_nonneg content) as Hn0.
  pose proof (Z.div_pos (len content) 10 Hn0 ltac:(lia)) as Hdiv.
  unfold stored_bytes.
  replace (256 <? len content) with true by (symmetry; now apply Z.ltb_lt).
  pose proof (deflate_bound content (len content + len content / 10 + 12)
                (compress_bound_fits _ Hbig)) as Hend.
  pose proof (deflate_fits content (len content + len content / 10 + 12)
                ltac:(lia)) as Hfits.
  destruct (deflate_finish content (len content + len content / 10 + 12))
    as [res written] eqn:Hrun.
  cbn [fst snd] in *; subst res.
  pose proof (inflate_deflate content _ written Hrun) as Hinf.
  pose proof (len_nonneg written) as Hw0.
  unfold decompress_data.
  rewrite inflateInit_ok; change (negb (Z_OK =? Z_OK)) with false; cbv iota.
  rewrite !Z.mod_small by (unfold UINT32 in *; lia).
  rewrite (ztake_all (len written) written) by lia.
  rewrite Hinf.
  change (negb (Z_STREAM_END =? Z_STREAM_END)) with false; cbv iota.
  rewrite Z.eqb_refl; cbn [negb dr_ret dr_output].
  split; [reflexivity|].
  rewrite store_full; [reflexivity|].
  rewrite length_malloc; unfold len; lia.
Qed.

(** ** An archive seen by the reader *)

(** Everything the reader obtains for entry [i] of a written archive. *)
Lemma archive_entry_view `{YepHeader} (nodes : list yep_header_node)
    (es : list packed_entry) (i : nat) (n : yep_header_node) (e : packed_entry) :
  Forall node_ok nodes -> Forall entry_ok es -> length nodes = length es ->
  in_range (len nodes) es ->
  nth_error nodes i = Some n -> nth_error es i = Some e ->
  0 <= pe_uncompressed_size e < UINT32 ->
  0 <= pe_compression_type e < UINT8 ->
  let archive := archive_of nodes es in
  let r := record_at archive (Z.of_nat i) in
  rec_name r = name n
  /\ rec_size r = pe_data_size e
  /\ rec_compression_type r = pe_compression_type e
  /\ rec_uncompressed_size r = pe_uncompressed_size e
  /\ 0 <= rec_offset r
  /\ rec_offset r + pe_data_size e <= len archive
  /\ pe_data_size e + 1 < UINT32
  /\ ztake (pe_data_size e) (zdrop (rec_offset r) archive) = pe_data e.
Proof.
  intros Hnodes Heok Hlen [_ Hfit] Hn He Hus Hct archive r; subst archive r.
  rewrite (archive_record _ _ _ n e) by assumption.
  pose proof (Forall_nth_error _ _ _ _ Hnodes Hn) as Hn'.
  pose proof (Forall_nth_error _ _ _ _ Heok He) as He'.
  destruct (final_record_fields n
              (3 + len nodes * YEP_HEADER_SIZE_BYTES + payload_total (firstn i es))
              e Hn') as (Hname & Hoff & Hsize & Hctr & Husr & _).
  rewrite Hname, Hoff, Hsize, Hctr, Husr, len_archive_of by assumption.
  pose proof (payload_total_firstn_S _ _ _ He) as HS.
  pose proof (payload_total_firstn_le (S i) es Heok) as Hle.
  pose proof (payload_total_nonneg _ (Forall_firstn _ i _ Heok)) as Hnn.
  pose proof (len_nonneg nodes) as Hk.
  assert (Hsz : 0 <= pe_data_size e)
    by (unfold entry_ok in He'; rewrite <- He'; apply len_nonneg).
  unfold YEP_HEADER_SIZE_BYTES in *.
  rewrite !Z.mod_small by (unfold UINT32, UINT8 in *; lia).
  split; [apply ztake_all; unfold node_ok in Hn'; lia|].
  repeat (split; [first [reflexivity | unfold UINT32 in *; lia]|]).
  now apply (archive_payload nodes es i e).
Qed.

Lemma archive_header_values `{YepHeader} (nodes : list yep_header_node)
    (es : list packed_entry) :
  0 <= YEP_CURRENT_FORMAT_VERSION < 256 ->
  len nodes <= 65535 ->
  let archive := archive_of nodes es in
  3 <= len archive
  /\ le_value (ztake 1 archive) = YEP_CURRENT_FORMAT_VERSION
  /\ le_value (ztake 2 (zdrop 1 archive)) = len nodes.
Proof.
  intros Hver Hcount archive; subst archive; unfold archive_of.
  pose proof (len_nonneg nodes) as Hk.
  split; [rewrite len_app, len_archive_head;
          pose proof (len_nonneg (final_records nodes es
                        (3 + len nodes * YEP_HEADER_SIZE_BYTES) ++ payloads es)); lia|].
  unfold archive_head.
  rewrite <- app_assoc.
  split.
  - rewrite ztake_app_len by apply len_le_bytes.
    rewrite le_value_le_bytes_small; unfold UINT8;
      [apply Z.mod_small; lia | change (256 ^ Z.of_nat 1) with 256; rewrite Z.mod_small; lia].
  - rewrite (zdrop_app_len 1) by apply len_le_bytes.
    rewrite ztake_app_len by apply len_le_bytes.
    rewrite le_value_le_bytes_small; unfold UINT16;
      [apply Z.mod_small; lia | change (256 ^ Z.of_nat 2) with 65536; rewrite Z.mod_small; lia].
Qed.

(** ** Round trip *)

(** The copying codec keeps the promises of [ZlibLaws]. *)
Lemma stored_zlib_laws : ZlibLaws stored_zlib.
Proof.
  split; try reflexivity.
  - intros input avail Havail; cbn [deflate_finish stored_zlib]; unfold copy_finish.
    destruct (len input <=? avail) eqn:E; cbn [snd].
    + now apply Z.leb_le.
    + apply Z.leb_gt in E; rewrite len_ztake; lia.
  - intros input avail Hb; cbn [deflate_finish stored_zlib]; unfold copy_finish.
    assert (Hle : len input <= avail).
    { pose proof (len_nonneg input) as Hn.
      unfold compressBound in Hb.
      pose proof (Z.div_pos (len input) (2 ^ 12) Hn ltac:(lia)).
      pose proof (Z.div_pos (len input) (2 ^ 14) Hn ltac:(lia)).
      pose proof (Z.div_pos (len input) (2 ^ 25) Hn ltac:(lia)).
      lia. }
    apply Z.leb_le in Hle; now rewrite Hle.
  - intros input avail out; cbn [deflate_finish inflate_finish stored_zlib].
    unfold copy_finish.
    destruct (len input <=? avail); [|discriminate].
    intros [= <-]; now rewrite Z.leb_refl.
Qed.


Lemma names_unique_NoDup (l : list string) : names_unique l = true -> NoDup l.
Proof.
  induction l as [|s l IH]; intros H; constructor.
  - cbn [names_unique] in H; apply andb_prop in H as [Hs _].
    apply negb_true_iff in Hs; intros Hin.
    assert (Hex : existsb (String.eqb s) l = true)
      by (apply existsb_exists; exists s; split; [assumption | apply String.eqb_refl]).
    congruence.
  - cbn [names_unique] in H; apply andb_prop in H as [_ Hl]; now apply IH.
Qed.

Lemma initial_cache_ok `{YepHeader} (disk : string -> option (list Z)) :
  cache_ok disk initial_process.
Proof. split; [cbn; lia | exact I]. Qed.


(* ================================================================== *)
(** * Part III: further properties of the code                          *)
(* ================================================================== *)

(** ** compress_data *)

(** X2. [compress_data] provides a buffer of [input_size + input_size/10 + 12]
    bytes, returns -1 exactly when [deflateInit] fails or [deflate] does
    not reach the end of the stream, and otherwise returns 0 with the
    number of bytes produced in [*output_size] and those bytes at the
    start of the buffer. After a failure [*output] is unusable: it was
    never assigned, or it points at the buffer already freed. *)
Theorem compress_data_spec `{Zlib} (input : list Z) (input_size : Z) :
  let r := compress_data input input_size in
  let room := input_size + input_size / 10 + 12 in
  let run := deflate_finish (ztake (input_size mod UINT32) input) (room mod UINT32) in
  (cr_ret r = -1 \/ cr_ret r = 0)
  /\ (cr_ret r = -1 <-> deflateInit <> Z_OK \/ fst run <> Z_STREAM_END)
  /\ (cr_ret r = -1 -> cr_output r = None)
  /\ (deflateInit <> Z_OK -> cr_output_size r = None)
  /\ (cr_ret r = 0 ->
      cr_output r = Some (store (snd run) (malloc room))
      /\ cr_output_size r = Some (len (snd run))).
Proof.
  intros r room run; subst r room run; unfold compress_data.
  destruct (deflateInit =? Z_OK) eqn:Einit; cbn [negb].
  2:{ apply Z.eqb_neq in Einit; cbn [cr_ret cr_output cr_output_size].
      repeat split; auto; discriminate. }
  apply Z.eqb_eq in Einit.
  destruct (deflate_finish _ _) as [res written]; cbn [fst snd].
  destruct (res =? Z_STREAM_END) eqn:Eres; cbn [negb].
  - apply Z.eqb_eq in Eres; cbn [cr_ret cr_output cr_output_size].
    repeat split; auto; try discriminate; try congruence.
    intros [Hc|Hc]; congruence.
  - apply Z.eqb_neq in Eres; cbn [cr_ret cr_output cr_output_size].
    repeat split; auto; try discriminate; try congruence.
Qed.

Lemma compress_data_spec_witness :
  cr_ret (@compress_data stored_zlib [5; 6; 7] 3) = 0
  /\ cr_output_size (@compress_data stored_zlib [5; 6; 7] 3) = Some 3
  /\ cr_ret (@compress_data
               {| deflateInit := -4; deflate_finish := copy_finish;
                  inflateInit := Z_OK; inflate_finish := copy_finish |}
               [5; 6; 7] 3) = -1
  /\ cr_output (@compress_data
                  {| deflateInit := -4; deflate_finish := copy_finish;
                     inflateInit := Z_OK; inflate_finish := copy_finish |}
                  [5; 6; 7] 3) = None.
Proof.
  pose proof (@compress_data_spec stored_zlib [5; 6; 7] 3) as (_ & _ & _ & _ & Hok).
  pose proof (@compress_data_spec
                {| deflateInit := -4; deflate_finish := copy_finish;
                   inflateInit := Z_OK; inflate_finish := copy_finish |}
                [5; 6; 7] 3) as (_ & Hfail & Hnone & _).
  split; [reflexivity|].
  split; [apply (Hok eq_refl)|].
  assert (Hret : cr_ret (@compress_data
                           {| deflateInit := -4; deflate_finish := copy_finish;
                              inflateInit := Z_OK; inflate_finish := copy_finish |}
                           [5; 6; 7] 3) = -1)
    by (apply Hfail; left; by_computation).
  split; [exact Hret | exact (Hnone Hret)].
Defined.

Lemma compress_bound_room (n : Z) :
  10 <= n -> compressBound n <= n + n / 10 + 12.
Proof.
  intros Hn; unfold compressBound.
  change (2 ^ 12) with 4096; change (2 ^ 14) with 16384; change (2 ^ 25) with 33554432.
  assert (Hq : 1 <= n / 10) by (apply Z.div_le_lower_bound; lia).
  assert (H12 : n / 4096 <= n / 10 / 400).
  { rewrite Z.div_div by lia. apply Z.div_le_compat_l; lia. }
  assert (H14 : n / 16384 <= n / 10 / 400).
  { rewrite Z.div_div by lia. apply Z.div_le_compat_l; lia. }
  assert (H25 : n / 33554432 <= n / 10 / 400).
  { rewrite Z.div_div by lia. apply Z.div_le_compat_l; lia. }
  assert (Hsmall : 3 * (n / 10 / 400) + 1 <= n / 10).
  { pose proof (Z.mul_div_le (n / 10) 400 ltac:(lia)).
    pose proof (Z.div_pos (n / 10) 400 ltac:(lia) ltac:(lia)). lia. }
  lia.
Qed.

(** X3. The two wrappers are inverse to each other. With a zlib that keeps
    its promises, compressing at least ten bytes (so that the room
    provided covers zlib's bound) whose room is a 32-bit size succeeds,
    and decompressing the bytes produced, with the original size as the
    expected size, succeeds and gives the original bytes back. *)
Theorem compress_decompress `{z : Zlib} `{!ZlibLaws z} (input : list Z) :
  10 <= len input ->
  len input + len input / 10 + 12 < UINT32 ->
  exists compressed,
    cr_ret (compress_data input (len input)) = 0
    /\ cr_output_size (compress_data input (len input)) = Some (len compressed)
    /\ (exists buffer,
          cr_output (compress_data input (len input)) = Some buffer
          /\ load (ztake (len compressed) buffer) = Some compressed)
    /\ len compressed <= len input + len input / 10 + 12
    /\ dr_ret (decompress_data compressed (len compressed) (len input)) = 0
    /\ dr_output (decompress_data compressed (len compressed) (len input))
       = Some (init_cells input).
Proof.
  intros Hbig Hroom.
  pose proof (len_nonneg input) as Hn0.
  pose proof (Z.div_pos (len input) 10 Hn0 ltac:(lia)) as Hdiv.
  pose proof (deflate_bound input (len input + len input / 10 + 12)
                (compress_bound_room _ Hbig)) as Hend.
  pose proof (deflate_fits input (len input + len input / 10 + 12) ltac:(lia)) as Hfits.
  destruct (deflate_finish input (len input + len input / 10 + 12))
    as [res written] eqn:Hrun.
  cbn [fst snd] in *; subst res.
  pose proof (inflate_deflate input _ written Hrun) as Hinf.
  pose proof (len_nonneg written) as Hw0.
  exists written.
  unfold compress_data.
  rewrite deflateInit_ok; change (negb (Z_OK =? Z_OK)) with false; cbv iota.
  rewrite !Z.mod_small by (unfold UINT32 in *; lia).
  rewrite (ztake_all (len input) input) by lia.
  rewrite Hrun.
  change (negb (Z_STREAM_END =? Z_STREAM_END)) with false; cbv iota.
  cbn [cr_ret cr_output cr_output_size].
  split; [reflexivity|]. split; [reflexivity|].
  split.
  { eexists; split; [reflexivity|].
    rewrite ztake_store_exact; apply load_init_cells. }
  split; [assumption|].
  unfold decompress_data.
  rewrite inflateInit_ok; change (negb (Z_OK =? Z_OK)) with false; cbv iota.
  rewrite !Z.mod_small by (unfold UINT32 in *; lia).
  rewrite (ztake_all (len written) written) by lia.
  rewrite Hinf.
  change (negb (Z_STREAM_END =? Z_STREAM_END)) with false; cbv iota.
  rewrite Z.eqb_refl; cbn [negb dr_ret dr_output].
  split; [reflexivity|].
  rewrite store_full; [reflexivity|].
  rewrite length_malloc; unfold len; lia.
Qed.

Lemma compress_decompress_witness :
  exists compressed,
    cr_ret (@compress_data stored_zlib (repeat 9 12) 12) = 0
    /\ dr_output (@decompress_data stored_zlib compressed (len compressed) 12)
       = Some (init_cells (repeat 9 12)).
Proof.
  destruct (@compress_decompress stored_zlib stored_zlib_laws (repeat 9 12))
    as (compressed & Hret & _ & _ & _ & _ & Hout).
  - by_computation.
  - by_computation.
  - exists compressed; split; [exact Hret | exact Hout].
Defined.

Lemma compress_data_failed `{Zlib} (input : list Z) (input_size : Z) :
  cr_ret (compress_data input input_size) <> 0 ->
  cr_output (compress_data input input_size) = None.
Proof.
  unfold compress_data.
  destruct (negb (deflateInit =? Z_OK)); [reflexivity|].
  destruct (deflate_finish _ _) as [res written].
  destruct (negb (res =? Z_STREAM_END)); [reflexivity|].
  cbn [cr_ret]; congruence.
Qed.

(** X4. The writer does not look at what [compress_data] returns. When the
    call fails for a file above the threshold, the loop goes on with a
    [compressed_data] that was never assigned or is already freed: the
    behaviour of the pack operation is undefined from there. *)
Theorem unchecked_compress_failure `{YepHeader} `{Zlib} (root : string)
    (tree : fsnode) (itr : yep_header_node) (file : list Z) :
  fs_fopen root tree (fullpath itr) = Some file ->
  256 < get_file_size file ->
  cr_ret (compress_data (read_file_data file (get_file_size file))
            (get_file_size file)) <> 0 ->
  pack_entry root tree itr = Undef
  /\ forall next current_entry data_end pack_file,
       write_pack_loop root tree (itr :: next) current_entry data_end pack_file
       = Undef.
Proof.
  intros Hf Hbig Hfail.
  assert (Hentry : pack_entry root tree itr = Undef).
  { unfold pack_entry; rewrite Hf.
    replace (256 <? get_file_size file) with true by (symmetry; now apply Z.ltb_lt).
    change (YEP_COMPRESSION_ZLIB mod UINT8 =? YEP_COMPRESSION_ZLIB) with true.
    cbv iota.
    now rewrite (compress_data_failed _ _ Hfail). }
  split; [exact Hentry|].
  intros; cbn [write_pack_loop]; now rewrite Hentry.
Qed.

Lemma unchecked_compress_failure_witness :
  @pack_entry header_v1
    {| deflateInit := -4; deflate_finish := copy_finish;
       inflateInit := Z_OK; inflate_finish := copy_finish |}
    "res" sample_tree (new_node "big.bin" "res/big.bin") = Undef.
Proof.
  apply (@unchecked_compress_failure header_v1
           {| deflateInit := -4; deflate_finish := copy_finish;
              inflateInit := Z_OK; inflate_finish := copy_finish |}
           "res" sample_tree (new_node "big.bin" "res/big.bin") (repeat 171 300)).
  - reflexivity.
  - by_computation.
  - by_computation.
Defined.

(** ** _yep_close_file *)

Lemma length_remove_stream (h : nat) (f : rfile) (ss : list (nat * rfile)) :
  stream_of h ss = Some f -> S (length (remove_stream h ss)) = length ss.
Proof.
  induction ss as [|[h' g] ss IH]; simpl; [discriminate|].
  destruct (Nat.eqb h' h); [reflexivity|].
  intros Hs; simpl; now rewrite IH.
Qed.

(** X5. Closing the cached archive closes its stream and clears the stream
    pointer, the entry count and the version, and closing again does
    nothing. The path string is freed but [yep_file_path] keeps
    pointing at it: every later [_yep_open_file], and so every later
    [yep_extract_data], compares against freed memory, which is
    undefined. *)
Theorem close_then_open_undefined `{YepHeader} `{Zlib}
    (disk : string -> option (list Z)) (p : process) (h : nat) (f : rfile)
    (s : string) :
  yep_file p = Some h ->
  stream_of h (streams p) = Some f ->
  yep_file_path p = PathLive s ->
  exists p',
    _yep_close_file p = Ret p'
    /\ yep_file p' = None
    /\ file_entry_count p' = 0 /\ file_version_number p' = 0
    /\ streams p' = remove_stream h (streams p)
    /\ S (length (streams p')) = length (streams p)
    /\ yep_file_path p' = PathFreed
    /\ _yep_close_file p' = Ret p'
    /\ (forall file, _yep_open_file disk file p' = Undef)
    /\ (forall file handle, yep_extract_data disk file handle p' = Undef).
Proof.
  intros Hfile Hs Hpath.
  eexists; split.
  { unfold _yep_close_file; rewrite Hfile, Hs, Hpath; reflexivity. }
  cbn [yep_file file_entry_count file_version_number streams yep_file_path].
  repeat split; try reflexivity.
  eapply length_remove_stream; eassumption.
Qed.

Lemma close_then_open_undefined_witness :
  exists p',
    _yep_close_file sample_process = Ret p'
    /\ streams p' = []
    /\ @_yep_open_file header_v1 sample_disk "out.yep" p' = Undef
    /\ @yep_extract_data header_v1 stored_zlib sample_disk "out.yep" "a.txt" p' = Undef.
Proof.
  destruct (@close_then_open_undefined header_v1 stored_zlib sample_disk
              sample_process 0%nat {| r_data := sample_archive; r_pos := 3 |} "out.yep")
    as (p' & Hclose & _ & _ & _ & Hstreams & _ & _ & _ & Hopen & Hextract).
  - reflexivity.
  - by_computation.
  - reflexivity.
  - exists p'; split; [exact Hclose|]; split; [|split; [apply Hopen | apply Hextract]].
    rewrite Hstreams; by_computation.
Defined.

(** ** Streams are never closed by the reader *)

(** The handles of the open streams, most recent first. *)
Lemma handles_set_stream (h : nat) (f : rfile) (ss : list (nat * rfile)) :
  map fst (set_stream h f ss) = map fst ss.
Proof.
  induction ss as [|[h' g] ss IH]; simpl; [reflexivity|].
  destruct (Nat.eqb h' h); simpl; congruence.
Qed.

Lemma same_handles_refl (p : process) : same_handles p p.
Proof. repeat split. Qed.

Lemma same_handles_trans (p p' p'' : process) :
  same_handles p p' -> same_handles p' p'' -> same_handles p p''.
Proof.
  intros (A & B & C & D) (A' & B' & C' & D'); repeat split; congruence.
Qed.

Lemma fread_same_handles (stream : option nat) (n : Z) (p p' : process)
    (bs : list Z) :
  fread stream n p = Ret (bs, p') -> same_handles p p'.
Proof.
  unfold fread; destruct stream as [h|]; [|discriminate].
  destruct (stream_of h (streams p)); [|discriminate].
  intros [= _ <-]; repeat split; cbn; apply handles_set_stream.
Qed.

Lemma fseek_same_handles (stream : option nat) (offset : Z) (p p' : process) :
  fseek stream offset p = Ret p' -> same_handles p p'.
Proof.
  unfold fseek; destruct stream as [h|]; [|discriminate].
  destruct (stream_of h (streams p)); [|discriminate].
  intros [= <-]; repeat split; cbn; apply handles_set_stream.
Qed.

Lemma read_header_same_handles (v v' : header_vars) (p p' : process) :
  read_header v p = Ret (v', p') -> same_handles p p'.
Proof.
  unfold read_header.
  destruct (fread (yep_file p) 64 p) as [[b1 p1]| |] eqn:E1; try discriminate.
  cbn [bind].
  destruct (fread (yep_file p1) 4 p1) as [[b2 p2]| |] eqn:E2; try discriminate.
  cbn [bind].
  destruct (fread (yep_file p2) 4 p2) as [[b3 p3]| |] eqn:E3; try discriminate.
  cbn [bind].
  destruct (fread (yep_file p3) 1 p3) as [[b4 p4]| |] eqn:E4; try discriminate.
  cbn [bind].
  destruct (fread (yep_file p4) 4 p4) as [[b5 p5]| |] eqn:E5; try discriminate.
  cbn [bind].
  destruct (fread (yep_file p5) 1 p5) as [[b6 p6]| |] eqn:E6; try discriminate.
  cbn [bind]; intros [= _ <-].
  apply fread_same_handles in E1, E2, E3, E4, E5, E6.
  eauto 10 using same_handles_trans.
Qed.

Lemma seek_loop_same_handles (handle : string) (remaining : nat) :
  forall (scanned : Z) (v : header_vars) (p : process) (found : bool)
         (scanned' : Z) (v' : header_vars) (p' : process),
    seek_loop handle remaining scanned v p = Ret (found, scanned', v', p') ->
    same_handles p p'.
Proof.
  induction remaining as [|remaining IH]; intros scanned v p found scanned' v' p'.
  - intros [= _ _ _ <-]; apply same_handles_refl.
  - cbn [seek_loop].
    destruct (read_header v p) as [[v1 p1]| |] eqn:E; try discriminate.
    cbn [bind]; apply read_header_same_handles in E.
    destruct (strcmp_eq _ _) as [[|]|]; try discriminate.
    + intros [= _ _ _ <-]; exact E.
    + intros Hloop; apply IH in Hloop; eauto using same_handles_trans.
Qed.

Lemma seek_header_same_handles (handle : string) (v v' : header_vars)
    (p p' : process) (found : bool) (scanned : Z) :
  _yep_seek_header handle v p = Ret (found, scanned, v', p') -> same_handles p p'.
Proof.
  unfold _yep_seek_header.
  destruct (fseek (yep_file p) 3 p) as [p1| |] eqn:E; try discriminate.
  cbn [bind]; intros Hloop.
  apply fseek_same_handles in E; apply seek_loop_same_handles in Hloop.
  eauto using same_handles_trans.
Qed.

(** What [_yep_open_file] does to the table of streams: nothing, or one
    stream more under a fresh handle; never one less. *)
Lemma open_handles `{YepHeader} (disk : string -> option (list Z)) (file : string)
    (p p' : process) (ok : bool) :
  _yep_open_file disk file p = Ret (ok, p') ->
  map fst (streams p') = map fst (streams p)
  \/ (map fst (streams p') = next_stream p :: map fst (streams p)
      /\ yep_file_path p <> PathLive file).
Proof.
  unfold _yep_open_file.
  destruct (yep_file_path p) as [|s|] eqn:Hp; cbn [bind]; try discriminate.
  - destruct (disk file) as [data|].
    + unfold fread; cbn; rewrite Nat.eqb_refl; cbn; rewrite Nat.eqb_refl; cbn.
      destruct (negb _); intros [= _ <-]; right; split; (reflexivity || discriminate).
    + intros [= <- <-]; left; reflexivity.
  - destruct (String.eqb_spec s file) as [->|Hne].
    + intros [= <- <-]; left; reflexivity.
    + destruct (disk file) as [data|].
      * unfold fread; cbn; rewrite Nat.eqb_refl; cbn; rewrite Nat.eqb_refl; cbn.
        destruct (negb _); intros [= _ <-]; right;
          (split; [reflexivity | congruence]).
      * intros [= <- <-]; left; reflexivity.
Qed.

(** X6. [yep_extract_data] never closes a stream. A call that returns leaves
    every stream that was open still open, and opens at most one more:
    none when the requested archive is the cached one, one when the
    file was opened anew. Archives are therefore never released by
    lookups, whatever their order. *)
Theorem extract_never_closes `{YepHeader} `{Zlib}
    (disk : string -> option (list Z)) (file handle : string) (p p' : process)
    (result : option mem) :
  yep_extract_data disk file handle p = Ret (result, p') ->
  (map fst (streams p') = map fst (streams p)
   \/ map fst (streams p') = next_stream p :: map fst (streams p))
  /\ (yep_file_path p = PathLive file ->
      map fst (streams p') = map fst (streams p))
  /\ (length (streams p) <= length (streams p'))%nat.
Proof.
  intros Hrun.
  assert (Hstep : forall q, same_handles q p' ->
            (map fst (streams q) = map fst (streams p)
             \/ map fst (streams q) = next_stream p :: map fst (streams p)) ->
            (yep_file_path p = PathLive file ->
             map fst (streams q) = map fst (streams p)) ->
            (map fst (streams p') = map fst (streams p)
             \/ map fst (streams p') = next_stream p :: map fst (streams p))
            /\ (yep_file_path p = PathLive file ->
                map fst (streams p') = map fst (streams p))
            /\ (length (streams p) <= length (streams p'))%nat).
  { intros q (Hh & _) Hq Hcached; rewrite Hh.
    split; [exact Hq|]; split; [exact Hcached|].
    rewrite <- (length_map fst (streams p')), Hh, <- (length_map fst (streams p)).
    destruct Hq as [-> | ->]; simpl; lia. }
  unfold yep_extract_data in Hrun.
  destruct (_yep_open_file disk file p) as [[ok q]| |] eqn:Hopen; try discriminate.
  cbn [bind] in Hrun.
  assert (Hq : map fst (streams q) = map fst (streams p)
               \/ map fst (streams q) = next_stream p :: map fst (streams p))
    by (destruct (open_handles _ _ _ _ _ Hopen) as [Hq|[Hq _]]; auto).
  assert (Hcached : yep_file_path p = PathLive file ->
                    map fst (streams q) = map fst (streams p)).
  { intros Hp; destruct (open_handles _ _ _ _ _ Hopen) as [Hq'|[_ Hne]];
      [assumption | contradiction]. }
  destruct ok; cbn [negb] in Hrun.
  2:{ injection Hrun as _ <-; apply (Hstep q); auto using same_handles_refl. }
  destruct (_yep_seek_header handle fresh_vars q) as [[[[found sc] v] q1]| |] eqn:Hseek;
    try discriminate.
  cbn [bind] in Hrun; apply seek_header_same_handles in Hseek.
  destruct found; cbn [negb] in Hrun.
  2:{ injection Hrun as _ <-; apply (Hstep q); auto. }
  destruct (read_int (hv_offset v)) as [offset| |]; try discriminate.
  destruct (read_int (hv_size v)) as [size| |]; try discriminate.
  destruct (read_int (hv_uncompressed_size v)) as [us| |]; try discriminate.
  destruct (read_int (hv_compression_type v)) as [ct| |]; try discriminate.
  cbn [bind] in Hrun.
  destruct (fseek (yep_file q1) offset q1) as [q2| |] eqn:Hfs; try discriminate.
  cbn [bind] in Hrun; apply fseek_same_handles in Hfs.
  destruct (fread (yep_file q2) size q2) as [[bs q3]| |] eqn:Hfr; try discriminate.
  cbn [bind] in Hrun; apply fread_same_handles in Hfr.
  assert (Hq3 : same_handles q q3) by eauto using same_handles_trans.
  destruct (if ct =? YEP_COMPRESSION_NONE then _ else _) as [data| |];
    try discriminate.
  cbn [bind] in Hrun.
  assert (Hfinal : p' = q3).
  { destruct (ct =? YEP_COMPRESSION_ZLIB).
    - destruct (load _); [|discriminate].
      destruct (negb _); [discriminate|].
      destruct (dr_output _); [|discriminate].
      now injection Hrun as _ <-.
    - now injection Hrun as _ <-. }
  subst p'; apply (Hstep q); auto.
Qed.

Lemma extract_never_closes_witness :
  exists result p',
    @yep_extract_data header_v1 stored_zlib sample_disk "out.yep" "a.txt"
      sample_process = Ret (result, p')
    /\ map fst (streams p') = [0%nat]
    /\ (length (streams sample_process) <= length (streams p'))%nat.
Proof.
  destruct (@yep_extract_data header_v1 stored_zlib sample_disk "out.yep" "a.txt"
              sample_process) as [[result p']| |] eqn:Hrun;
    [|vm_compute in Hrun; discriminate | vm_compute in Hrun; discriminate].
  destruct (@extract_never_closes header_v1 stored_zlib sample_disk "out.yep" "a.txt"
              sample_process p' result Hrun) as (_ & Hsame & Hlen).
  exists result, p'; split; [reflexivity|]; split; [|exact Hlen].
  rewrite Hsame; reflexivity.
Defined.

(** ** The pack list across walks and pack operations *)

(** X7. Whatever the list holds when the walk starts, and at whatever depth
    of the recursion, the walker only adds in front of it: the nodes of
    the fitting regular files it meets, most recent first, and the
    counter grows by their number. Every node it adds has its 64-byte
    name array terminated, so the array is never overrun, and a list
    whose counter agrees with its nodes stays so. *)
Theorem walk_prepends (root_path directory_path : string) (dir : fsnode)
    (pl : yep_pack_list_t) :
  let pl' := _ye_walk_directory root_path directory_path dir pl in
  let added :=
    rev (map (node_of root_path)
           (filter (fits root_path) (encountered directory_path dir))) in
  head pl' = added ++ head pl
  /\ entry_count pl' = entry_count pl + len added
  /\ Forall (fun n => len (name n) = 64 /\ In 0 (name n)) added
  /\ (pack_list_ok pl -> pack_list_ok pl').
Proof.
  intros pl' added; subst pl' added.
  rewrite walk_fold.
  destruct (fold_accept root_path (encountered directory_path dir) pl) as [Hh Hc].
  split; [exact Hh|].
  split; [rewrite Hc, len_rev, len_map; reflexivity|].
  split.
  - apply Forall_rev, Forall_forall; intros n Hn.
    apply in_map_iff in Hn as (f & <- & Hf); apply filter_In in Hf as [_ Hfit].
    split; [exact (node_of_ok root_path f Hfit)|].
    destruct (node_of_name root_path f Hfit) as [rest ->].
    apply in_or_app; right; now left.
  - intros Hok; rewrite <- walk_fold; now apply walk_pack_list_ok.
Qed.

Lemma walk_prepends_witness :
  map fullpath (head (_ye_walk_directory "res" "res/sub"
                        (Directory true [("c.dat", Reg [7; 0; 9])]) stale_list))
  = ["res/sub/c.dat"; "res/gone.txt"]
  /\ pack_list_ok (_ye_walk_directory "res" "res/sub"
                     (Directory true [("c.dat", Reg [7; 0; 9])]) stale_list).
Proof.
  destruct (walk_prepends "res" "res/sub" (Directory true [("c.dat", Reg [7; 0; 9])])
              stale_list) as (Hhead & _ & _ & Hok).
  split; [rewrite Hhead; reflexivity|].
  apply Hok; split; [repeat constructor | reflexivity].
Defined.

(** X8. [yep_pack_directory] works on the global pack list and never clears
    it. A call that returns leaves the walked files in front of what the
    list held, also when the output file could not be created (the call
    then returns false and writes nothing). Packing the same directory
    a second time in the same process therefore lists every file twice. *)
Theorem pack_list_accumulates `{YepHeader} `{Zlib} (tree : fsnode)
    (creatable creatable' : string -> bool) (pl : yep_pack_list_t)
    (root output_name output_name' : string) (r r' : pack_result) :
  yep_pack_directory tree creatable pl root output_name = Ret r ->
  yep_pack_directory tree creatable' (pr_list r) root output_name' = Ret r' ->
  let added :=
    rev (map (node_of root) (filter (fits root) (encountered root tree))) in
  head (pr_list r) = added ++ head pl
  /\ entry_count (pr_list r) = entry_count pl + len added
  /\ (creatable output_name = false -> pr_ret r = false /\ pr_file r = None)
  /\ head (pr_list r') = added ++ added ++ head pl
  /\ entry_count (pr_list r') = entry_count pl + 2 * len added.
Proof.
  intros Hrun Hrun' added.
  assert (Hlist : forall c q o x,
            yep_pack_directory tree c q root o = Ret x ->
            pr_list x = _ye_walk_directory root root tree q
            /\ (c o = false -> pr_ret x = false /\ pr_file x = None)).
  { intros c q o x; unfold yep_pack_directory.
    destruct (c o); cbn [negb].
    - destruct (write_pack_file _ _ _ _); try discriminate.
      cbn [bind]; intros [= <-]; split; [reflexivity | discriminate].
    - intros [= <-]; split; [reflexivity | auto]. }
  destruct (Hlist _ _ _ _ Hrun) as [Hl Hfail].
  destruct (Hlist _ _ _ _ Hrun') as [Hl' _].
  rewrite Hl', Hl, !walk_fold.
  destruct (fold_accept root (encountered root tree) pl) as [Hh Hc].
  destruct (fold_accept root (encountered root tree)
              (fold_left (accept root) (encountered root tree) pl)) as [Hh' Hc'].
  rewrite Hh', Hc', Hh, Hc; fold added.
  split; [reflexivity|]. split; [unfold added; rewrite len_rev, len_map; reflexivity|].
  split; [exact Hfail|]. split; [reflexivity|].
  unfold added; rewrite len_rev, len_map; lia.
Qed.

Lemma pack_list_accumulates_witness :
  exists r r',
    @yep_pack_directory header_v1 stored_zlib sample_tree (fun _ => false)
      empty_pack_list "res" "out.yep" = Ret r
    /\ pr_ret r = false
    /\ @yep_pack_directory header_v1 stored_zlib sample_tree always (pr_list r)
         "res" "out.yep" = Ret r'
    /\ map fullpath (head (pr_list r'))
       = ["res/sub/c.dat"; "res/big.bin"; "res/a.txt";
          "res/sub/c.dat"; "res/big.bin"; "res/a.txt"]
    /\ entry_count (pr_list r') = 6.
Proof.
  destruct (@yep_pack_directory header_v1 stored_zlib sample_tree (fun _ => false)
              empty_pack_list "res" "out.yep") as [r| |] eqn:Hrun;
    [|vm_compute in Hrun; discriminate | vm_compute in Hrun; discriminate].
  destruct (@yep_pack_directory header_v1 stored_zlib sample_tree always (pr_list r)
              "res" "out.yep") as [r'| |] eqn:Hrun'.
  - destruct (@pack_list_accumulates header_v1 stored_zlib sample_tree
                (fun _ => false) always empty_pack_list "res" "out.yep" "out.yep"
                r r' Hrun Hrun') as (_ & _ & Hfail & Hhead & Hcount).
    exists r, r'; split; [reflexivity|].
    split; [apply Hfail; reflexivity|].
    split; [exact Hrun'|].
    split; [rewrite Hhead; reflexivity | rewrite Hcount; reflexivity].
  - exfalso; vm_compute in Hrun; injection Hrun as <-.
    vm_compute in Hrun'; discriminate.
  - exfalso; vm_compute in Hrun; injection Hrun as <-.
    vm_compute in Hrun'; discriminate.
Defined.

(** ** A source file that cannot be opened *)

Lemma update_header_returns (f : wfile) (i off sz ct us dt : Z) :
  3 + i * YEP_HEADER_SIZE_BYTES + 64 <= INT_MAX ->
  exists f', update_header f i off sz ct us dt = Ret f'.
Proof.
  intros Hmax; unfold update_header.
  destruct (INT_MAX <? 3 + i * YEP_HEADER_SIZE_BYTES + 64) eqn:E;
    [apply Z.ltb_lt in E; lia | eauto].
Qed.

Lemma write_pack_loop_missing `{YepHeader} `{Zlib} (root : string) (tree : fsnode)
    (n : yep_header_node) (nodes2 : list yep_header_node) :
  fs_fopen root tree (fullpath n) = None ->
  forall (nodes1 : list yep_header_node) (es1 : list packed_entry)
         (current_entry data_end : Z) (pack_file : wfile),
    packed_as root tree nodes1 es1 ->
    0 <= current_entry ->
    3 + (current_entry + len nodes1) * YEP_HEADER_SIZE_BYTES <= INT_MAX ->
    write_pack_loop root tree (nodes1 ++ n :: nodes2) current_entry data_end pack_file
    = Exit 1.
Proof.
  intros Hgone nodes1 es1 cur data_end f Hes; apply packed_as_each in Hes.
  revert cur data_end f; induction Hes as [|n1 e1 nodes1 es1 Hne _ IH];
    intros cur data_end f Hcur Hmax.
  - cbn [app write_pack_loop]; unfold pack_entry; now rewrite Hgone.
  - cbn [app write_pack_loop]; rewrite Hne; cbn [bind].
    rewrite len_cons in Hmax; pose proof (len_nonneg nodes1).
    unfold YEP_HEADER_SIZE_BYTES in *.
    edestruct (update_header_returns
                 (write_data_to_pack f data_end (pe_data e1) (pe_data_size e1)) cur)
      as [f' Hupd];
      [unfold YEP_HEADER_SIZE_BYTES; lia | rewrite Hupd].
    cbn [bind]; apply IH; lia.
Qed.

(** X9. When the file of some node of the list cannot be opened while the
    nodes before it were stored without failure, the pack operation
    does not return: the process exits with status 1, after the output
    file was created and the earlier payloads written. *)
Theorem missing_source_exits `{YepHeader} `{Zlib} (tree : fsnode)
    (creatable : string -> bool) (pl : yep_pack_list_t)
    (root output_name : string) (nodes1 nodes2 : list yep_header_node)
    (n : yep_header_node) (es1 : list packed_entry) :
  creatable output_name = true ->
  head (_ye_walk_directory root root tree pl) = nodes1 ++ n :: nodes2 ->
  packed_as root tree nodes1 es1 ->
  fs_fopen root tree (fullpath n) = None ->
  3 + len nodes1 * YEP_HEADER_SIZE_BYTES <= INT_MAX ->
  yep_pack_directory tree creatable pl root output_name = Exit 1.
Proof.
  intros Hcre Hhead Hes Hgone Hmax.
  unfold yep_pack_directory; rewrite Hcre; cbn [negb].
  unfold write_pack_file; rewrite Hhead.
  rewrite (write_pack_loop_missing root tree n nodes2 Hgone nodes1 es1);
    [reflexivity | assumption | lia | rewrite Z.add_0_l; assumption].
Qed.

Lemma missing_source_exits_witness :
  @yep_pack_directory header_v1 stored_zlib sample_tree always stale_list
    "res" "out.yep" = Exit 1.
Proof.
  apply (@missing_source_exits header_v1 stored_zlib sample_tree always stale_list
           "res" "out.yep" (head sample_list) [] (new_node "gone.txt" "res/gone.txt")
           sample_entries).
  - reflexivity.
  - reflexivity.
  - by_computation.
  - reflexivity.
  - by_computation.
Defined.

(** ** What the reader does with a record *)

Lemma decompress_data_output `{Zlib} (input : list Z) (input_size output_size : Z) :
  dr_ret (decompress_data input input_size output_size) = 0 ->
  exists out, dr_output (decompress_data input input_size output_size) = Some out.
Proof.
  unfold decompress_data.
  destruct (negb (inflateInit =? Z_OK)); [discriminate|].
  destruct (inflate_finish _ _) as [code written].
  destruct (negb (code =? Z_STREAM_END)); [discriminate|].
  destruct (negb (output_size =? len written)); [discriminate|].
  intros _; eexists; reflexivity.
Qed.



(** ** yep_create_test_file *)

Lemma write_test_entry_at_end (data : list Z) (pos : Z) :
  pos = len data ->
  write_test_entry {| w_data := data; w_pos := pos |}
  = {| w_data := data ++ test_record; w_pos := pos + 74 |}.
Proof.
  intros Hpos; unfold write_test_entry, test_record.
  change (ztake 64 test_name) with test_name.
  repeat (rewrite fwrite_at_end by (rewrite ?len_app; lia)).
  f_equal.
  - now rewrite <- !app_assoc.
  - change (len test_name) with 64; rewrite !len_le_bytes; lia.
Qed.

Lemma write_test_entries_at_end (n : nat) :
  forall (data : list Z) (pos : Z),
    pos = len data ->
    write_test_entries n {| w_data := data; w_pos := pos |}
    = {| w_data := data ++ concat (repeat test_record n);
         w_pos := pos + 74 * Z.of_nat n |}.
Proof.
  induction n as [|n IH]; intros data pos Hpos.
  - cbn [write_test_entries repeat concat]; rewrite app_nil_r; f_equal; lia.
  - cbn [write_test_entries repeat concat].
    rewrite write_test_entry_at_end by assumption.
    rewrite IH by (rewrite len_app; change (len test_record) with 74; lia).
    f_equal; [now rewrite <- app_assoc | lia].
Qed.

Lemma len_concat_repeat (r : list Z) (n : nat) :
  len (concat (repeat r n)) = len r * Z.of_nat n.
Proof.
  induction n as [|n IH]; [cbn; lia|].
  cbn [repeat concat]; rewrite len_app, IH; lia.
Qed.

Lemma concat_repeat_nth (r : list Z) (n i : nat) (rest : list Z) :
  (i < n)%nat ->
  ztake (len r) (zdrop (len r * Z.of_nat i) (concat (repeat r n) ++ rest)) = r.
Proof.
  revert n; induction i as [|i IH]; intros [|n] Hi; try lia.
  - rewrite Z.mul_0_r, zdrop_0; cbn [repeat concat].
    rewrite <- app_assoc; now apply ztake_app_len.
  - cbn [repeat concat]; rewrite <- app_assoc.
    pose proof (len_nonneg r).
    rewrite zdrop_app_ge by nia.
    replace (len r * Z.of_nat (S i) - len r) with (len r * Z.of_nat i) by nia.
    apply IH; lia.
Qed.

(** X11. The test file starts with the version and the 16-bit entry count
    like an archive, but each of its records has 74 bytes: the four
    bytes of the uncompressed size are missing. Its length is
    [3 + 74 * entries], short of the [3 + 78 * entries] bytes the reader
    scans, and with two or more entries the reader takes as uncompressed
    size of the first record the data type byte and the first three
    letters of the next name. *)
Theorem test_file_layout `{YepHeader} (creatable : string -> bool) (entries : nat) :
  creatable "test.yep" = true ->
  exists file,
    yep_create_test_file creatable entries = Some file
    /\ file = archive_head (Z.of_nat entries) ++ concat (repeat test_record entries)
    /\ len file = 3 + 74 * Z.of_nat entries
    /\ (forall i, (i < entries)%nat ->
          ztake 74 (zdrop (3 + 74 * Z.of_nat i) file) = test_record)
    /\ ((0 < entries)%nat ->
        len file < 3 + Z.of_nat entries * YEP_HEADER_SIZE_BYTES)
    /\ ((2 <= entries)%nat ->
        rec_name (record_at file 0) = test_name
        /\ rec_compression_type (record_at file 0) = YEP_COMPRESSION_ZLIB
        /\ rec_uncompressed_size (record_at file 0) = 1936028673).
Proof.
  intros Hcre; eexists; split.
  { unfold yep_create_test_file; rewrite Hcre; cbn [negb].
    rewrite fwrite_at_end by reflexivity.
    rewrite fwrite_at_end by reflexivity.
    rewrite write_test_entries_at_end by reflexivity.
    cbn [w_data app]; reflexivity. }
  change ([] ++ le_bytes 1 (YEP_CURRENT_FORMAT_VERSION mod UINT8))
    with (le_bytes 1 (YEP_CURRENT_FORMAT_VERSION mod UINT8)).
  change (le_bytes 1 (YEP_CURRENT_FORMAT_VERSION mod UINT8)
            ++ le_bytes 2 (Z.of_nat entries mod UINT16))
    with (archive_head (Z.of_nat entries)).
  split; [reflexivity|].
  assert (Hlen : len (archive_head (Z.of_nat entries)
                        ++ concat (repeat test_record entries))
                 = 3 + 74 * Z.of_nat entries).
  { rewrite len_app, len_archive_head, len_concat_repeat.
    change (len test_record) with 74; lia. }
  split; [exact Hlen|].
  split; [|split].
  - intros i Hi.
    rewrite zdrop_app_ge by (rewrite len_archive_head; lia).
    rewrite len_archive_head.
    replace (3 + 74 * Z.of_nat i - 3) with (len test_record * Z.of_nat i)
      by (change (len test_record) with 74; lia).
    rewrite <- (app_nil_r (concat _)).
    now apply (concat_repeat_nth test_record entries i []).
  - intros Hpos; rewrite Hlen; unfold YEP_HEADER_SIZE_BYTES; lia.
  - intros Htwo.
    destruct entries as [|[|m]]; try lia.
    unfold record_at, YEP_HEADER_SIZE_BYTES.
    rewrite zdrop_app_len by apply len_archive_head.
    cbn [repeat concat].
    repeat split.
Qed.

Lemma test_file_layout_witness :
  exists file,
    @yep_create_test_file header_v1 always 2 = Some file
    /\ len file = 151
    /\ rec_uncompressed_size (record_at file 0) = 1936028673.
Proof.
  destruct (@test_file_layout header_v1 always 2 eq_refl)
    as (file & Hfile & _ & Hlen & _ & _ & Htwo).
  exists file; split; [exact Hfile|]; split; [exact Hlen|].
  apply Htwo; lia.
Defined.

(** ** The 16-bit entry count *)

Lemma archive_header_count `{YepHeader} (nodes : list yep_header_node)
    (es : list packed_entry) :
  0 <= YEP_CURRENT_FORMAT_VERSION < 256 ->
  let archive := archive_of nodes es in
  3 <= len archive
  /\ le_value (ztake 1 archive) = YEP_CURRENT_FORMAT_VERSION
  /\ le_value (ztake 2 (zdrop 1 archive)) = len nodes mod UINT16.
Proof.
  intros Hver archive; subst archive; unfold archive_of.
  split; [rewrite len_app, len_archive_head;
          pose proof (len_nonneg (final_records nodes es
                        (3 + len nodes * YEP_HEADER_SIZE_BYTES) ++ payloads es)); lia|].
  unfold archive_head.
  rewrite <- app_assoc.
  split.
  - rewrite ztake_app_len by apply len_le_bytes.
    rewrite le_value_le_bytes_small; unfold UINT8;
      [apply Z.mod_small; lia | change (256 ^ Z.of_nat 1) with 256; rewrite Z.mod_small; lia].
  - rewrite (zdrop_app_len 1) by apply len_le_bytes.
    rewrite ztake_app_len by apply len_le_bytes.
    apply le_value_le_bytes_small.
    change (256 ^ Z.of_nat 2) with 65536; unfold UINT16.
    apply Z.mod_pos_bound; lia.
Qed.

(** The records of an archive written from walked files carry
    terminated names. *)
Lemma archive_names_terminated `{YepHeader} `{Zlib} (root : string) (tree : fsnode)
    (es : list packed_entry) :
  let nodes := head (_ye_walk_directory root root tree empty_pack_list) in
  packed_as root tree nodes es ->
  names_terminated (archive_of nodes es) (len nodes).
Proof.
  intros nodes Hes j Hj.
  assert (Hnodes : Forall node_ok nodes)
    by (apply walk_pack_list_ok; split; [constructor | reflexivity]).
  destruct (nth_error_index nodes j Hj) as [n Hn].
  destruct (Forall2_nth_error _ _ _ (packed_as_each _ _ _ _ Hes) _ _ Hn)
    as (e & He & _).
  replace j with (Z.of_nat (Z.to_nat j)) by lia.
  rewrite (archive_record _ _ _ _ e Hnodes Hn He).
  pose proof (Forall_nth_error _ _ _ _ Hnodes Hn) as Hok.
  destruct (final_record_fields n
              (3 + len nodes * YEP_HEADER_SIZE_BYTES
               + payload_total (firstn (Z.to_nat j) es)) e Hok) as (Hname & _).
  rewrite Hname, ztake_all by (unfold node_ok in Hok; lia).
  apply nth_error_In in Hn; unfold nodes in Hn.
  destruct (walk_packed_files root tree) as [Hhead _]; rewrite Hhead in Hn.
  apply in_map_iff in Hn as (f & <- & Hf).
  apply packed_files_member in Hf as [_ Hfit].
  destruct (node_of_name root f Hfit) as [rest ->].
  apply in_or_app; right; now left.
Qed.

(** X12. The entry count is stored in 16 bits without any check. The archive
    carries the number of packed files modulo 65536, and the reader
    scans that many records and no more: a name that none of them
    carries is reported as not found, even when a later record carries
    it. In particular nothing at all can be extracted from an archive of
    65536 files, or of any multiple of that number. *)
Theorem entry_count_wraps `{YepHeader} `{Zlib} (tree : fsnode)
    (creatable : string -> bool) (root output_name : string)
    (es : list packed_entry) :
  let pl' := _ye_walk_directory root root tree empty_pack_list in
  0 <= YEP_CURRENT_FORMAT_VERSION < 256 ->
  creatable output_name = true ->
  packed_as root tree (head pl') es ->
  in_range (entry_count pl') es ->
  exists archive,
    yep_pack_directory tree creatable empty_pack_list root output_name
    = Ret {| pr_ret := true; pr_list := pl'; pr_file := Some archive |}
    /\ le_value (ztake 2 (zdrop 1 archive)) = entry_count pl' mod UINT16
    /\ (forall (disk : string -> option (list Z)) (file handle : string)
               (p : process),
          disk file = Some archive ->
          cache_ok disk p ->
          (forall j, 0 <= j < entry_count pl' mod UINT16 ->
                     ~ entry_matches handle archive j) ->
          exists p', yep_extract_data disk file handle p = Ret (None, p'))
    /\ (entry_count pl' mod UINT16 = 0 ->
        forall (disk : string -> option (list Z)) (file handle : string)
               (p : process),
          disk file = Some archive ->
          cache_ok disk p ->
          exists p', yep_extract_data disk file handle p = Ret (None, p')).
Proof.
  intros pl' Hver Hcre Hes Hrange.
  assert (Hpl : pack_list_ok pl')
    by (apply walk_pack_list_ok; split; [constructor | reflexivity]).
  destruct Hpl as [Hnodes Hcount].
  pose proof (packed_as_ok _ _ _ _ Hes) as Heok.
  pose proof (packed_as_length _ _ _ _ Hes) as Hlen.
  destruct (archive_header_count (head pl') es Hver) as (Hlen3 & Hv & Hc).
  exists (archive_of (head pl') es).
  split.
  { apply yep_pack_directory_layout; try assumption.
    split; [constructor | reflexivity]. }
  split; [rewrite Hcount; exact Hc|].
  assert (Hscan : forall disk file handle p,
            disk file = Some (archive_of (head pl') es) ->
            cache_ok disk p ->
            (forall j, 0 <= j < entry_count pl' mod UINT16 ->
                       ~ entry_matches handle (archive_of (head pl') es) j) ->
            exists p', yep_extract_data disk file handle p = Ret (None, p')).
  { intros disk file handle p Hdisk Hok Hnone.
    destruct (open_archive disk file _ p Hok Hdisk Hlen3 Hv Hver)
      as (q & h & pos & Hopen & _ & _ & Hfileq & Hsq & Hcountq).
    rewrite Hc, <- Hcount in Hcountq.
    pose proof (len_nonneg (head pl')) as Hk.
    assert (Hmod : 0 <= entry_count pl' mod UINT16 <= entry_count pl').
    { rewrite Hcount; unfold UINT16; split.
      - apply Z.mod_pos_bound; lia.
      - apply Z.mod_le; lia. }
    destruct (seek_header_none handle q h (archive_of (head pl') es) pos Hfileq Hsq)
      as [v' Hhdr]; rewrite ?Hcountq.
    - lia.
    - rewrite len_archive_of by assumption.
      pose proof (payload_total_nonneg es Heok).
      unfold YEP_HEADER_SIZE_BYTES; lia.
    - intros j Hj; apply (archive_names_terminated root tree es Hes).
      fold pl'; lia.
    - exact Hnone.
    - eexists; unfold yep_extract_data; rewrite Hopen; cbn [bind negb].
      rewrite Hhdr; reflexivity. }
  split; [exact Hscan|].
  intros Hzero disk file handle p Hdisk Hok.
  apply (Hscan disk file handle p Hdisk Hok).
  intros j Hj; rewrite Hzero in Hj; lia.
Qed.

Lemma entry_count_wraps_witness :
  exists p',
    @yep_extract_data header_v1 stored_zlib sample_disk "out.yep" "nope"
      initial_process = Ret (None, p').
Proof.
  destruct (@entry_count_wraps header_v1 stored_zlib sample_tree always "res"
              "out.yep" sample_entries) as (archive & Hpack & _ & Hscan & _).
  - cbn; lia.
  - reflexivity.
  - by_computation.
  - in_range_by_computation.
  - assert (Hdisk : sample_disk "out.yep" = Some archive).
    { unfold sample_disk, disk_with, sample_archive; rewrite Hpack; reflexivity. }
    apply (Hscan sample_disk "out.yep" "nope" initial_process Hdisk
             (initial_cache_ok sample_disk)).
    assert (Harch : archive = sample_archive)
      by (unfold sample_archive; rewrite Hpack; reflexivity).
    subst archive.
    intros j Hj.
    change (entry_count (_ye_walk_directory "res" "res" sample_tree empty_pack_list)
              mod UINT16) with 3 in Hj.
    assert (Hcases : j = 0 \/ j = 1 \/ j = 2) by lia.
    destruct Hcases as [->|[->| ->]]; by_computation.
Defined.

(** ** Packing after [yep_initialize] *)

(** A write at or after offset 3 leaves the three-byte head of the file
    alone and never shortens the file. *)
Lemma fwrite_keeps_head (bs : list Z) (f : wfile) :
  3 <= w_pos f -> 3 <= len (w_data f) ->
  ztake 3 (w_data (fwrite bs f)) = ztake 3 (w_data f)
  /\ len (w_data f) <= len (w_data (fwrite bs f))
  /\ w_pos (fwrite bs f) = w_pos f + len bs.
Proof.
  intros Hpos Hlen; destruct bs as [|b bs]; [cbn; repeat split; lia|].
  unfold fwrite; cbn [w_data w_pos].
  set (padded := w_data f ++ repeat 0 (Z.to_nat (w_pos f - len (w_data f)))).
  assert (Hpad : len padded = Z.max (len (w_data f)) (w_pos f))
    by (unfold padded; rewrite len_app, len_repeat; lia).
  assert (Htake : len (ztake (w_pos f) padded) = w_pos f)
    by (apply len_ztake; lia).
  repeat split.
  - rewrite ztake_app_le by lia.
    unfold ztake at 1 2; rewrite firstn_firstn.
    replace (Nat.min (Z.to_nat 3) (Z.to_nat (w_pos f))) with (Z.to_nat 3) by lia.
    fold (ztake 3 padded); unfold padded; apply ztake_app_le; lia.
  - rewrite !len_app, Htake.
    unfold len, zdrop in *; rewrite length_skipn; lia.
Qed.

Lemma update_header_keeps_head (f : wfile) (i off sz ct us dt : Z) :
  0 <= i -> 3 <= len (w_data f) ->
  3 + i * YEP_HEADER_SIZE_BYTES + 64 <= INT_MAX ->
  exists f',
    update_header f i off sz ct us dt = Ret f'
    /\ ztake 3 (w_data f') = ztake 3 (w_data f)
    /\ len (w_data f) <= len (w_data f').
Proof.
  intros Hi Hlen Hmax; unfold update_header.
  destruct (Z.ltb_spec INT_MAX (3 + i * YEP_HEADER_SIZE_BYTES + 64)) as [Hgt|_]; [lia|].
  eexists; split; [reflexivity|].
  set (f0 := fseek_w f (3 + i * YEP_HEADER_SIZE_BYTES + 64)).
  assert (H0 : 3 <= w_pos f0) by (unfold f0, YEP_HEADER_SIZE_BYTES; cbn [fseek_w w_pos]; lia).
  assert (L0 : 3 <= len (w_data f0)) by exact Hlen.
  destruct (fwrite_keeps_head (le_bytes 4 off) f0 H0 L0) as (T1 & L1 & P1).
  set (f1 := fwrite (le_bytes 4 off) f0) in *.
  pose proof (len_nonneg (le_bytes 4 off)).
  destruct (fwrite_keeps_head (le_bytes 4 sz) f1) as (T2 & L2 & P2); try lia.
  set (f2 := fwrite (le_bytes 4 sz) f1) in *.
  pose proof (len_nonneg (le_bytes 4 sz)).
  destruct (fwrite_keeps_head (le_bytes 1 ct) f2) as (T3 & L3 & P3); try lia.
  set (f3 := fwrite (le_bytes 1 ct) f2) in *.
  pose proof (len_nonneg (le_bytes 1 ct)).
  destruct (fwrite_keeps_head (le_bytes 4 us) f3) as (T4 & L4 & P4); try lia.
  set (f4 := fwrite (le_bytes 4 us) f3) in *.
  pose proof (len_nonneg (le_bytes 4 us)).
  destruct (fwrite_keeps_head (le_bytes 1 dt) f4) as (T5 & L5 & _); try lia.
  split.
  - rewrite T5, T4, T3, T2, T1; reflexivity.
  - change (len (w_data f)) with (len (w_data f0)); lia.
Qed.

(** The loop of [write_pack_file] never touches the head of the archive,
    whatever the list and the entry count are, so long as no offset
    overflows. *)
Lemma write_pack_loop_keeps_head `{YepHeader} `{Zlib} (root : string) (tree : fsnode) :
  forall (nodes : list yep_header_node) (es : list packed_entry),
    Forall2 (fun n e => pack_entry root tree n = Ret e) nodes es ->
    Forall entry_ok es ->
    forall (cur data_end : Z) (f : wfile),
      0 <= cur -> 3 <= data_end -> 3 <= len (w_data f) ->
      3 + (cur + len nodes) * YEP_HEADER_SIZE_BYTES <= INT_MAX ->
      data_end + payload_total es < UINT32 ->
      exists f',
        write_pack_loop root tree nodes cur data_end f = Ret f'
        /\ ztake 3 (w_data f') = ztake 3 (w_data f)
        /\ len (w_data f) <= len (w_data f').
Proof.
  induction 1 as [|n e nodes es Hne Hrest IH];
    intros Heok cur data_end f Hcur Hend Hlen Hmax Hfit.
  - exists f; cbn [write_pack_loop]; repeat split; lia.
  - inversion_clear Heok as [|? ? He Heok'].
    cbn [write_pack_loop]; rewrite Hne; cbn [bind].
    unfold payload_total in Hfit; cbn [map zsum fold_right] in Hfit.
    fold (zsum (map pe_data_size es)) in Hfit; fold (payload_total es) in Hfit.
    assert (Hsz : 0 <= pe_data_size e) by (rewrite <- He; apply len_nonneg).
    pose proof (payload_total_nonneg es Heok') as Htot.
    rewrite len_cons in Hmax.
    pose proof (len_nonneg nodes) as Hn0.
    unfold write_data_to_pack.
    destruct (fwrite_keeps_head (ztake (pe_data_size e) (pe_data e))
                (fseek_w f data_end)) as (T1 & L1 & _); [exact Hend | exact Hlen |].
    set (f1 := fwrite (ztake (pe_data_size e) (pe_data e)) (fseek_w f data_end)) in *.
    cbn [fseek_w w_data] in T1, L1.
    destruct (update_header_keeps_head f1 cur data_end (pe_data_size e)
                (pe_compression_type e) (pe_uncompressed_size e) (pe_data_type e))
      as (f2 & Hupd & T2 & L2); [lia | lia | unfold YEP_HEADER_SIZE_BYTES in *; lia |].
    rewrite Hupd; cbn [bind].
    rewrite Z.mod_small by (unfold UINT32 in *; lia).
    destruct (IH Heok' (cur + 1) (data_end + pe_data_size e) f2)
      as (f' & Hloop & T3 & L3); try lia.
    exists f'; split; [exact Hloop|].
    split; [rewrite T3, T2, T1; reflexivity | lia].
Qed.

(** X13. [yep_initialize] resets the entry counter and nothing else: nodes
    listed before it stay listed. A pack that follows walks the new
    files in front of them and counts the new files only: the archive it
    writes is at least as long as a table with a record for every node,
    old and new, but the count stored in its head covers just the new
    ones. *)
Theorem initialize_keeps_nodes `{YepHeader} `{Zlib} (tree : fsnode)
    (creatable : string -> bool) (pl : yep_pack_list_t)
    (root output_name : string) (es : list packed_entry) :
  let pl' := _ye_walk_directory root root tree (yep_initialize pl) in
  let files := packed_files root tree in
  pack_list_ok pl ->
  creatable output_name = true ->
  packed_as root tree (head pl') es ->
  3 + len (head pl') * YEP_HEADER_SIZE_BYTES <= INT_MAX ->
  3 + entry_count pl' * YEP_HEADER_SIZE_BYTES + payload_total es < UINT32 ->
  head pl' = map (node_of root) files ++ head pl
  /\ entry_count pl' = len files
  /\ exists archive,
       yep_pack_directory tree creatable (yep_initialize pl) root output_name
       = Ret {| pr_ret := true; pr_list := pl'; pr_file := Some archive |}
       /\ ztake 3 archive = archive_head (len files)
       /\ 3 + (len files + len (head pl)) * YEP_HEADER_SIZE_BYTES <= len archive.
Proof.
  intros pl' files [Hold _] Hcre Hes Hmax Hfit.
  assert (Hwalk : head pl' = map (node_of root) files ++ head pl
                  /\ entry_count pl' = len files).
  { unfold pl', files, packed_files; rewrite walk_fold.
    destruct (fold_accept root (encountered root tree) (yep_initialize pl)) as [Hh Hc].
    rewrite Hh, Hc, map_rev, len_rev; cbn [head entry_count yep_initialize].
    split; [reflexivity | lia]. }
  destruct Hwalk as [Hhead Hcount].
  split; [exact Hhead|]. split; [exact Hcount|].
  assert (Hnodes : Forall node_ok (head pl')).
  { rewrite Hhead; apply Forall_app; split; [|exact Hold].
    apply Forall_forall; intros n Hn.
    apply in_map_iff in Hn as (file & <- & Hfile).
    apply node_of_ok; now apply packed_files_member in Hfile. }
  pose proof (packed_as_ok _ _ _ _ Hes) as Heok.
  pose proof (payload_total_nonneg es Heok) as Htot.
  pose proof (len_nonneg files) as Hk.
  pose proof (len_nonneg (head pl)) as Hm.
  assert (Hlen' : len (head pl') = len files + len (head pl))
    by (rewrite Hhead, len_app, len_map; reflexivity).
  unfold yep_pack_directory; fold pl'; rewrite Hcre; cbn [negb].
  rewrite fwrite_at_end by reflexivity.
  rewrite fwrite_at_end by reflexivity.
  rewrite write_headers_at_end by reflexivity.
  unfold write_pack_file.
  rewrite Hcount in *; unfold YEP_HEADER_SIZE_BYTES in *.
  rewrite Z.mod_small by (unfold UINT32 in *; lia).
  cbn [app].
  change (le_bytes 1 (YEP_CURRENT_FORMAT_VERSION mod UINT8)
            ++ le_bytes 2 (len files mod UINT16))
    with (archive_head (len files)).
  match goal with
  | |- context [write_pack_loop _ _ _ _ _ ?f0] =>
      destruct (write_pack_loop_keeps_head root tree (head pl') es
                  (packed_as_each _ _ _ _ Hes) Heok 0 (3 + len files * 78) f0)
        as (f' & Hloop & Htake & Hgrow)
  end.
  { lia. }
  { lia. }
  { cbn [w_data]; rewrite len_app, len_archive_head.
    pose proof (len_nonneg (concat (map skeleton_record (head pl')))); lia. }
  { unfold YEP_HEADER_SIZE_BYTES; lia. }
  { lia. }
  rewrite Hloop; cbn [bind].
  eexists; split; [reflexivity|].
  cbn [w_data] in Htake, Hgrow.
  rewrite ztake_app_len in Htake by apply len_archive_head.
  split; [exact Htake|].
  rewrite len_app, len_archive_head, len_skeleton in Hgrow by assumption.
  lia.
Qed.

Lemma initialize_keeps_nodes_witness :
  exists archive,
    @yep_pack_directory header_v1 stored_zlib sample_tree always
      (yep_initialize sample_list) "res" "out.yep"
    = Ret {| pr_ret := true;
             pr_list := _ye_walk_directory "res" "res" sample_tree
                          (yep_initialize sample_list);
             pr_file := Some archive |}
    /\ ztake 3 archive = [1; 3; 0]
    /\ 3 + (3 + 3) * 78 <= len archive.
Proof.
  destruct (@initialize_keeps_nodes header_v1 stored_zlib sample_tree always
              sample_list "res" "out.yep" (sample_entries ++ sample_entries))
    as (_ & _ & archive & Hpack & Hhead & Hlen).
  - split; [repeat constructor | reflexivity].
  - reflexivity.
  - by_computation.
  - by_computation.
  - by_computation.
  - exists archive; split; [exact Hpack|]. split; [exact Hhead | exact Hlen].
Defined.
